(** * SnakeBot: perception, planning and control loop

    A shallow embedding of the [SnakeBot] class (the pixel-observing snake
    player) together with the properties its specification states about
    path planning, snake reconstruction, cluster refinement and the
    per-frame control loop.

    Conventions of the embedding:
    - grid coordinates and direction deltas are integers ([Z]);
    - array lengths, indices and the score-derived expected length are
      naturals ([nat]); [analyzeBoard] passes [Math.max(1, score + 1)];
    - a JS [Set] of strings is a [gset string], a [Map] a [gmap string _];
      the keys are built exactly as the source builds them;
    - [null] / [undefined] results are [None];
    - loops are fixpoints over an explicit iteration budget; running out of
      budget and a thrown [TypeError] are distinct outcomes, and the
      theorems show that neither happens. *)

From Stdlib Require Import ZArith List Bool Lia QArith Qminmax Ascii Sorted.
From stdpp Require Import base gmap strings list pretty.

Open Scope Z_scope.

(** ** Outcomes of JS computations *)

Inductive outcome (A : Type) : Type :=
  | Ret (a : A)      (* normal completion with a value *)
  | Throw            (* an exception (TypeError on a missing element) *)
  | OutOfFuel.       (* the iteration budget of the model ran out *)

Arguments Ret {A} a.
Arguments Throw {A}.
Arguments OutOfFuel {A}.

Definition obind {A B} (k : A -> outcome B) (m : outcome A) : outcome B :=
  match m with
  | Ret a => k a
  | Throw => Throw
  | OutOfFuel => OutOfFuel
  end.

Definition omap {A B} (f : A -> B) (m : outcome A) : outcome B :=
  obind (fun a => Ret (f a)) m.

Global Instance outcome_ret : MRet outcome := @Ret.
Global Instance outcome_bind : MBind outcome := @obind.
Global Instance outcome_fmap : FMap outcome := @omap.

(** ** Cells and directions *)

Record Cell : Type := mkCell { x : Z; y : Z }.

Record Dir : Type := mkDir { dx : Z; dy : Z; key : string; name : string }.

Global Instance Cell_eq_dec : EqDecision Cell.
Proof. solve_decision. Defined.

Global Instance Dir_eq_dec : EqDecision Dir.
Proof. solve_decision. Defined.

Definition up : Dir := mkDir 0 (-1) "ArrowUp" "up".
Definition right : Dir := mkDir 1 0 "ArrowRight" "right".
Definition down : Dir := mkDir 0 1 "ArrowDown" "down".
Definition left : Dir := mkDir (-1) 0 "ArrowLeft" "left".

Definition DIRS : list Dir := [up; right; down; left].

(** [`${cell.x},${cell.y}`]; grid coordinates are small integers, which
    JS prints in plain decimal. *)
Definition coordKey (cell : Cell) : string :=
  pretty (x cell) +:+ "," +:+ pretty (y cell).

(** [!!a && !!b && a.x === b.x && a.y === b.y] *)
Definition sameCell (a b : option Cell) : bool :=
  match a, b with
  | Some a, Some b => (x a =? x b) && (y a =? y b)
  | _, _ => false
  end.

Definition manhattan (a b : Cell) : Z :=
  Z.abs (x a - x b) + Z.abs (y a - y b).

(** [this.grid] and [this.startCell] as set by the constructor. *)
Definition grid : Z := 28.
Definition startCell : Cell := mkCell (grid / 2) (grid / 2).

Definition isInside (pos : Cell) : bool :=
  (0 <=? x pos) && (0 <=? y pos) && (x pos <? grid) && (y pos <? grid).

(** ** PathPlanner: [findPath] *)

Inductive Mode : Type := ModeFood | ModeTail.

Definition is_food (mode : Mode) : bool :=
  match mode with ModeFood => true | ModeTail => false end.

(** A planner-internal search state.  [parent] is an index into the
    [states] array, or [-1] for the root. *)
Record SearchState : Type := mkState {
  st_head : Cell;
  st_body : list Cell;
  st_parent : Z;
  st_move : option Dir
}.

(** [body.map(s => `${s.x}:${s.y}`).join('|')] *)
Definition segKey (segment : Cell) : string :=
  pretty (x segment) +:+ ":" +:+ pretty (y segment).

Fixpoint join (sep : string) (parts : list string) : string :=
  match parts with
  | [] => ""
  | [p] => p
  | p :: rest => p +:+ sep +:+ join sep rest
  end.

Definition bodyKey (body : list Cell) : string :=
  join "|" (map segKey body).

Definition maxNodes : nat := Z.to_nat 20000.

(** [arr.pop()] on a copy, and [arr.slice(0, arr.length - 1)]: both drop
    the last element and leave an empty array empty. *)
Definition dropLast {A} (l : list A) : list A := take (length l - 1)%nat l.

Definition stepHead (h : Cell) (dir : Dir) : Cell :=
  mkCell (x h + dx dir) (y h + dy dir).

(** [arr.some(seg => seg.x === p.x && seg.y === p.y)] *)
Definition hitsCell (p : Cell) (segments : list Cell) : bool :=
  existsb (fun segment => (x segment =? x p) && (y segment =? y p)) segments.

(** One pass of the [for (const dir of DIRS)] body of [findPath], on the
    loop-carried pair ([states], [visited]). *)
Definition expandDir (mode : Mode) (target : Cell) (cursor : nat)
    (state : SearchState) (acc : list SearchState * gset string) (dir : Dir)
    : list SearchState * gset string :=
  let '(states, visited) := acc in
  let newHead := stepHead (st_head state) dir in
  if negb (isInside newHead) then acc else
  let grows := is_food mode && sameCell (Some newHead) (Some target) in
  let collisionBody :=
    if grows then st_body state else dropLast (st_body state) in
  if hitsCell newHead collisionBody then acc else
  let newBody := newHead :: st_body state in
  let newBody := if grows then newBody else dropLast newBody in
  let k := bodyKey newBody in
  if decide (k ∈ visited) then acc else
  let visited := {[k]} ∪ visited in
  if (length states <? maxNodes)%nat
  then (states ++ [mkState newHead newBody (Z.of_nat cursor) (Some dir)], visited)
  else (states, visited).

Definition expand (mode : Mode) (target : Cell) (cursor : nat)
    (state : SearchState) (states : list SearchState) (visited : gset string)
    : list SearchState * gset string :=
  fold_left (expandDir mode target cursor state) DIRS (states, visited).

(** [states[cursor]] for an integer [cursor]; [None] is [undefined]. *)
Definition stateAt (states : list SearchState) (cursor : Z) : option SearchState :=
  if cursor <? 0 then None else states !! Z.to_nat cursor.

(** The [while (cursor !== -1)] loop of [reconstructPath]: [path] collects
    the moves goal-first. *)
Fixpoint reconstructPath_loop (fuel : nat) (states : list SearchState)
    (cursor : Z) (path : list Dir) : outcome (list Dir) :=
  if cursor =? -1 then Ret path else
  match fuel with
  | O => OutOfFuel
  | S fuel' =>
      match stateAt states cursor with
      | None => Throw
      | Some state =>
          let path :=
            match st_move state with
            | Some m => path ++ [m]
            | None => path
            end in
          reconstructPath_loop fuel' states (st_parent state) path
      end
  end.

Definition reconstructPath (states : list SearchState) (index : nat)
    : outcome (list Dir) :=
  omap (@rev Dir)
       (reconstructPath_loop (S (length states)) states (Z.of_nat index) []).

(** What one call of [findPath] leaves behind: the returned value, the
    final length of [states] and the number of states taken from the
    queue (loop iterations started). *)
Record SearchRun : Type := mkRun {
  run_result : option (list Dir);
  run_stored : nat;
  run_examined : nat
}.

(** The [while (cursor < states.length && cursor < maxNodes)] loop. *)
Fixpoint findPath_loop (fuel : nat) (mode : Mode) (target : Cell)
    (states : list SearchState) (visited : gset string) (cursor : nat)
    : outcome SearchRun :=
  if (cursor <? length states)%nat && (cursor <? maxNodes)%nat then
    match fuel with
    | O => OutOfFuel
    | S fuel' =>
        match states !! cursor with
        | None => Throw
        | Some state =>
            if sameCell (Some (st_head state)) (Some target)
               && (is_food mode || negb (st_parent state =? -1))
            then
              path ← reconstructPath states cursor;
              Ret (mkRun (Some path) (length states) (S cursor))
            else
              let '(states', visited') :=
                expand mode target cursor state states visited in
              findPath_loop fuel' mode target states' visited' (S cursor)
        end
    end
  else Ret (mkRun None (length states) cursor).

(** [findPath(body, target, mode)], with the loop's final counters.

    For an empty [body] the start state's head is the coordinate-less
    object [{}]: it is never the same cell as [target], every candidate
    head has [NaN] coordinates and fails [isInside], so the single
    iteration stores nothing and the search returns [null]. *)
Definition findPath_run (body : list Cell) (target : option Cell) (mode : Mode)
    : outcome SearchRun :=
  match target with
  | None => Ret (mkRun None 0 0)
  | Some target =>
      match body with
      | [] => Ret (mkRun None 1 1)
      | h :: _ =>
          let startBody := map (fun p => mkCell (x p) (y p)) body in
          let startKey := bodyKey startBody in
          let states := [mkState h startBody (-1) None] in
          let visited : gset string := {[startKey]} in
          findPath_loop maxNodes mode target states visited 0
      end
  end.

Definition findPath (body : list Cell) (target : option Cell) (mode : Mode)
    : outcome (option (list Dir)) :=
  omap run_result (findPath_run body target mode).


(** ** The safety contract of a move sequence

    These definitions follow the specification's description of one
    simulated move: the candidate head, whether the snake grows, the
    collision-check body and the body after the move. *)

Definition growsAt (mode : Mode) (target newHead : Cell) : bool :=
  is_food mode && bool_decide (newHead = target).

Definition collisionCheckBody (mode : Mode) (target : Cell)
    (body : list Cell) (newHead : Cell) : list Cell :=
  if growsAt mode target newHead then body else dropLast body.

Definition advance (mode : Mode) (target : Cell) (body : list Cell) (d : Dir)
    : list Cell :=
  match body with
  | [] => []
  | h :: _ =>
      let newHead := stepHead h d in
      if growsAt mode target newHead then newHead :: body
      else dropLast (newHead :: body)
  end.

Definition legalMove (mode : Mode) (target : Cell) (body : list Cell) (d : Dir)
    : Prop :=
  match body with
  | [] => False
  | h :: _ =>
      isInside (stepHead h d) = true
      /\ stepHead h d ∉ collisionCheckBody mode target body (stepHead h d)
  end.

Fixpoint safeMoves (mode : Mode) (target : Cell) (body : list Cell)
    (path : list Dir) : Prop :=
  match path with
  | [] => True
  | d :: rest =>
      legalMove mode target body d
      /\ safeMoves mode target (advance mode target body d) rest
  end.

Definition runMoves (mode : Mode) (target : Cell) (body : list Cell)
    (path : list Dir) : list Cell :=
  fold_left (advance mode target) path body.

(** ** SnakeReconstructor: cluster refinement

    Brightness values are IEEE doubles in the program.  The refinement
    only compares them ([>=], [Math.max], the sort comparator's sign), so
    they are modelled by the rational numbers they denote. *)

Record Metric : Type := mkMetric {
  m_r : Q; m_g : Q; m_b : Q; m_a : Q;
  value : Q;
  bright : bool
}.

Record Cluster : Type := mkCluster {
  cells : list Cell;
  cl_set : gset string
}.

(** A cluster cell paired with its brightness: [{x, y, value}]. *)
Record Enriched : Type := mkEnriched { e_cell : Cell; e_value : Q }.

(** [this.valueThreshold] as set by the constructor. *)
Definition valueThreshold : Q := 32 # 1.

(** [metrics[cell.y][cell.x]]; a missing row or entry is [None] and makes
    the property access throw. *)
Definition metricAt (metrics : list (list Metric)) (cell : Cell) : option Metric :=
  if (y cell <? 0) || (x cell <? 0) then None
  else row ← metrics !! Z.to_nat (y cell); row !! Z.to_nat (x cell).

Fixpoint enrich (metrics : list (list Metric)) (cs : list Cell)
    : outcome (list Enriched) :=
  match cs with
  | [] => Ret []
  | cell :: rest =>
      match metricAt metrics cell with
      | None => Throw
      | Some m =>
          rest' ← enrich metrics rest;
          Ret (mkEnriched (mkCell (x cell) (y cell)) (value m) :: rest')
      end
  end.

(** [Array.prototype.sort] with a consistent comparator is a stable sort.
    [before b a] says that the comparator puts [b] strictly before [a]. *)
Fixpoint insertBy {A} (before : A -> A -> bool) (a : A) (l : list A) : list A :=
  match l with
  | [] => [a]
  | b :: l' => if before b a then b :: insertBy before a l' else a :: l
  end.

Definition sortBy {A} (before : A -> A -> bool) (l : list A) : list A :=
  foldr (insertBy before) [] l.

(** [(a, b) => b.value - a.value] is negative when [a] is brighter. *)
Definition brighter (a b : Enriched) : bool :=
  negb (Qle_bool (e_value a) (e_value b)).

Definition brightnessSorted (enriched : list Enriched) : list Enriched :=
  sortBy brighter enriched.

Definition maxKeep (expectedLen : nat) (enriched : list Enriched) : nat :=
  Nat.max (expectedLen + 6) (Nat.min (length enriched) (expectedLen * 2)).

Definition keptSlice (expectedLen : nat) (enriched : list Enriched)
    : list Enriched :=
  take (maxKeep expectedLen enriched) (brightnessSorted enriched).

Definition cutoffIndex (expectedLen : nat) (slice : list Enriched) : Z :=
  Z.min (Z.of_nat expectedLen - 1) (Z.of_nat (length slice) - 1).

(** [Math.max(this.valueThreshold, slice[cutoffIndex]?.value ?? this.valueThreshold)] *)
Definition dynamicThreshold (expectedLen : nat) (slice : list Enriched) : Q :=
  let i := cutoffIndex expectedLen slice in
  let v :=
    match (if i <? 0 then None else slice !! Z.to_nat i) with
    | Some c => e_value c
    | None => valueThreshold
    end in
  Qmax valueThreshold v.

(** The [for (let i = 0; i < slice.length; i++)] loop building [filtered]. *)
Fixpoint filterFrom (threshold : Q) (expectedLen : nat) (i : nat)
    (slice : list Enriched) : list Enriched :=
  match slice with
  | [] => []
  | cell :: rest =>
      if Qle_bool threshold (e_value cell) || (i <? expectedLen)%nat
      then cell :: filterFrom threshold expectedLen (S i) rest
      else filterFrom threshold expectedLen (S i) rest
  end.

(** The [for (const cell of filtered)] loop building [unique]. *)
Fixpoint uniqueLoop (keep : nat) (filtered : list Enriched)
    (seen : gset string) (unique : list Cell) : list Cell :=
  match filtered with
  | [] => unique
  | cell :: rest =>
      let k := coordKey (e_cell cell) in
      if decide (k ∈ seen) then uniqueLoop keep rest seen unique
      else
        let seen := {[k]} ∪ seen in
        let unique := unique ++ [mkCell (x (e_cell cell)) (y (e_cell cell))] in
        if (keep <=? length unique)%nat then unique
        else uniqueLoop keep rest seen unique
  end.

Definition refineCells (expectedLen : nat) (enriched : list Enriched) : Cluster :=
  let slice := keptSlice expectedLen enriched in
  let threshold := dynamicThreshold expectedLen slice in
  let filtered := filterFrom threshold expectedLen 0 slice in
  let unique := uniqueLoop (maxKeep expectedLen enriched) filtered ∅ [] in
  mkCluster unique (list_to_set (map coordKey unique)).

Definition refineSnakeCluster (metrics : list (list Metric))
    (cluster : option Cluster) (expectedLen : nat) : outcome (option Cluster) :=
  match cluster with
  | None => Ret None
  | Some cluster =>
      enriched ← enrich metrics (cells cluster);
      match enriched with
      | [] => Ret (Some cluster)
      | _ :: _ => Ret (Some (refineCells expectedLen enriched))
      end
  end.

(** ** The bot's cross-tick state *)

Record Bot : Type := mkBot {
  prevSnakeKeys : gset string;
  prevHead : option Cell;
  expectedHead : option Cell;
  commandPending : bool;
  plan : list Dir;
  running : bool;
  prevSnake : option (list Cell);
  prevFood : option Cell;
  lastScore : Z;
  currentDir : option Cell;     (* a vector [{x, y}] *)
  lastBodyLength : nat
}.

(** The state the constructor sets up, [score] being the score shown. *)
Definition newBot (score : Z) : Bot :=
  mkBot ∅ None None false [] false None None score (Some (mkCell 1 0)) 1.

Definition set_prevSnakeKeys (v : gset string) (b : Bot) : Bot :=
  mkBot v (prevHead b) (expectedHead b) (commandPending b) (plan b)
        (running b) (prevSnake b) (prevFood b) (lastScore b) (currentDir b)
        (lastBodyLength b).
Definition set_prevHead (v : option Cell) (b : Bot) : Bot :=
  mkBot (prevSnakeKeys b) v (expectedHead b) (commandPending b) (plan b)
        (running b) (prevSnake b) (prevFood b) (lastScore b) (currentDir b)
        (lastBodyLength b).
Definition set_expectedHead (v : option Cell) (b : Bot) : Bot :=
  mkBot (prevSnakeKeys b) (prevHead b) v (commandPending b) (plan b)
        (running b) (prevSnake b) (prevFood b) (lastScore b) (currentDir b)
        (lastBodyLength b).
Definition set_commandPending (v : bool) (b : Bot) : Bot :=
  mkBot (prevSnakeKeys b) (prevHead b) (expectedHead b) v (plan b)
        (running b) (prevSnake b) (prevFood b) (lastScore b) (currentDir b)
        (lastBodyLength b).
Definition set_plan (v : list Dir) (b : Bot) : Bot :=
  mkBot (prevSnakeKeys b) (prevHead b) (expectedHead b) (commandPending b) v
        (running b) (prevSnake b) (prevFood b) (lastScore b) (currentDir b)
        (lastBodyLength b).
Definition set_prevSnake (v : option (list Cell)) (b : Bot) : Bot :=
  mkBot (prevSnakeKeys b) (prevHead b) (expectedHead b) (commandPending b)
        (plan b) (running b) v (prevFood b) (lastScore b) (currentDir b)
        (lastBodyLength b).
Definition set_prevFood (v : option Cell) (b : Bot) : Bot :=
  mkBot (prevSnakeKeys b) (prevHead b) (expectedHead b) (commandPending b)
        (plan b) (running b) (prevSnake b) v (lastScore b) (currentDir b)
        (lastBodyLength b).
Definition set_lastScore (v : Z) (b : Bot) : Bot :=
  mkBot (prevSnakeKeys b) (prevHead b) (expectedHead b) (commandPending b)
        (plan b) (running b) (prevSnake b) (prevFood b) v (currentDir b)
        (lastBodyLength b).
Definition set_currentDir (v : option Cell) (b : Bot) : Bot :=
  mkBot (prevSnakeKeys b) (prevHead b) (expectedHead b) (commandPending b)
        (plan b) (running b) (prevSnake b) (prevFood b) (lastScore b) v
        (lastBodyLength b).
Definition set_lastBodyLength (v : nat) (b : Bot) : Bot :=
  mkBot (prevSnakeKeys b) (prevHead b) (expectedHead b) (commandPending b)
        (plan b) (running b) (prevSnake b) (prevFood b) (lastScore b)
        (currentDir b) v.

(** ** SnakeReconstructor: the walk *)

Record Snake : Type := mkSnake {
  sn_head : option Cell;
  sn_tail : option Cell;
  sn_body : list Cell
}.

Definition getNeighbors (cell : Cell) (set : gset string) : list Cell :=
  let options :=
    [ mkCell (x cell + 1) (y cell); mkCell (x cell - 1) (y cell);
      mkCell (x cell) (y cell + 1); mkCell (x cell) (y cell - 1) ] in
  List.filter
    (fun pos =>
       negb ((x pos <? 0) || (y pos <? 0) || (grid <=? x pos) || (grid <=? y pos))
       && bool_decide (coordKey pos ∈ set))
    options.

(** [(a, b) => manhattan(a, reference) - manhattan(b, reference)] *)
Definition nearer (reference : Cell) (a b : Cell) : bool :=
  manhattan a reference <? manhattan b reference.

(** The [neighborCounts] map and the [endpoints] filter. *)
Definition neighborCounts (cs : list Cell) (set : gset string) : gmap string nat :=
  foldl (fun counts cell =>
           <[coordKey cell := length (getNeighbors cell set)]> counts)
        ∅ cs.

Definition endpointsOf (cs : list Cell) (set : gset string) : list Cell :=
  let counts := neighborCounts cs set in
  List.filter
    (fun cell =>
       match counts !! coordKey cell with
       | Some count => (count <=? 1)%nat
       | None => false
       end)
    cs.

(** Head selection of [reconstructSnake] (everything before the walk). *)
Definition pickHead (bot : Bot) (cs : list Cell) (set : gset string)
    : option Cell :=
  let head :=
    match expectedHead bot with
    | Some eh => if decide (coordKey eh ∈ set) then Some eh else None
    | None => None
    end in
  let head :=
    match head, prevHead bot with
    | None, Some ph =>
        List.find
          (fun c => (manhattan c ph =? 1) && negb (sameCell (Some c) (Some ph)))
          cs
    | _, _ => head
    end in
  let endpoints := endpointsOf cs set in
  match head with
  | Some h => Some h
  | None =>
      let reference := default startCell (prevHead bot) in
      match endpoints with
      | [e] => Some e
      | _ :: _ :: _ => List.hd_error (sortBy (nearer reference) endpoints)
      | [] => List.hd_error (sortBy (nearer reference) cs)
      end
  end.

(** The [while (current)] loop.  [Ret None] is the loop guard's
    [return null]; [Ret (Some body)] is the normal exit. *)
Fixpoint walk (fuel : nat) (set : gset string) (visited : gset string)
    (body : list Cell) (current : Cell) (prev : option Cell)
    : outcome (option (list Cell)) :=
  match fuel with
  | O => OutOfFuel
  | S fuel' =>
      let body := body ++ [current] in
      let visited := {[coordKey current]} ∪ visited in
      let neighbors := getNeighbors current set in
      let next :=
        List.find
          (fun candidate =>
             negb (sameCell (Some candidate) prev)
             && negb (bool_decide (coordKey candidate ∈ visited)))
          neighbors in
      match next with
      | None => Ret (Some body)
      | Some next =>
          if (size set + 2 <? length body)%nat then Ret None
          else walk fuel' set visited body next (Some current)
      end
  end.

Definition clusterCells (cluster : Cluster) : list Cell :=
  map (fun c => mkCell (x c) (y c)) (cells cluster).

Definition clusterHead (bot : Bot) (cluster : Cluster) : option Cell :=
  pickHead bot (clusterCells cluster) (cl_set cluster).

Definition walkCluster (bot : Bot) (cluster : Cluster)
    : outcome (option (list Cell)) :=
  let set := cl_set cluster in
  match clusterCells cluster with
  | [] => Ret None
  | first :: _ =>
      let current := default first (clusterHead bot cluster) in
      walk (size set + 3) set ∅ [] current None
  end.

(** Truncation to [expectedLen] and padding from the previous snake. *)
Definition truncateBody (expectedLen : nat) (body : list Cell) : list Cell :=
  if (expectedLen <? length body)%nat then take expectedLen body else body.

Definition padBody (bot : Bot) (expectedLen : nat) (body : list Cell)
    : list Cell :=
  match prevSnake bot with
  | Some previous =>
      if (length body <? expectedLen)%nat && (0 <? length previous)%nat then
        let missing := (expectedLen - length body)%nat in
        let supplement := drop (length previous - missing) previous in
        body ++ rev supplement
      else body
  | None => body
  end.

Definition reconstructSnake (bot : Bot) (cluster : option Cluster)
    (expectedLen : nat) : outcome (option Snake) :=
  match cluster with
  | None => Ret None
  | Some cluster =>
      walked ← walkCluster bot cluster;
      match walked with
      | None => Ret None
      | Some body =>
          let body := truncateBody expectedLen body in
          let body := padBody bot expectedLen body in
          if (length body <? expectedLen)%nat then Ret None
          else
            let head := List.hd_error body in
            let tail :=
              match last body with
              | Some t => Some t
              | None => clusterHead bot cluster
              end in
            Ret (Some (mkSnake head tail body))
      end
  end.

(** [expectedLength()] and the value [analyzeBoard] derives from it. *)
Definition expectedLength (score : Z) : Z := score + 1.

Definition analyzeBoard_expectedLen (score : Z) : nat :=
  Z.to_nat (Z.max 1 (expectedLength score)).

(** The refine-then-reconstruct step of [analyzeBoard]. *)
Definition analyzeBoard_snake (bot : Bot) (metrics : list (list Metric))
    (snakeCluster : option Cluster) (score : Z) : outcome (option Snake) :=
  let expectedLen := analyzeBoard_expectedLen score in
  refinedCluster ← refineSnakeCluster metrics snakeCluster expectedLen;
  reconstructSnake bot refinedCluster expectedLen.

(** ** PathPlanner: the safety fallback and the planning policy *)

(** The per-tick observation ([state] in [update]). *)
Record Observation : Type := mkObservation {
  ob_head : Cell;
  ob_tail : Cell;
  ob_body : list Cell;
  ob_food : option Cell
}.

(** [`${dir.dx},${dir.dy}`] *)
Definition dirKey (dir : Dir) : string :=
  pretty (dx dir) +:+ "," +:+ pretty (dy dir).

Definition pushUnseen (acc : gset string * list Dir) (dir : Dir)
    : gset string * list Dir :=
  let '(seen, order) := acc in
  if decide (dirKey dir ∈ seen) then acc
  else ({[dirKey dir]} ∪ seen, order ++ [dir]).

(** Entries of [preferred] may be [null]; those are skipped. *)
Definition pushPreferred (acc : gset string * list Dir) (dir : option Dir)
    : gset string * list Dir :=
  match dir with
  | None => acc
  | Some dir => pushUnseen acc dir
  end.

Definition directionOrder (preferred : list (option Dir)) : list Dir :=
  (foldl pushUnseen (foldl pushPreferred (∅, []) preferred) DIRS).2.

(** [this.lastBodyLength > 1 && this.currentDir
     && dir.dx === -this.currentDir.x && dir.dy === -this.currentDir.y] *)
Definition isReversal (bot : Bot) (dir : Dir) : bool :=
  (1 <? lastBodyLength bot)%nat
  && match currentDir bot with
     | Some cd => (dx dir =? - x cd) && (dy dir =? - y cd)
     | None => false
     end.

Definition survives (bot : Bot) (state : Observation) (dir : Dir) : bool :=
  if isReversal bot dir then false else
  let nx := x (ob_head state) + dx dir in
  let ny := y (ob_head state) + dy dir in
  if negb (isInside (mkCell nx ny)) then false else
  negb (existsb (fun seg => (x seg =? nx) && (y seg =? ny))
                (dropLast (ob_body state))).

Definition chooseSafeDirection (bot : Bot) (state : Observation)
    (preferred : list (option Dir)) : option Dir :=
  List.find (survives bot state) (directionOrder preferred).

Definition nonEmptyPath (p : option (list Dir)) : option (list Dir) :=
  match p with
  | Some (d :: rest) => Some (d :: rest)
  | _ => None
  end.

Definition planPath (bot : Bot) (state : option Observation)
    : outcome (list Dir) :=
  match state with
  | None => Ret []
  | Some state =>
      let body := ob_body state in
      pathToFood ←
        match ob_food state with
        | Some f => findPath body (Some f) ModeFood
        | None => Ret None
        end;
      match nonEmptyPath pathToFood with
      | Some p => Ret p
      | None =>
          fallback ← findPath body (last body) ModeTail;
          match nonEmptyPath fallback with
          | Some p => Ret p
          | None =>
              match chooseSafeDirection bot state [] with
              | Some safe => Ret [safe]
              | None => Ret []
              end
          end
      end
  end.

(** ** ControlLoop: one tick of [update] *)

(** What one tick reads from the page.  [analyzeBoard] is taken as the
    perception result of the frame; its two assignments to the bot's
    state are modelled by [analyzeBoard_effects]. *)
Record Frame : Type := mkFrame {
  fr_startOverlay : bool;      (* start overlay has class [active] *)
  fr_gameOverOverlay : bool;   (* game-over overlay has class [active] *)
  fr_scoreAtStart : Z;         (* [getScore()] after the start click *)
  fr_scoreAtAgain : Z;         (* [getScore()] after the again click *)
  fr_playing : bool;           (* body has class [playing] *)
  fr_score : Z;                (* [getScore()] in [update] *)
  fr_analysis : option Observation
}.

Definition resetBot (score : Z) (bot : Bot) : Bot :=
  mkBot ∅ None None false [] (running bot) None None score
        (Some (mkCell 1 0)) 1.

Definition ensureGameRunning (bot : Bot) (fr : Frame) : Bot :=
  let bot :=
    if fr_startOverlay fr then resetBot (fr_scoreAtStart fr) bot else bot in
  if fr_gameOverOverlay fr then resetBot (fr_scoreAtAgain fr) bot else bot.

Definition analyzeBoard_effects (bot : Bot) (analysis : option Observation)
    : Bot :=
  match analysis with
  | None => bot
  | Some obs =>
      let bot :=
        match ob_body obs with
        | [] => bot
        | _ :: _ => set_prevSnake (Some (ob_body obs)) bot
        end in
      match ob_food obs with
      | Some f => set_prevFood (Some f) bot
      | None => bot
      end
  end.

(** Lines 131-150: synthesising a state when perception failed. *)
Definition extrapolate (bot : Bot) (grewThisTick : bool)
    : Bot * option Observation :=
  match prevSnake bot with
  | Some (p0 :: prest) =>
      let bot :=
        match expectedHead bot with
        | Some eh =>
            let simulated := mkCell (x eh) (y eh) :: p0 :: prest in
            let simulated :=
              if negb grewThisTick && (1 <? length simulated)%nat
              then dropLast simulated else simulated in
            let bot := set_prevSnake (Some simulated) bot in
            let bot :=
              set_prevSnakeKeys (list_to_set (map coordKey simulated)) bot in
            let bot := set_prevHead (List.hd_error simulated) bot in
            let bot := set_commandPending false bot in
            set_expectedHead None bot
        | None => bot
        end in
      match prevSnake bot with
      | Some (h :: rest) =>
          (bot, Some (mkObservation h (List.last rest h) (h :: rest)
                                    (prevFood bot)))
      | _ => (bot, None)
      end
  | _ => (bot, None)
  end.

Definition updateCurrentDir (bot : Bot) (state : Observation) : Bot :=
  match ob_body state with
  | [] => bot
  | head :: neck :: _ =>
      set_currentDir (Some (mkCell (x head - x neck) (y head - y neck))) bot
  | [head] =>
      match expectedHead bot with
      | Some eh =>
          set_currentDir (Some (mkCell (x eh - x head) (y eh - y head))) bot
      | None => bot
      end
  end.

Definition shouldAvoidWall (bot : Bot) (state : Observation) : bool :=
  match currentDir bot with
  | None => false
  | Some cd =>
      negb (isInside (mkCell (x (ob_head state) + x cd)
                             (y (ob_head state) + y cd)))
  end.

Definition perpendicularDirs (bot : Bot) : list Dir :=
  match currentDir bot with
  | None => DIRS
  | Some cd =>
      if negb (x cd =? 0) then List.filter (fun dir => dx dir =? 0) DIRS
      else if negb (y cd =? 0) then List.filter (fun dir => dy dir =? 0) DIRS
      else DIRS
  end.

(** Lines 159-166: the emergency turn in front of a wall. *)
Definition emergencyTurn (bot : Bot) (state : Observation) : Bot :=
  match plan bot with
  | [] =>
      if shouldAvoidWall bot state then
        match chooseSafeDirection bot state (map Some (perpendicularDirs bot)) with
        | Some turn => set_commandPending false (set_plan [turn] bot)
        | None => bot
        end
      else bot
  | _ :: _ => bot
  end.

(** Lines 168-177: reconciling the observed head with the prediction. *)
Definition reconcileHead (bot : Bot) (state : Observation) : Bot :=
  if match expectedHead bot with
     | Some eh => sameCell (Some (ob_head state)) (Some eh)
     | None => false
     end
  then
    set_expectedHead None
      (set_prevHead (Some (ob_head state)) (set_commandPending false bot))
  else if match prevHead bot with
          | None => true
          | Some ph => negb (sameCell (Some (ob_head state)) (Some ph))
          end
  then
    set_expectedHead None
      (set_plan []
         (set_commandPending false (set_prevHead (Some (ob_head state)) bot)))
  else bot.

(** [sendDirection]: the returned flag and the keys of the dispatched
    keyboard events. *)
Definition sendDirection (bot : Bot) (dir : Dir) : bool * list string :=
  if isReversal bot dir then (false, [])
  else (true, [key dir]).

(** Lines 189-201: taking the next move from the plan and dispatching it. *)
Definition dispatchNext (bot : Bot) (state : Observation) : Bot * list string :=
  if commandPending bot then (bot, [])
  else
    match plan bot with
    | [] => (bot, [])
    | nextDir :: rest =>
        let bot := set_plan rest bot in
        let '(dispatched, events) := sendDirection bot nextDir in
        if dispatched then
          (set_expectedHead
             (Some (mkCell (x (ob_head state) + dx nextDir)
                           (y (ob_head state) + dy nextDir)))
             (set_commandPending true bot),
           events)
        else (bot, events)
    end.

(** Lines 179-201: everything after the reconciliation. *)
Definition finishTick (bot : Bot) (state : Observation)
    : outcome (Bot * list string) :=
  let bot :=
    set_prevSnakeKeys (list_to_set (map coordKey (ob_body state))) bot in
  bot ←
    match plan bot with
    | [] => p ← planPath bot (Some state); Ret (set_plan p bot)
    | _ :: _ => Ret bot
    end;
  match plan bot with
  | [] => Ret (bot, [])
  | _ :: _ => Ret (dispatchNext bot state)
  end.

(** The state handed to the rest of the tick, after perception or
    extrapolation (lines 123-150). *)
Definition observe (bot : Bot) (fr : Frame) : Bot * option Observation :=
  let currentScore := fr_score fr in
  let grewThisTick := lastScore bot <? currentScore in
  let bot := if grewThisTick then set_prevFood None bot else bot in
  let bot := set_lastScore currentScore bot in
  let bot := analyzeBoard_effects bot (fr_analysis fr) in
  match fr_analysis fr with
  | Some state => (bot, Some state)
  | None => extrapolate bot grewThisTick
  end.

(** Lines 156-166. *)
Definition settle (bot : Bot) (state : Observation) : Bot :=
  let bot := set_lastBodyLength (length (ob_body state)) bot in
  let bot := updateCurrentDir bot state in
  emergencyTurn bot state.

Definition update (bot : Bot) (fr : Frame) : outcome (Bot * list string) :=
  let bot := ensureGameRunning bot fr in
  if negb (fr_playing fr) then Ret (bot, []) else
  let '(bot, state) := observe bot fr in
  match state with
  | None => Ret (bot, [])
  | Some state =>
      finishTick (reconcileHead (settle bot state) state) state
  end.

(** * Specification-side definitions and example inputs *)

(** ** The search tree stored in [states]

    Every stored state is either the root (the start body, no move) or
    was produced from an earlier stored state by one legal move. *)
Definition nodeOk (mode : Mode) (target : Cell) (start : list Cell)
    (states : list SearchState) (i : nat) (st : SearchState) : Prop :=
  (exists rest, st_body st = st_head st :: rest)
  /\ ((i = 0%nat /\ st_parent st = -1 /\ st_move st = None
       /\ st_body st = start)
      \/ (exists (j : nat) (pst : SearchState) (d : Dir),
           st_parent st = Z.of_nat j /\ (j < i)%nat
           /\ states !! j = Some pst /\ st_move st = Some d
           /\ legalMove mode target (st_body pst) d
           /\ st_body st = advance mode target (st_body pst) d)).

Definition statesOk (mode : Mode) (target : Cell) (start : list Cell)
    (states : list SearchState) : Prop :=
  forall i st, states !! i = Some st -> nodeOk mode target start states i st.

(** Consecutive cells one step apart. *)
Fixpoint adjacentChain (l : list Cell) : Prop :=
  match l with
  | a :: (b :: _) as rest => manhattan a b = 1 /\ adjacentChain rest
  | _ => True
  end.

(** The body invariant of the data model. *)
Definition validSnakeBody (l : list Cell) : Prop :=
  NoDup l /\ adjacentChain l.

(** A straight three-cell snake that has just moved right onto the
    predicted head (14,14), seen in full. *)
Definition straight_cluster : Cluster :=
  let cs := [mkCell 14 14; mkCell 13 14; mkCell 12 14] in
  mkCluster cs (list_to_set (map coordKey cs)).

Definition straight_bot : Bot :=
  mkBot (list_to_set (map coordKey [mkCell 13 14; mkCell 12 14; mkCell 11 14]))
        (Some (mkCell 13 14)) (Some (mkCell 14 14)) true [] true
        (Some [mkCell 13 14; mkCell 12 14; mkCell 11 14]) None 2
        (Some (mkCell 1 0)) 3.

Definition straight_snake : Snake :=
  mkSnake (Some (mkCell 14 14)) (Some (mkCell 12 14))
          [mkCell 14 14; mkCell 13 14; mkCell 12 14].

(** A frame in which the tail segment is not detected: the snake moved
    from [(14,14),(13,14),(12,14)] to [(15,14),(14,14),(13,14)] and only
    the first two cells are bright. *)
Definition faded_cluster : Cluster :=
  let cs := [mkCell 15 14; mkCell 14 14] in
  mkCluster cs (list_to_set (map coordKey cs)).

Definition faded_bot : Bot :=
  mkBot (list_to_set (map coordKey [mkCell 14 14; mkCell 13 14; mkCell 12 14]))
        (Some (mkCell 14 14)) (Some (mkCell 15 14)) true [] true
        (Some [mkCell 14 14; mkCell 13 14; mkCell 12 14]) None 2
        (Some (mkCell 1 0)) 3.

Fixpoint noComma (s : string) : Prop :=
  match s with
  | EmptyString => True
  | String c s' => c <> ","%char /\ noComma s'
  end.

Definition descending (l : list Enriched) : Prop :=
  StronglySorted (fun a b => (e_value b <= e_value a)%Q) l.

(** The retention test of the filter loop, for the cell of rank [i]. *)
Definition retainsAtLeast (threshold : Q) (expectedLen i : nat) (e : Enriched)
    : Prop :=
  (threshold <= e_value e)%Q \/ (i < expectedLen)%nat.

(** The retention test as the specification words it ("exceeds"). *)
Definition retainsExceeding (threshold : Q) (expectedLen i : nat) (e : Enriched)
    : Prop :=
  (threshold < e_value e)%Q \/ (i < expectedLen)%nat.

(** A cluster of three equally bright cells, as a uniformly coloured
    snake gives, refined for an expected length of 1. *)
Definition tie_metric : Metric :=
  mkMetric (100 # 1) (100 # 1) (100 # 1) (255 # 1) (100 # 1) true.

Definition tie_metrics : list (list Metric) :=
  [[tie_metric; tie_metric; tie_metric]].

Definition tie_cluster : Cluster :=
  let cs := [mkCell 0 0; mkCell 1 0; mkCell 2 0] in
  mkCluster cs (list_to_set (map coordKey cs)).

Definition tie_enriched : list Enriched :=
  [mkEnriched (mkCell 0 0) (100 # 1); mkEnriched (mkCell 1 0) (100 # 1);
   mkEnriched (mkCell 2 0) (100 # 1)].

(** The claim C7 read literally: a cell of the kept slice is retained
    exactly when its brightness exceeds the cutoff or its rank is within
    the expected length. *)
Definition retainedExactlyWhenExceeding (metrics : list (list Metric))
    (cluster : Cluster) (expectedLen : nat) : Prop :=
  forall refined enriched,
    refineSnakeCluster metrics (Some cluster) expectedLen = Ret (Some refined) ->
    enrich metrics (cells cluster) = Ret enriched ->
    forall i e,
      keptSlice expectedLen enriched !! i = Some e ->
      (e_cell e ∈ cells refined <->
       retainsExceeding
         (dynamicThreshold expectedLen (keptSlice expectedLen enriched))
         expectedLen i e).

Definition demo_bot : Bot :=
  mkBot ∅ (Some (mkCell 5 5)) None false [] true
        (Some [mkCell 5 5; mkCell 4 5]) None 1 (Some (mkCell 1 0)) 2.

Definition demo_state : Observation :=
  mkObservation (mkCell 5 5) (mkCell 4 5) [mkCell 5 5; mkCell 4 5] None.

(** The claim C9 read literally: whenever the observed head differs from
    the predicted head, the reconciliation clears the pending flag and
    the plan. *)
Definition clearsOnMismatch (bot : Bot) (state : Observation) : Prop :=
  (exists eh, expectedHead bot = Some eh /\ ob_head state <> eh) ->
  commandPending (reconcileHead bot state) = false
  /\ plan (reconcileHead bot state) = [].

(** A frame rendered between two game ticks: the command [right] was
    sent from (5,5), the head is predicted at (6,5), and the snake has
    not moved yet. *)
Definition waiting_bot : Bot :=
  mkBot (list_to_set (map coordKey [mkCell 5 5; mkCell 4 5]))
        (Some (mkCell 5 5)) (Some (mkCell 6 5)) true [right] true
        (Some [mkCell 5 5; mkCell 4 5]) None 1 (Some (mkCell 1 0)) 2.

Definition waiting_state : Observation :=
  mkObservation (mkCell 5 5) (mkCell 4 5) [mkCell 5 5; mkCell 4 5] None.

Definition waiting_frame : Frame :=
  mkFrame false false 0 0 true 1 (Some waiting_state).

(** The snake was predicted at (6,5) after [right] but is seen at (5,6). *)
Definition desync_bot : Bot :=
  mkBot (list_to_set (map coordKey [mkCell 5 5; mkCell 4 5]))
        (Some (mkCell 5 5)) (Some (mkCell 6 5)) true [right; right] true
        (Some [mkCell 5 5; mkCell 4 5]) None 1 (Some (mkCell 1 0)) 2.

Definition desync_state : Observation :=
  mkObservation (mkCell 5 6) (mkCell 5 5) [mkCell 5 6; mkCell 5 5] None.

(** A two-cell snake heading right whose plan starts with [left]: in
    tail mode the planner may return such a move, because the neck is
    the vacating cell. *)
Definition reversing_bot : Bot :=
  mkBot (list_to_set (map coordKey [mkCell 5 5; mkCell 4 5]))
        (Some (mkCell 5 5)) None false [left; up] true
        (Some [mkCell 5 5; mkCell 4 5]) None 1 (Some (mkCell 1 0)) 2.

(** Between ticks, a cleared pending flag comes with a cleared
    prediction. *)
Definition idleInvariant (bot : Bot) : Prop :=
  commandPending bot = false -> expectedHead bot = None.

(** Within a tick, after the emergency turn: either [idleInvariant], or
    the plan is the single turn just chosen, which is not a reversal. *)
Definition settledInvariant (bot : Bot) : Prop :=
  idleInvariant bot
  \/ exists turn, plan bot = [turn] /\ isReversal bot turn = false.

(** * ClusterBuilder, SnakeIdentifier and FoodLocator *)

(** ** Effectful loops *)

(** A [for ... of] loop whose body may throw, on a loop-carried value. *)
Fixpoint foldOutcome {A B} (f : A -> B -> outcome A) (l : list B) (a : A)
    : outcome A :=
  match l with
  | [] => Ret a
  | b :: l' => a' ← f a b; foldOutcome f l' a'
  end.

(** ** ClusterBuilder: [buildClusters] *)

(** The grid cells in the order of the nested [for (y ...) for (x ...)]
    loops. *)
Definition gridCells : list Cell :=
  flat_map (fun cy => map (fun cx => mkCell cx cy) (seqZ 0 grid)) (seqZ 0 grid).

(** [[cx + 1, cy], [cx - 1, cy], [cx, cy + 1], [cx, cy - 1]] *)
Definition floodNeighbors (c : Cell) : list Cell :=
  [ mkCell (x c + 1) (y c); mkCell (x c - 1) (y c);
    mkCell (x c) (y c + 1); mkCell (x c) (y c - 1) ].

(** One pass of the [for (const [nx, ny] of neighbors)] body, on the pair
    ([stack], [visited]).  The stack is the JS array: [push] appends,
    [pop] takes the last element. *)
Definition pushNeighbor (metrics : list (list Metric))
    (acc : list Cell * gset string) (n : Cell)
    : outcome (list Cell * gset string) :=
  let '(stack, visited) := acc in
  if (x n <? 0) || (y n <? 0) || (grid <=? x n) || (grid <=? y n)
  then Ret acc
  else
    match metricAt metrics n with
    | None => Throw
    | Some m =>
        if negb (bright m) then Ret acc
        else if decide (coordKey n ∈ visited) then Ret acc
        else Ret (stack ++ [n], {[coordKey n]} ∪ visited)
    end.

(** The [while (stack.length)] loop of [visit]. *)
Fixpoint visitLoop (fuel : nat) (metrics : list (list Metric))
    (stack : list Cell) (cs : list Cell) (set : gset string)
    (visited : gset string) : outcome (Cluster * gset string) :=
  match last stack with
  | None => Ret (mkCluster cs set, visited)
  | Some c =>
      match fuel with
      | O => OutOfFuel
      | S fuel' =>
          let stack := dropLast stack in
          let cs := cs ++ [mkCell (x c) (y c)] in
          let set := {[coordKey c]} ∪ set in
          acc ← foldOutcome (pushNeighbor metrics) (floodNeighbors c)
                            (stack, visited);
          visitLoop fuel' metrics acc.1 cs set acc.2
      end
  end.

(** [visit(x, y)], returning the cluster and the shared [visited] set.
    Every pass of the loop pops a cell whose key entered [visited] when
    it was pushed, and only in-grid keys are pushed, so [grid * grid]
    passes are enough. *)
Definition visit (metrics : list (list Metric)) (seed : Cell)
    (visited : gset string) : outcome (Cluster * gset string) :=
  visitLoop (Z.to_nat (grid * grid)) metrics [seed] [] ∅
            ({[coordKey seed]} ∪ visited).

(** The body of the nested loops of [buildClusters], on the pair
    ([clusters], [visited]). *)
Definition visitCell (metrics : list (list Metric))
    (acc : list Cluster * gset string) (c : Cell)
    : outcome (list Cluster * gset string) :=
  let '(clusters, visited) := acc in
  match metricAt metrics c with
  | None => Throw
  | Some m =>
      if negb (bright m) then Ret acc
      else if decide (coordKey c ∈ visited) then Ret acc
      else
        r ← visit metrics c visited;
        Ret (clusters ++ [r.1], r.2)
  end.

Definition buildClusters (metrics : list (list Metric))
    : outcome (list Cluster) :=
  acc ← foldOutcome (visitCell metrics) gridCells ([], ∅);
  Ret acc.1.

(** ** SnakeIdentifier: [identifySnakeCluster] *)

(** The inner [for (const cell of cluster.cells)] count. *)
Definition overlapOf (keys : gset string) (cluster : Cluster) : Z :=
  fold_left
    (fun overlap cell =>
       if decide (coordKey cell ∈ keys) then overlap + 1 else overlap)
    (cells cluster) 0.

(** The [for (const cluster of clusters)] loop on ([best], [score]). *)
Definition betterOverlap (keys : gset string) (acc : option Cluster * Z)
    (cluster : Cluster) : option Cluster * Z :=
  let '(best, score) := acc in
  let overlap := overlapOf keys cluster in
  if score <? overlap then (Some cluster, overlap) else (best, score).

Definition bestOverlap (keys : gset string) (clusters : list Cluster)
    : option Cluster * Z :=
  fold_left (betterOverlap keys) clusters (None, -1).

(** [cluster.cells.some((c) => sameCell(c, this.startCell))] *)
Definition containsStart (cluster : Cluster) : bool :=
  existsb (fun c => sameCell (Some c) (Some startCell)) (cells cluster).

(** The [reduce] picking the largest cluster. *)
Definition largerCluster (largest : option Cluster) (cluster : Cluster)
    : option Cluster :=
  match largest with
  | None => Some cluster
  | Some l =>
      if (length (cells l) <? length (cells cluster))%nat then Some cluster
      else Some l
  end.

Definition identifySnakeCluster (bot : Bot) (clusters : list Cluster)
    : option Cluster :=
  match clusters with
  | [] => None
  | _ :: _ =>
      let byOverlap :=
        if (0 <? size (prevSnakeKeys bot))%nat
        then (bestOverlap (prevSnakeKeys bot) clusters).1
        else None in
      match byOverlap with
      | Some best => Some best
      | None =>
          match List.find containsStart clusters with
          | Some byCenter => Some byCenter
          | None => fold_left largerCluster clusters None
          end
      end
  end.

(** ** FoodLocator: [pickFoodCell] *)

(** The [reduce] callback: [best] is [{x, y, value}] or [null]. *)
Definition brighterCell (metrics : list (list Metric))
    (best : option Enriched) (cell : Cell) : outcome (option Enriched) :=
  match metricAt metrics cell with
  | None => Throw
  | Some m =>
      match best with
      | None => Ret (Some (mkEnriched (mkCell (x cell) (y cell)) (value m)))
      | Some b =>
          if negb (Qle_bool (value m) (e_value b))
          then Ret (Some (mkEnriched (mkCell (x cell) (y cell)) (value m)))
          else Ret (Some b)
      end
  end.

Definition pickFoodCell (cluster : option Cluster)
    (metrics : list (list Metric)) : outcome (option Enriched) :=
  match cluster with
  | None => Ret None
  | Some cluster => foldOutcome (brighterCell metrics) (cells cluster) None
  end.

(** ** What the clustering is measured against *)

(** A cell is bright when its metric exists and is flagged [bright]. *)
Definition isBright (metrics : list (list Metric)) (c : Cell) : Prop :=
  exists m, metricAt metrics c = Some m /\ bright m = true.

(** The metric grid [analyzeBoard] builds: [grid] rows of [grid] entries. *)
Definition fullGrid (metrics : list (list Metric)) : Prop :=
  length metrics = Z.to_nat grid
  /\ Forall (fun row => length row = Z.to_nat grid) metrics.

(** Every in-grid cell has a metric. *)
Definition gridCovered (metrics : list (list Metric)) : Prop :=
  forall c, isInside c = true -> is_Some (metricAt metrics c).

Definition cellsOf (clusters : list Cluster) : list Cell :=
  flat_map cells clusters.

(** [linked S a b]: [b] is reached from [a] by steps between 4-adjacent
    cells, all of them in [S]. *)
Inductive linked (S : list Cell) : Cell -> Cell -> Prop :=
  | linked_here (a : Cell) : a ∈ S -> linked S a a
  | linked_step (a b c : Cell) :
      linked S a b -> c ∈ S -> manhattan b c = 1 -> linked S a c.

(** No bright in-grid cell borders the cluster from outside. *)
Definition closedCluster (metrics : list (list Metric)) (K : Cluster) : Prop :=
  forall c n,
    c ∈ cells K -> manhattan c n = 1 -> isInside n = true ->
    isBright metrics n -> n ∈ cells K.

(** Every cell is reached from the cluster's first cell inside it. *)
Definition connectedCluster (K : Cluster) : Prop :=
  exists seed rest,
    cells K = seed :: rest /\ forall c, c ∈ cells K -> linked (cells K) seed c.

Definition wellFormedCluster (K : Cluster) : Prop :=
  cells K <> [] /\ cl_set K = list_to_set (map coordKey (cells K)).

(** The keys of all grid cells, and how many of them are still
    unvisited: the measure of the flood fill. *)
Definition gridKeys : gset string := list_to_set (map coordKey gridCells).

Definition unvisited (visited : gset string) : nat :=
  size (gridKeys ∖ visited).

(** The invariant of [buildClusters]: [done] are the finished clusters,
    [pending] the cells of the cluster under construction (popped or
    still stacked). *)
Record floodInv (metrics : list (list Metric)) (done : list Cluster)
    (pending : list Cell) (visited : gset string) : Prop := mkFloodInv {
  fi_nodup : NoDup (cellsOf done ++ pending);
  fi_visited :
    forall k, k ∈ visited <->
              exists c, c ∈ cellsOf done ++ pending /\ coordKey c = k;
  fi_bright :
    forall c, c ∈ cellsOf done ++ pending ->
              isInside c = true /\ isBright metrics c;
  fi_done :
    forall K, K ∈ done ->
              closedCluster metrics K /\ wellFormedCluster K
              /\ connectedCluster K
}.

(** The number of cells of a cluster whose key is in [keys]. *)
Definition overlapCount (keys : gset string) (cluster : Cluster) : nat :=
  length (List.filter (fun c => bool_decide (coordKey c ∈ keys))
                      (cells cluster)).

(** [K] is the first element of [clusters] that maximises [measure]. *)
Definition firstMaximal {A} (measure : A -> nat) (l : list A) (a : A) : Prop :=
  exists before after,
    l = before ++ a :: after
    /\ (forall b, b ∈ before -> (measure b < measure a)%nat)
    /\ (forall b, b ∈ after -> (measure b <= measure a)%nat).

(** [a] is the first element of [l] that satisfies [test]. *)
Definition firstWhere {A} (test : A -> bool) (l : list A) (a : A) : Prop :=
  exists before after,
    l = before ++ a :: after /\ test a = true
    /\ forall b, b ∈ before -> test b = false.

(** [e] is the first cell of [l] with the largest brightness, together
    with that brightness. *)
Definition brightestFirst (metrics : list (list Metric)) (l : list Cell)
    (e : Enriched) : Prop :=
  exists before after m,
    l = before ++ e_cell e :: after
    /\ metricAt metrics (e_cell e) = Some m /\ e_value e = value m
    /\ (forall c m', c ∈ before -> metricAt metrics c = Some m' ->
                     (value m' < e_value e)%Q)
    /\ (forall c m', c ∈ after -> metricAt metrics c = Some m' ->
                     (value m' <= e_value e)%Q).

(** A metric grid with three bright regions: a snake of three cells at
    (14,14)-(12,14), a food cell at (20,5) and a two-cell blob at
    (3,3)-(3,4). *)
Definition darkMetric : Metric :=
  mkMetric (0 # 1) (0 # 1) (0 # 1) (255 # 1) (0 # 1) false.

Definition litMetric (v : Z) : Metric :=
  mkMetric (inject_Z v) (inject_Z v) (inject_Z v) (255 # 1) (inject_Z v) true.

Definition sceneRow (lit : list (Z * Z)) (cy : Z) : list Metric :=
  map (fun cx =>
         match List.find (fun p => (p.1 =? cx) && (p.2 =? cy)) lit with
         | Some _ => litMetric (100 + cx)
         | None => darkMetric
         end)
      (seqZ 0 grid).

Definition scene_metrics : list (list Metric) :=
  map (sceneRow [(14, 14); (13, 14); (12, 14); (20, 5); (3, 3); (3, 4)])
      (seqZ 0 grid).

(** The clusters of [scene_metrics], in traversal order. *)
Definition scene_blob : Cluster :=
  let cs := [mkCell 3 3; mkCell 3 4] in
  mkCluster cs (list_to_set (map coordKey cs)).

Definition scene_food : Cluster :=
  let cs := [mkCell 20 5] in
  mkCluster cs (list_to_set (map coordKey cs)).

Definition scene_snake : Cluster :=
  let cs := [mkCell 12 14; mkCell 13 14; mkCell 14 14] in
  mkCluster cs (list_to_set (map coordKey cs)).

Definition scene_clusters : list Cluster :=
  [scene_blob; scene_food; scene_snake].

(** ** What the planner's searches are measured against *)

(** Every move recorded in [states] is one of the four [DIRS]. *)
Definition movesFromDIRS (states : list SearchState) : Prop :=
  forall st d, st ∈ states -> st_move st = Some d -> d ∈ DIRS.

(** No snake shape is stored twice, and every stored shape's key has
    been added to [visited]. *)
Definition distinctBodies (states : list SearchState) (visited : gset string)
    : Prop :=
  NoDup (map st_body states)
  /\ forall st, st ∈ states -> bodyKey (st_body st) ∈ visited.

(** A direction the safety fallback rejects. *)
Definition blocked (bot : Bot) (state : Observation) (d : Dir) : Prop :=
  isReversal bot d = true
  \/ isInside (stepHead (ob_head state) d) = false
  \/ stepHead (ob_head state) d ∈ dropLast (ob_body state).

(** [s] does not contain the character [ch]. *)
Fixpoint lacksChar (ch : ascii) (s : string) : Prop :=
  match s with
  | EmptyString => True
  | String c s' => c <> ch /\ lacksChar ch s'
  end.

(** A snake coiled in the top-left corner: head (0,0), neck (1,0), then
    (1,1) and (0,1); every direction is blocked. *)
Definition cornered_bot : Bot :=
  mkBot ∅ (Some (mkCell 0 0)) None false [] true
        (Some [mkCell 0 0; mkCell 1 0; mkCell 1 1; mkCell 0 1; mkCell 0 2])
        None 4 (Some (mkCell (-1) 0)) 5.

Definition cornered_state : Observation :=
  mkObservation (mkCell 0 0) (mkCell 0 2)
    [mkCell 0 0; mkCell 1 0; mkCell 1 1; mkCell 0 1; mkCell 0 2] None.


(** The bot one tick before the scene: the snake was one cell to the
    left and a move to the right is pending. *)
Definition scene_bot : Bot :=
  mkBot (list_to_set (map coordKey [mkCell 13 14; mkCell 12 14; mkCell 11 14]))
        (Some (mkCell 13 14)) (Some (mkCell 14 14)) true [] true
        (Some [mkCell 13 14; mkCell 12 14; mkCell 11 14]) None 2
        (Some (mkCell 1 0)) 3.


(** The first move of a plan is one of [DIRS] and safe for the observed
    snake. *)
Definition firstMoveSafe (state : Observation) (p : list Dir) : Prop :=
  match p with
  | [] => True
  | d :: _ =>
      d ∈ DIRS
      /\ isInside (stepHead (ob_head state) d) = true
      /\ stepHead (ob_head state) d ∉ dropLast (ob_body state)
  end.

Definition arrowKeys : list string :=
  ["ArrowUp"; "ArrowRight"; "ArrowDown"; "ArrowLeft"].

(** A two-cell snake heading right at (5,5) with food two cells above. *)
Definition hungry_state : Observation :=
  mkObservation (mkCell 5 5) (mkCell 4 5) [mkCell 5 5; mkCell 4 5]
                (Some (mkCell 5 3)).

Definition hungry_frame : Frame :=
  mkFrame false false 0 0 true 1 (Some hungry_state).

(** A frame in which perception failed. *)
Definition blind_frame : Frame := mkFrame false false 0 0 true 1 None.

(** The bot after one tick on [hungry_frame]: [up] was dispatched from
    (5,5), a second [up] is still queued. *)
Definition hungry_result : Bot :=
  mkBot (list_to_set (map coordKey [mkCell 5 5; mkCell 4 5]))
        (Some (mkCell 5 5)) (Some (mkCell 5 4)) true [up] true
        (Some [mkCell 5 5; mkCell 4 5]) (Some (mkCell 5 3)) 1
        (Some (mkCell 1 0)) 2.

(** * Properties *)

(** ** Small facts about the basic operations *)

Lemma cell_eta (p : Cell) : mkCell (x p) (y p) = p.
Proof. by destruct p. Qed.

Lemma map_cell_copy (l : list Cell) : map (fun p => mkCell (x p) (y p)) l = l.
Proof. induction l as [|p l IH]; simpl; [done|]. by rewrite cell_eta, IH. Qed.

Lemma coords_eqb_eq (a b : Cell) :
  (x a =? x b) && (y a =? y b) = true <-> a = b.
Proof.
  destruct a as [xa ya], b as [xb yb]; simpl.
  rewrite andb_true_iff, !Z.eqb_eq. split; [intros [-> ->]; done|].
  by intros [= -> ->].
Qed.

Lemma sameCell_true (a b : Cell) : sameCell (Some a) (Some b) = true <-> a = b.
Proof. apply coords_eqb_eq. Qed.

Lemma sameCell_refl (a : Cell) : sameCell (Some a) (Some a) = true.
Proof. by apply sameCell_true. Qed.

Lemma sameCell_bool_decide (a b : Cell) :
  sameCell (Some a) (Some b) = bool_decide (a = b).
Proof.
  destruct (sameCell (Some a) (Some b)) eqn:E.
  - apply sameCell_true in E. by rewrite bool_decide_eq_true_2.
  - rewrite bool_decide_eq_false_2; [done|].
    intros ->. by rewrite sameCell_refl in E.
Qed.

Lemma hitsCell_false (p : Cell) (segments : list Cell) :
  hitsCell p segments = false <-> p ∉ segments.
Proof.
  unfold hitsCell. induction segments as [|s l IH]; simpl.
  - split; [intros _; apply not_elem_of_nil|done].
  - rewrite orb_false_iff, IH, not_elem_of_cons. split.
    + intros [Hs Hl]. split; [|done]. intros ->.
      destruct s as [sx sy]; simpl in Hs. by rewrite !Z.eqb_refl in Hs.
    + intros [Hs Hl]. split; [|done].
      destruct ((x s =? x p) && (y s =? y p)) eqn:E; [|done].
      apply coords_eqb_eq in E. by subst.
Qed.

Lemma dropLast_cons_cons {A} (a b : A) (l : list A) :
  dropLast (a :: b :: l) = a :: dropLast (b :: l).
Proof. unfold dropLast. simpl. by rewrite !Nat.sub_0_r. Qed.

Lemma dropLast_length {A} (l : list A) :
  length (dropLast l) = (length l - 1)%nat.
Proof. unfold dropLast. rewrite length_take. lia. Qed.

Lemma dropLast_subseteq {A} (l : list A) : dropLast l ⊆ l.
Proof. apply subseteq_take. Qed.

Lemma maxNodes_pos : (0 < maxNodes)%nat.
Proof. unfold maxNodes. lia. Qed.

(** ** The search tree stored in [states] *)

Section Search.
Variable mode : Mode.
Variable target : Cell.
Variable start : list Cell.

Local Abbreviation nodeOk := (nodeOk mode target start).
Local Abbreviation statesOk := (statesOk mode target start).

Lemma nodeOk_app states extra i st :
  nodeOk states i st -> nodeOk (states ++ extra) i st.
Proof.
  intros [Hb [Hroot|(j & pst & d & Hp & Hj & Hl & Hrest)]]; split; auto.
  right. exists j, pst, d. repeat split; try tauto.
  by apply lookup_app_l_Some.
Qed.

Lemma statesOk_snoc states st :
  statesOk states -> nodeOk states (length states) st ->
  statesOk (states ++ [st]).
Proof.
  intros Hok Hst i st' Hi.
  apply lookup_app_Some in Hi as [Hi|[Hlen Hi]].
  - apply nodeOk_app. by apply Hok.
  - apply list_lookup_singleton_Some in Hi as [Hi ->].
    replace i with (length states) by lia. by apply nodeOk_app.
Qed.

Lemma expandDir_ok cursor state states visited dir :
  statesOk states -> states !! cursor = Some state ->
  (length states <= maxNodes)%nat ->
  let r := expandDir mode target cursor state (states, visited) dir in
  statesOk r.1 /\ (length r.1 <= maxNodes)%nat
  /\ r.1 !! cursor = Some state.
Proof.
  intros Hok Hcur Hlen. unfold expandDir. cbv zeta.
  set (newHead := stepHead (st_head state) dir).
  rewrite sameCell_bool_decide. fold (growsAt mode target newHead).
  destruct (isInside newHead) eqn:Hin; cbn [negb]; [|done].
  destruct (hitsCell newHead _) eqn:Hhit; [done|].
  destruct (decide _); [done|].
  destruct (length states <? maxNodes)%nat eqn:Hcap; cbn [fst]; [|done].
  apply Nat.ltb_lt in Hcap.
  split; [|split].
  - apply statesOk_snoc; [done|].
    destruct (Hok _ _ Hcur) as [[rest Hbody] _].
    split.
    + simpl. rewrite Hbody.
      destruct (growsAt mode target newHead); [by eexists|].
      rewrite dropLast_cons_cons. by eexists.
    + right. exists cursor, state, dir. simpl.
      apply lookup_lt_Some in Hcur as Hlt.
      repeat split; try done.
      * unfold legalMove. rewrite Hbody. fold newHead. split; [done|].
        apply hitsCell_false in Hhit. unfold collisionCheckBody.
        by rewrite <-Hbody.
      * unfold advance. rewrite Hbody. fold newHead. by rewrite <-Hbody.
  - rewrite length_app. simpl. lia.
  - by apply lookup_app_l_Some.
Qed.

Lemma expand_ok cursor state states visited :
  statesOk states -> states !! cursor = Some state ->
  (length states <= maxNodes)%nat ->
  let r := expand mode target cursor state states visited in
  statesOk r.1 /\ (length r.1 <= maxNodes)%nat
  /\ r.1 !! cursor = Some state.
Proof.
  unfold expand. generalize DIRS. intros dirs. revert states visited.
  induction dirs as [|d dirs IH]; intros states visited Hok Hcur Hlen;
    cbn [fold_left].
  - done.
  - pose proof (expandDir_ok cursor state states visited d Hok Hcur Hlen)
      as (Hok' & Hlen' & Hcur').
    destruct (expandDir mode target cursor state (states, visited) d)
      as [states' visited'].
    cbv zeta. by apply IH.
Qed.

Lemma safeMoves_app body p q :
  safeMoves mode target body (p ++ q) <->
  safeMoves mode target body p
  /\ safeMoves mode target (runMoves mode target body p) q.
Proof.
  revert body. induction p as [|d p IH]; intros body; simpl.
  - tauto.
  - rewrite IH. unfold runMoves. simpl. tauto.
Qed.

Lemma runMoves_app body p q :
  runMoves mode target body (p ++ q)
  = runMoves mode target (runMoves mode target body p) q.
Proof. unfold runMoves. by rewrite fold_left_app. Qed.

(** Walking the parent pointers from any stored state terminates within
    [index + 1] steps and yields the moves that lead from the start body
    to that state's body, every one of them legal. *)
Lemma reconstructPath_loop_ok states :
  statesOk states ->
  forall i st, states !! i = Some st ->
  exists p,
    (forall fuel acc, (i < fuel)%nat ->
       reconstructPath_loop fuel states (Z.of_nat i) acc = Ret (acc ++ rev p))
    /\ safeMoves mode target start p
    /\ runMoves mode target start p = st_body st
    /\ (st_parent st <> -1 -> p <> [])
    /\ (st_parent st = -1 -> p = []).
Proof.
  intros Hok i. induction (lt_wf i) as [i _ IH]. intros st Hi.
  assert (Hat : stateAt states (Z.of_nat i) = Some st).
  { unfold stateAt. destruct (Z.of_nat i <? 0) eqn:E; [apply Z.ltb_lt in E; lia|].
    by rewrite Nat2Z.id. }
  destruct (Hok _ _ Hi) as [_ [(-> & Hp & Hm & Hb)|(j & pst & d & Hp & Hj & Hl & Hm & Hlegal & Hb)]].
  - exists []. repeat split; try done.
    intros fuel acc Hfuel. destruct fuel as [|fuel]; [lia|].
    simpl. simpl in Hat. rewrite Hat, Hm, Hp. simpl.
    destruct fuel; by rewrite app_nil_r.
  - destruct (IH j Hj pst Hl) as (p & Hloop & Hsafe & Hrun & _).
    exists (p ++ [d]). repeat split; [| | | |lia].
    + intros fuel acc Hfuel. destruct fuel as [|fuel]; [lia|].
      cbn [reconstructPath_loop].
      destruct (Z.of_nat i =? -1) eqn:E; [apply Z.eqb_eq in E; lia|].
      rewrite Hat, Hm, Hp, Hloop by lia.
      by rewrite rev_app_distr, <-app_assoc.
    + apply safeMoves_app. split; [done|]. rewrite Hrun. by split.
    + rewrite runMoves_app, Hrun. by rewrite Hb.
    + by destruct p.
Qed.

Lemma reconstructPath_ok states i st :
  statesOk states -> states !! i = Some st ->
  exists p, reconstructPath states i = Ret p
    /\ safeMoves mode target start p
    /\ runMoves mode target start p = st_body st
    /\ (st_parent st <> -1 -> p <> [])
    /\ (st_parent st = -1 -> p = []).
Proof.
  intros Hok Hi.
  destruct (reconstructPath_loop_ok states Hok i st Hi)
    as (p & Hloop & Hsafe & Hrun & Hne & Hroot).
  exists p. unfold reconstructPath.
  apply lookup_lt_Some in Hi as Hlt.
  rewrite Hloop by lia. simpl. by rewrite rev_involutive.
Qed.

(** The search loop: with a budget covering the remaining node cap it
    returns normally, never stores or examines more than [maxNodes]
    states, and any returned path is legal, ends on the target, and is
    non-empty unless the start state itself was accepted in food mode. *)
Lemma findPath_loop_ok fuel :
  forall states visited cursor,
    statesOk states -> (length states <= maxNodes)%nat ->
    (cursor <= length states)%nat ->
    (maxNodes <= cursor + fuel)%nat ->
    exists run,
      findPath_loop fuel mode target states visited cursor = Ret run
      /\ (run_stored run <= maxNodes)%nat
      /\ (run_examined run <= maxNodes)%nat
      /\ (cursor <= run_examined run)%nat
      /\ forall path, run_result run = Some path ->
           safeMoves mode target start path
           /\ (exists rest, runMoves mode target start path = target :: rest)
           /\ (mode = ModeTail -> path <> []).
Proof.
  induction fuel as [|fuel IH];
    intros states visited cursor Hok Hlen Hcursor Hfuel.
  - cbn [findPath_loop].
    destruct ((cursor <? length states)%nat && (cursor <? maxNodes)%nat) eqn:Hcond.
    { apply andb_true_iff in Hcond as [_ E]. apply Nat.ltb_lt in E. lia. }
    exists (mkRun None (length states) cursor). simpl.
    repeat split; try done; lia.
  - cbn [findPath_loop].
    destruct ((cursor <? length states)%nat && (cursor <? maxNodes)%nat) eqn:Hcond.
    2:{ exists (mkRun None (length states) cursor). simpl.
        repeat split; try done; lia. }
    apply andb_true_iff in Hcond as [E1 E2].
    apply Nat.ltb_lt in E1, E2.
    destruct (lookup_lt_is_Some_2 states cursor E1) as [state Hcur].
    rewrite Hcur.
    destruct (sameCell (Some (st_head state)) (Some target)
              && (is_food mode || negb (st_parent state =? -1))) eqn:Hgoal.
    + apply andb_true_iff in Hgoal as [Hhead Hacc].
      apply sameCell_true in Hhead.
      destruct (reconstructPath_ok states cursor state Hok Hcur)
        as (p & Hp & Hsafe & Hrun & Hne & _).
      rewrite Hp. simpl. eexists. split; [done|]. simpl.
      split; [lia|]. split; [lia|]. split; [lia|].
      intros path [= <-]. split; [done|]. split.
      * destruct (Hok _ _ Hcur) as [[rest Hb] _].
        exists rest. by rewrite Hrun, Hb, Hhead.
      * intros ->. simpl in Hacc. apply Hne.
        by apply negb_true_iff, Z.eqb_neq in Hacc.
    + pose proof (expand_ok cursor state states visited Hok Hcur Hlen)
        as (Hok' & Hlen' & Hcur').
      destruct (expand mode target cursor state states visited)
        as [states' visited'].
      apply lookup_lt_Some in Hcur'. cbn [fst] in *.
      destruct (IH states' visited' (S cursor) Hok' Hlen' ltac:(lia) ltac:(lia))
        as (run & Hrun & Hs & He & Hc & Hpath).
      exists run. split; [done|]. split; [done|]. split; [done|].
      split; [lia|done].
Qed.
End Search.

Lemma findPath_run_ok (body : list Cell) (target : option Cell) (mode : Mode) :
  exists run,
    findPath_run body target mode = Ret run
    /\ (run_stored run <= maxNodes)%nat
    /\ (run_examined run <= maxNodes)%nat
    /\ forall path, run_result run = Some path ->
         exists tgt, target = Some tgt
           /\ safeMoves mode tgt body path
           /\ (exists rest, runMoves mode tgt body path = tgt :: rest)
           /\ (mode = ModeTail -> path <> []).
Proof.
  unfold findPath_run. pose proof maxNodes_pos.
  destruct target as [tgt|]; [|exists (mkRun None 0 0); simpl; by repeat split; try lia].
  destruct body as [|h rest] eqn:Hbody;
    [exists (mkRun None 1 1); simpl; by repeat split; try lia|].
  rewrite <-Hbody, map_cell_copy.
  destruct (findPath_loop_ok mode tgt body maxNodes
              [mkState h body (-1) None] {[bodyKey body]} 0%nat)
    as (run & Hrun & Hs & He & _ & Hpath).
  - intros i st Hi. apply list_lookup_singleton_Some in Hi as [-> <-].
    split; simpl; [by eexists|]. by left.
  - simpl. lia.
  - simpl. lia.
  - lia.
  - exists run. repeat split; try done.
    intros path Hp. exists tgt. split; [done|]. by apply Hpath.
Qed.

(** ** PathPlanner *)

Lemma findPath_Ret (body : list Cell) (target : option Cell) (mode : Mode) :
  exists run,
    findPath_run body target mode = Ret run
    /\ findPath body target mode = Ret (run_result run).
Proof.
  destruct (findPath_run_ok body target mode) as (run & Hrun & _).
  exists run. split; [done|]. unfold findPath. by rewrite Hrun.
Qed.

Lemma legalMove_first (mode : Mode) (tgt : Cell) (body : list Cell) (d : Dir) :
  legalMove mode tgt body d ->
  exists h rest, body = h :: rest
    /\ isInside (stepHead h d) = true
    /\ stepHead h d ∉ dropLast body.
Proof.
  destruct body as [|h rest]; [done|]. intros [Hin Hfree].
  exists h, rest. repeat split; [done|].
  intros Hhit. apply Hfree. unfold collisionCheckBody.
  destruct (growsAt mode tgt (stepHead h d)); [|done].
  by apply dropLast_subseteq.
Qed.

(** C1.  Every move sequence returned by [findPath] is safe when replayed
    on the snake: each new head lies inside the 28x28 grid and is not a
    cell of that step's collision-check body (the full previous body when
    the move reaches the target in food mode, the previous body without
    its last segment otherwise).  In particular the first move does not
    run into the non-vacating part of the current body.  This holds for
    every body handed to [findPath], valid snakes included. *)
Theorem findPath_moves_safe (body : list Cell) (target : option Cell)
    (mode : Mode) (path : list Dir) :
  findPath body target mode = Ret (Some path) ->
  exists tgt,
    target = Some tgt
    /\ safeMoves mode tgt body path
    /\ forall d rest, path = d :: rest ->
         exists h tl, body = h :: tl
           /\ isInside (stepHead h d) = true
           /\ stepHead h d ∉ dropLast body.
Proof.
  intros Hfind.
  destruct (findPath_run_ok body target mode) as (run & Hrun & _ & _ & Hpath).
  unfold findPath in Hfind. rewrite Hrun in Hfind. injection Hfind as Hres.
  destruct (Hpath path Hres) as (tgt & -> & Hsafe & _).
  exists tgt. split; [done|]. split; [done|].
  intros d rest ->. destruct Hsafe as [Hlegal _].
  by eapply legalMove_first.
Qed.

Lemma findPath_moves_safe_witness :
  exists tgt,
    Some (mkCell 14 10) = Some tgt
    /\ safeMoves ModeFood tgt [mkCell 14 14; mkCell 13 14; mkCell 12 14]
         [up; up; up; up]
    /\ forall d rest, [up; up; up; up] = d :: rest ->
         exists h tl, [mkCell 14 14; mkCell 13 14; mkCell 12 14] = h :: tl
           /\ isInside (stepHead h d) = true
           /\ stepHead h d ∉ dropLast [mkCell 14 14; mkCell 13 14; mkCell 12 14].
Proof.
  apply (findPath_moves_safe [mkCell 14 14; mkCell 13 14; mkCell 12 14]
           (Some (mkCell 14 10)) ModeFood [up; up; up; up]).
  vm_compute. reflexivity.
Defined.

(** C4.  In tail mode [findPath] never returns the empty move sequence;
    in food mode, a snake whose head already stands on the target gets
    the empty sequence back. *)
Theorem findPath_depth_zero :
  (forall body target path,
      findPath body target ModeTail = Ret (Some path) -> path <> [])
  /\ (forall h rest, findPath (h :: rest) (Some h) ModeFood = Ret (Some [])).
Proof.
  split.
  - intros body target path Hfind.
    destruct (findPath_run_ok body target ModeTail)
      as (run & Hrun & _ & _ & Hpath).
    unfold findPath in Hfind. rewrite Hrun in Hfind. injection Hfind as Hres.
    destruct (Hpath path Hres) as (tgt & _ & _ & _ & Hne). by apply Hne.
  - intros h rest. unfold findPath, findPath_run.
    assert (maxNodes = S (Z.to_nat 19999)) as -> by (unfold maxNodes; lia).
    cbn [findPath_loop length lookup list_lookup].
    assert ((0 <? 1)%nat && (0 <? maxNodes)%nat = true) as ->.
    { pose proof maxNodes_pos. apply andb_true_iff.
      split; apply Nat.ltb_lt; lia. }
    cbn [st_head st_parent is_food orb]. rewrite sameCell_refl.
    reflexivity.
Qed.

Lemma findPath_depth_zero_witness :
  [up; left; down; left] <> [].
Proof.
  destruct findPath_depth_zero as [Htail _].
  apply (Htail [mkCell 14 14; mkCell 13 14; mkCell 12 14]
           (Some (mkCell 12 14))).
  vm_compute. reflexivity.
Defined.

(** C5.  [findPath] always returns: its loop runs at most [maxNodes] =
    20000 times, the [states] array never holds more than 20000 states,
    and once the cursor has reached the cap the loop exits with [null],
    whatever is still queued. *)
Theorem findPath_bounded (body : list Cell) (target : option Cell) (mode : Mode) :
  Z.of_nat maxNodes = 20000
  /\ (exists run,
        findPath_run body target mode = Ret run
        /\ findPath body target mode = Ret (run_result run)
        /\ (run_stored run <= maxNodes)%nat
        /\ (run_examined run <= maxNodes)%nat)
  /\ (forall fuel tgt states visited cursor,
        (maxNodes <= cursor)%nat ->
        findPath_loop fuel mode tgt states visited cursor
        = Ret (mkRun None (length states) cursor)).
Proof.
  split; [unfold maxNodes; lia|]. split.
  - destruct (findPath_run_ok body target mode) as (run & Hrun & Hs & He & _).
    exists run. repeat split; try done. unfold findPath. by rewrite Hrun.
  - intros fuel tgt states visited cursor Hcap.
    assert ((cursor <? length states)%nat && (cursor <? maxNodes)%nat = false)
      as Hcond.
    { apply andb_false_iff. right. apply Nat.ltb_ge. lia. }
    destruct fuel; cbn [findPath_loop]; by rewrite Hcond.
Qed.

Lemma findPath_bounded_witness :
  findPath_loop 5 ModeFood (mkCell 0 0) [] ∅ maxNodes
  = Ret (mkRun None 0 maxNodes).
Proof.
  destruct (findPath_bounded [] None ModeFood) as (_ & _ & Hcap).
  apply (Hcap 5%nat (mkCell 0 0) [] ∅ maxNodes). lia.
Defined.

(** C6.  The specification's example: snake [(14,14),(13,14),(12,14)],
    food at (14,10), food mode. *)
Theorem findPath_example_up4 :
  findPath [mkCell 14 14; mkCell 13 14; mkCell 12 14] (Some (mkCell 14 10))
           ModeFood
  = Ret (Some [up; up; up; up]).
Proof. vm_compute. reflexivity. Qed.


(** ** SnakeReconstructor: the walk and the length reconciliation *)

Lemma adjacentChain_snoc (l : list Cell) (c : Cell) :
  adjacentChain l ->
  (forall a, last l = Some a -> manhattan a c = 1) ->
  adjacentChain (l ++ [c]).
Proof.
  induction l as [|a [|b l] IH]; intros Hl Hlast.
  - done.
  - simpl. split; [|done]. by apply Hlast.
  - destruct Hl as [Hab Hl]. change ((a :: b :: l) ++ [c])
      with (a :: (b :: l) ++ [c]).
    cbn [adjacentChain app]. split; [done|]. apply IH; [done|].
    intros a' Ha'. apply Hlast. by rewrite last_cons_cons.
Qed.

Lemma adjacentChain_take (n : nat) (l : list Cell) :
  adjacentChain l -> adjacentChain (take n l).
Proof.
  revert n. induction l as [|a [|b l] IH]; intros n Hl.
  - by destruct n.
  - by destruct n as [|[|n]].
  - destruct Hl as [Hab Hl]. destruct n as [|[|n]]; [done..|].
    change (take (S (S n)) (a :: b :: l)) with (a :: take (S n) (b :: l)).
    specialize (IH (S n) Hl). cbn [take] in *. by split.
Qed.

Lemma validSnakeBody_take (n : nat) (l : list Cell) :
  validSnakeBody l -> validSnakeBody (take n l).
Proof.
  intros [Hnd Hadj]. split; [|by apply adjacentChain_take].
  apply (sublist_NoDup _ l); [done|apply sublist_take].
Qed.

Lemma getNeighbors_adjacent (cell c : Cell) (set : gset string) :
  c ∈ getNeighbors cell set -> manhattan cell c = 1.
Proof.
  unfold getNeighbors. rewrite list_elem_of_In, List.filter_In.
  intros [Hin _]. unfold manhattan.
  simpl in Hin. destruct Hin as [<-|[<-|[<-|[<-|[]]]]]; simpl; lia.
Qed.

Section Walk.
Variable set : gset string.

(** The loop guard bounds the walk, so a budget of [size set + 3]
    iterations is never exhausted. *)
Lemma walk_returns fuel :
  forall visited body current prev,
    (length body <= size set + 2)%nat ->
    (size set + 3 <= length body + fuel)%nat ->
    exists r, walk fuel set visited body current prev = Ret r.
Proof.
  induction fuel as [|fuel IH]; intros visited body current prev Hlen Hfuel.
  - lia.
  - cbn [walk]. destruct (List.find _ _) as [next|]; [|by eexists].
    destruct (size set + 2 <? length (body ++ [current]))%nat eqn:Hguard;
      [by eexists|].
    apply Nat.ltb_ge in Hguard. apply IH; [done|].
    rewrite length_app in *. simpl in *. lia.
Qed.

(** Every cell the walk appends is a neighbour of the previous one and
    has not been visited, so the walked body is a valid chain. *)
Lemma walk_valid fuel :
  forall visited body current prev walked,
    validSnakeBody body ->
    (forall c, c ∈ body -> coordKey c ∈ visited) ->
    coordKey current ∉ visited ->
    (forall a, last body = Some a -> manhattan a current = 1) ->
    walk fuel set visited body current prev = Ret (Some walked) ->
    validSnakeBody walked.
Proof.
  induction fuel as [|fuel IH];
    intros visited body current prev walked [Hnd Hadj] Hvis Hcur Hlast Hwalk;
    [done|].
  cbn [walk] in Hwalk.
  assert (Hbody' : validSnakeBody (body ++ [current])).
  { split; [|by apply adjacentChain_snoc].
    apply NoDup_app. split; [done|]. split; [|apply NoDup_singleton].
    intros c Hc Hc'. apply list_elem_of_singleton in Hc' as ->.
    by apply Hcur, Hvis. }
  destruct (List.find _ _) as [next|] eqn:Hfind.
  2:{ by injection Hwalk as <-. }
  destruct (size set + 2 <? length (body ++ [current]))%nat; [done|].
  apply List.find_some in Hfind as [Hin Hpred].
  apply andb_true_iff in Hpred as [_ Hfresh].
  apply negb_true_iff, bool_decide_eq_false in Hfresh.
  eapply IH; [exact Hbody'| | | |exact Hwalk].
  - intros c Hc. apply elem_of_app in Hc as [Hc|Hc].
    + apply elem_of_union_r. by apply Hvis.
    + apply list_elem_of_singleton in Hc as ->.
      apply elem_of_union_l. by apply elem_of_singleton.
  - done.
  - intros a Ha. rewrite last_snoc in Ha. injection Ha as <-.
    apply (getNeighbors_adjacent _ _ set). by apply list_elem_of_In.
Qed.
End Walk.

Lemma walkCluster_returns (bot : Bot) (cluster : Cluster) :
  exists r, walkCluster bot cluster = Ret r.
Proof.
  unfold walkCluster.
  destruct (clusterCells cluster) as [|first others]; [by eexists|].
  apply walk_returns; simpl; lia.
Qed.

Lemma walkCluster_valid (bot : Bot) (cluster : Cluster) (walked : list Cell) :
  walkCluster bot cluster = Ret (Some walked) -> validSnakeBody walked.
Proof.
  unfold walkCluster. destruct (clusterCells cluster) as [|first others]; [done|].
  apply walk_valid.
  - split; [apply NoDup_nil_2|done].
  - intros c Hc. by apply elem_of_nil in Hc.
  - apply not_elem_of_empty.
  - done.
Qed.

Lemma truncateBody_length (n : nat) (body : list Cell) :
  (length (truncateBody n body) <= n)%nat.
Proof.
  unfold truncateBody. destruct (n <? length body)%nat eqn:E.
  - rewrite length_take. lia.
  - apply Nat.ltb_ge in E. lia.
Qed.

Lemma truncateBody_take (n : nat) (body : list Cell) :
  truncateBody n body = take n body.
Proof.
  unfold truncateBody. destruct (n <? length body)%nat eqn:E; [done|].
  apply Nat.ltb_ge in E. by rewrite take_ge.
Qed.

Lemma padBody_length (bot : Bot) (n : nat) (body : list Cell) :
  (length body <= n)%nat -> (length (padBody bot n body) <= n)%nat.
Proof.
  intros Hlen. unfold padBody. destruct (prevSnake bot) as [previous|]; [|done].
  destruct ((length body <? n)%nat && (0 <? length previous)%nat); [|done].
  rewrite length_app, length_rev, length_drop. lia.
Qed.

Lemma padBody_prefix (bot : Bot) (n : nat) (body : list Cell) :
  exists extra, padBody bot n body = body ++ extra
    /\ ((n <= length body)%nat \/ prevSnake bot = None -> extra = []).
Proof.
  unfold padBody. destruct (prevSnake bot) as [previous|].
  2:{ exists []. by rewrite app_nil_r. }
  destruct (length body <? n)%nat eqn:E; simpl.
  - destruct (0 <? length previous)%nat.
    + eexists. split; [done|]. apply Nat.ltb_lt in E. intros [?|?]; [lia|done].
    + exists []. by rewrite app_nil_r.
  - exists []. by rewrite app_nil_r.
Qed.

(** What a successful [reconstructSnake] is made of. *)
Lemma reconstructSnake_Some (bot : Bot) (cluster : Cluster) (n : nat)
    (snake : Snake) :
  reconstructSnake bot (Some cluster) n = Ret (Some snake) ->
  exists walked,
    walkCluster bot cluster = Ret (Some walked)
    /\ sn_body snake = padBody bot n (truncateBody n walked)
    /\ sn_head snake = List.hd_error (sn_body snake)
    /\ (n <= length (sn_body snake))%nat.
Proof.
  unfold reconstructSnake.
  destruct (walkCluster bot cluster) as [[walked|]| |]; simpl; try done.
  destruct (length (padBody bot n (truncateBody n walked)) <? n)%nat eqn:E;
    [done|].
  intros [= <-]. exists walked. simpl. apply Nat.ltb_ge in E. by repeat split.
Qed.

Lemma reconstructSnake_returns (bot : Bot) (cluster : option Cluster) (n : nat) :
  exists r, reconstructSnake bot cluster n = Ret r.
Proof.
  destruct cluster as [cluster|]; [|by eexists].
  unfold reconstructSnake.
  destruct (walkCluster_returns bot cluster) as [[walked|] ->]; simpl;
    [|by eexists].
  destruct (_ <? n)%nat; by eexists.
Qed.

Lemma reconstructSnake_length (bot : Bot) (cluster : option Cluster) (n : nat)
    (snake : Snake) :
  reconstructSnake bot cluster n = Ret (Some snake) ->
  length (sn_body snake) = n.
Proof.
  destruct cluster as [cluster|]; [|done]. intros Hrec.
  apply reconstructSnake_Some in Hrec as (walked & _ & Hbody & _ & Hge).
  pose proof (padBody_length bot n _ (truncateBody_length n walked)) as Hle.
  rewrite <-Hbody in Hle. lia.
Qed.

(** C2.  [reconstructSnake] always returns, and a successful
    reconstruction has exactly [expectedLen] cells; with the expected
    length [analyzeBoard] passes for a score [score >= 0], that is
    [score + 1]. *)
Theorem reconstructSnake_body_length (bot : Bot) (cluster : option Cluster)
    (expectedLen : nat) :
  (exists r, reconstructSnake bot cluster expectedLen = Ret r)
  /\ (forall snake,
        reconstructSnake bot cluster expectedLen = Ret (Some snake) ->
        length (sn_body snake) = expectedLen)
  /\ (forall metrics score snake,
        0 <= score ->
        analyzeBoard_snake bot metrics cluster score = Ret (Some snake) ->
        Z.of_nat (length (sn_body snake)) = score + 1).
Proof.
  split; [apply reconstructSnake_returns|].
  split; [intros snake; apply reconstructSnake_length|].
  intros metrics score snake Hscore. unfold analyzeBoard_snake.
  destruct (refineSnakeCluster _ _ _) as [refined| |]; simpl; try done.
  intros Hrec. apply reconstructSnake_length in Hrec. rewrite Hrec.
  unfold analyzeBoard_expectedLen, expectedLength. lia.
Qed.

Lemma reconstructSnake_body_length_witness :
  length (sn_body straight_snake) = 3%nat.
Proof.
  destruct (reconstructSnake_body_length straight_bot (Some straight_cluster) 3)
    as (_ & Hlen & _).
  apply Hlen. vm_compute. reflexivity.
Defined.

(** C3 (counterexample).  The reconstruction succeeds by padding with the
    previous tail (12,14), which is two steps away from (14,14). *)
Lemma reconstructSnake_padding_breaks_chain :
  exists snake,
    reconstructSnake faded_bot (Some faded_cluster) 3 = Ret (Some snake)
    /\ sn_body snake = [mkCell 15 14; mkCell 14 14; mkCell 12 14]
    /\ ~ validSnakeBody (sn_body snake).
Proof.
  eexists. split; [vm_compute; reflexivity|]. split; [reflexivity|].
  intros [_ (_ & Hfar & _)]. vm_compute in Hfar. discriminate.
Qed.

(** C3 (amended).  In every successful reconstruction the cells produced
    by the walk, which are the first [min expectedLen (length walked)]
    cells of the body, are pairwise distinct and consecutively one step
    apart; this is the whole body whenever nothing was padded (the walk
    already had [expectedLen] cells, or no previous snake is known). *)
Theorem reconstructSnake_walked_chain (bot : Bot) (cluster : Cluster)
    (expectedLen : nat) (snake : Snake) :
  reconstructSnake bot (Some cluster) expectedLen = Ret (Some snake) ->
  exists walked,
    walkCluster bot cluster = Ret (Some walked)
    /\ validSnakeBody walked
    /\ take (Nat.min expectedLen (length walked)) (sn_body snake)
       = take expectedLen walked
    /\ validSnakeBody (take (Nat.min expectedLen (length walked)) (sn_body snake))
    /\ ((expectedLen <= length walked)%nat \/ prevSnake bot = None ->
        validSnakeBody (sn_body snake)).
Proof.
  intros Hrec.
  apply reconstructSnake_Some in Hrec as (walked & Hwalk & Hbody & _ & Hge).
  pose proof (walkCluster_valid bot cluster walked Hwalk) as Hvalid.
  rewrite truncateBody_take in Hbody.
  destruct (padBody_prefix bot expectedLen (take expectedLen walked))
    as (extra & Hpad & Hnil).
  rewrite Hpad in Hbody.
  assert (Hpre : take (Nat.min expectedLen (length walked)) (sn_body snake)
                 = take expectedLen walked).
  { rewrite Hbody. apply take_app_length'. by rewrite length_take. }
  exists walked. split; [done|]. split; [done|]. split; [done|]. split.
  - rewrite Hpre. by apply validSnakeBody_take.
  - intros Hcase. rewrite Hbody, Hnil, app_nil_r.
    + by apply validSnakeBody_take.
    + destruct Hcase as [Hlen|Hnone]; [left|by right].
      rewrite length_take. lia.
Qed.

Lemma reconstructSnake_walked_chain_witness :
  exists walked,
    walkCluster straight_bot straight_cluster = Ret (Some walked)
    /\ validSnakeBody walked
    /\ take (Nat.min 3 (length walked)) (sn_body straight_snake)
       = take 3 walked
    /\ validSnakeBody (take (Nat.min 3 (length walked)) (sn_body straight_snake))
    /\ ((3 <= length walked)%nat \/ prevSnake straight_bot = None ->
        validSnakeBody (sn_body straight_snake)).
Proof.
  apply (reconstructSnake_walked_chain straight_bot straight_cluster 3
           straight_snake).
  vm_compute. reflexivity.
Defined.


(** ** Keys identify cells *)

Lemma pretty_N_go_noComma (n : N) (s : string) :
  noComma s -> noComma (pretty_N_go n s).
Proof.
  revert s. induction (N.lt_wf_0 n) as [n _ IH]; intros s Hs.
  destruct (decide (n = 0)%N) as [->|Hn]; [done|].
  rewrite pretty_N_go_step by lia.
  apply IH; [apply N.div_lt; lia|]. split; [|done].
  unfold pretty_N_char. by repeat case_match.
Qed.

Lemma pretty_N_noComma (n : N) : noComma (pretty n).
Proof.
  unfold pretty, pretty_N. case_decide; [by split|].
  by apply pretty_N_go_noComma.
Qed.

Lemma pretty_Z_noComma (z : Z) : noComma (pretty z).
Proof.
  destruct z as [|p|p]; unfold pretty, pretty_Z.
  - by split.
  - apply pretty_N_noComma.
  - split; [done|]. apply pretty_N_noComma.
Qed.

Lemma comma_split (s1 s2 t1 t2 : string) :
  noComma s1 -> noComma s2 ->
  s1 +:+ "," +:+ t1 = s2 +:+ "," +:+ t2 -> s1 = s2 /\ t1 = t2.
Proof.
  revert s2. induction s1 as [|c s1 IH]; intros [|c' s2] H1 H2 Heq;
    cbn in *.
  - injection Heq as Heq. by subst.
  - injection Heq as Hc _. destruct H2 as [H2 _]. by subst.
  - injection Heq as Hc _. destruct H1 as [H1 _]. by subst.
  - injection Heq as Hc Heq. destruct H1 as [_ H1], H2 as [_ H2].
    destruct (IH s2 H1 H2 Heq) as [-> ->]. by subst.
Qed.

Lemma coordKey_inj (a b : Cell) : coordKey a = coordKey b -> a = b.
Proof.
  unfold coordKey. intros Heq.
  apply comma_split in Heq as [Hx Hy]; try apply pretty_Z_noComma.
  apply (inj pretty) in Hx, Hy. destruct a, b; simpl in *. by subst.
Qed.

(** ** SnakeReconstructor: refinement *)

Lemma insertBy_Permutation {A} (before : A -> A -> bool) (a : A) (l : list A) :
  insertBy before a l ≡ₚ a :: l.
Proof.
  induction l as [|b l IH]; simpl; [done|].
  destruct (before b a); [|done]. rewrite IH. apply Permutation_swap.
Qed.

Lemma sortBy_Permutation {A} (before : A -> A -> bool) (l : list A) :
  sortBy before l ≡ₚ l.
Proof.
  unfold sortBy. induction l as [|a l IH]; simpl; [done|].
  by rewrite insertBy_Permutation, IH.
Qed.

Lemma brighter_true (a b : Enriched) :
  brighter a b = true -> (e_value b <= e_value a)%Q.
Proof.
  unfold brighter. intros H. apply negb_true_iff in H.
  apply Qlt_le_weak, Qnot_le_lt. intros Hle.
  apply Qle_bool_iff in Hle. congruence.
Qed.

Lemma brighter_false (a b : Enriched) :
  brighter a b = false -> (e_value a <= e_value b)%Q.
Proof.
  unfold brighter. intros H. apply negb_false_iff in H.
  by apply Qle_bool_iff.
Qed.

Lemma insertBy_descending (a : Enriched) (l : list Enriched) :
  descending l -> descending (insertBy brighter a l).
Proof.
  unfold descending. induction l as [|b l IH]; intros Hl; simpl.
  - constructor; [constructor|constructor].
  - apply StronglySorted_inv in Hl as [Hl Hb].
    destruct (brighter b a) eqn:Hba.
    + constructor; [by apply IH|].
      rewrite insertBy_Permutation. constructor; [|done].
      by apply brighter_true.
    + apply brighter_false in Hba.
      constructor; [by constructor|]. constructor; [done|].
      eapply Forall_impl; [exact Hb|]. intros c Hc. simpl in Hc.
      by eapply Qle_trans.
Qed.

Lemma brightnessSorted_descending (l : list Enriched) :
  descending (brightnessSorted l).
Proof.
  unfold brightnessSorted, sortBy. induction l as [|a l IH]; simpl.
  - constructor.
  - by apply insertBy_descending.
Qed.

Lemma enrich_Ret (metrics : list (list Metric)) (cs : list Cell)
    (enriched : list Enriched) :
  enrich metrics cs = Ret enriched ->
  map e_cell enriched = cs
  /\ Forall (fun e => exists m, metricAt metrics (e_cell e) = Some m
                                /\ e_value e = value m) enriched.
Proof.
  revert enriched. induction cs as [|c cs IH]; intros enriched; simpl.
  - by intros [= <-].
  - destruct (metricAt metrics c) as [m|] eqn:Hm; [|done].
    destruct (enrich metrics cs) as [rest| |]; simpl; try done.
    intros [= <-]. destruct (IH rest eq_refl) as [Hcells Hvals].
    simpl. rewrite cell_eta, Hcells. split; [done|].
    constructor; [|done]. by exists m.
Qed.

Lemma filterFrom_sublist (threshold : Q) (n i : nat) (slice : list Enriched) :
  filterFrom threshold n i slice `sublist_of` slice.
Proof.
  revert i. induction slice as [|e slice IH]; intros i; simpl; [done|].
  destruct (Qle_bool threshold (e_value e) || (i <? n)%nat).
  - by apply sublist_skip.
  - by apply sublist_cons.
Qed.

Lemma filterFrom_elem (threshold : Q) (n i : nat) (slice : list Enriched)
    (e : Enriched) :
  e ∈ filterFrom threshold n i slice <->
  exists j, slice !! j = Some e /\ retainsAtLeast threshold n (i + j) e.
Proof.
  revert i. induction slice as [|e' slice IH]; intros i; simpl.
  - split; [by intros ?%elem_of_nil|by intros (j & ? & _)].
  - assert (Hkeep : Qle_bool threshold (e_value e') || (i <? n)%nat = true
                    <-> retainsAtLeast threshold n (i + 0) e').
    { unfold retainsAtLeast.
      rewrite orb_true_iff, Qle_bool_iff, Nat.ltb_lt, Nat.add_0_r. done. }
    assert (Hrest : (exists j, slice !! j = Some e
                       /\ retainsAtLeast threshold n (S i + j) e)
                    <-> exists j, (e' :: slice) !! S j = Some e
                          /\ retainsAtLeast threshold n (i + S j) e).
    { split; intros (j & Hj & Hr); exists j; (split; [done|]);
        by replace (i + S j)%nat with (S i + j)%nat in * by lia. }
    destruct (Qle_bool threshold (e_value e') || (i <? n)%nat) eqn:E.
    + rewrite elem_of_cons, IH, Hrest. split.
      * intros [->|(j & Hj & Hr)]; [|by exists (S j)].
        exists 0%nat. split; [done|]. by apply Hkeep.
      * intros ([|j] & Hj & Hr); [left; by injection Hj|right; by exists j].
    + rewrite IH, Hrest. split.
      * intros (j & Hj & Hr). by exists (S j).
      * intros ([|j] & Hj & Hr); [|by exists j].
        injection Hj as <-. apply Hkeep in Hr. congruence.
Qed.

Lemma uniqueLoop_spec (keep : nat) (filtered : list Enriched) :
  forall (seen : gset string) (unique : list Cell),
    (forall c, coordKey c ∈ seen <-> c ∈ unique) ->
    NoDup unique ->
    (length unique + length filtered <= keep)%nat ->
    exists added,
      uniqueLoop keep filtered seen unique = unique ++ added
      /\ added `sublist_of` map e_cell filtered
      /\ NoDup (unique ++ added)
      /\ forall c, c ∈ unique ++ added
                   <-> c ∈ unique \/ c ∈ map e_cell filtered.
Proof.
  induction filtered as [|e rest IH]; intros seen unique Hseen Hnd Hlen; simpl.
  - exists []. rewrite app_nil_r. repeat split; try done.
    + by left.
    + intros [?|?%elem_of_nil]; done.
  - rewrite cell_eta. destruct (decide (coordKey (e_cell e) ∈ seen)) as [Hin|Hout].
    + simpl in Hlen.
      destruct (IH seen unique Hseen Hnd ltac:(lia))
        as (added & Heq & Hsub & Hnd' & Hmem).
      exists added. split; [done|]. split; [by apply sublist_cons|].
      split; [done|]. intros c. rewrite Hmem, elem_of_cons.
      apply Hseen in Hin. split; [tauto|].
      intros [?|[->|?]]; tauto.
    + assert (Hfresh : e_cell e ∉ unique) by (by rewrite <-Hseen).
      assert (Hseen' : forall c, coordKey c ∈ ({[coordKey (e_cell e)]} ∪ seen : gset string)
                                 <-> c ∈ unique ++ [e_cell e]).
      { intros c. rewrite elem_of_union, elem_of_singleton, elem_of_app,
          list_elem_of_singleton, Hseen.
        split; [intros [?%coordKey_inj|?]; tauto|intros [?| ->]; tauto]. }
      assert (Hnd1 : NoDup (unique ++ [e_cell e])).
      { apply NoDup_app. split; [done|]. split; [|apply NoDup_singleton].
        intros c Hc ->%list_elem_of_singleton. done. }
      simpl in Hlen.
      destruct (keep <=? length (unique ++ [e_cell e]))%nat eqn:Hfull.
      * apply Nat.leb_le in Hfull. rewrite length_app in Hfull. simpl in Hfull.
        assert (rest = []) as -> by (apply length_zero_iff_nil; lia).
        exists [e_cell e]. simpl. repeat split; try done.
        -- intros Hc. apply elem_of_app in Hc as [?|Hc]; [by left|by right].
        -- intros [?|?]; apply elem_of_app; [by left|by right].
      * destruct (IH _ (unique ++ [e_cell e]) Hseen' Hnd1)
          as (added & Heq & Hsub & Hnd' & Hmem).
        { rewrite length_app. simpl. lia. }
        exists (e_cell e :: added). rewrite <-app_assoc in Heq, Hnd', Hmem.
        simpl in Heq, Hnd', Hmem. split; [done|].
        split; [by apply sublist_skip|]. split; [done|].
        intros c. rewrite Hmem, elem_of_app, list_elem_of_singleton, elem_of_cons.
        tauto.
Qed.

Lemma sublist_map {A B} (f : A -> B) (l k : list A) :
  l `sublist_of` k -> map f l `sublist_of` map f k.
Proof. induction 1; simpl; by constructor. Qed.

Lemma elem_of_map {A B} (f : A -> B) (l : list A) (b : B) :
  b ∈ map f l <-> exists a, f a = b /\ a ∈ l.
Proof.
  rewrite list_elem_of_In, in_map_iff.
  by setoid_rewrite list_elem_of_In.
Qed.

Lemma enrich_returns (metrics : list (list Metric)) (cs : list Cell) :
  Forall (fun c => is_Some (metricAt metrics c)) cs ->
  exists enriched, enrich metrics cs = Ret enriched.
Proof.
  induction 1 as [|c cs [m Hm] _ [rest IH]]; simpl; [by eexists|].
  rewrite Hm, IH. by eexists.
Qed.

(** Refinement returns normally as soon as every cluster cell lies on the
    sampled grid. *)
Lemma refineSnakeCluster_returns (metrics : list (list Metric))
    (cluster : Cluster) (n : nat) :
  Forall (fun c => is_Some (metricAt metrics c)) (cells cluster) ->
  exists r, refineSnakeCluster metrics (Some cluster) n = Ret (Some r).
Proof.
  intros Hgrid. destruct (enrich_returns metrics _ Hgrid) as [enriched Hen].
  unfold refineSnakeCluster. rewrite Hen. simpl.
  destruct enriched; by eexists.
Qed.

Lemma keptSlice_length (n : nat) (enriched : list Enriched) :
  (length (keptSlice n enriched) <= maxKeep n enriched)%nat
  /\ (enriched <> [] -> (1 <= length (keptSlice n enriched))%nat).
Proof.
  unfold keptSlice, brightnessSorted. rewrite length_take.
  rewrite (Permutation_length (sortBy_Permutation brighter enriched)).
  split; [lia|]. intros Hne. unfold maxKeep.
  destruct enriched; [done|]. simpl. lia.
Qed.

Lemma dynamicThreshold_cutoff (n : nat) (slice : list Enriched) :
  (1 <= n)%nat -> (1 <= length slice)%nat ->
  exists e,
    slice !! Nat.min (n - 1) (length slice - 1) = Some e
    /\ dynamicThreshold n slice = Qmax valueThreshold (e_value e).
Proof.
  intros Hn Hlen. unfold dynamicThreshold, cutoffIndex.
  destruct (lookup_lt_is_Some_2 slice (Nat.min (n - 1) (length slice - 1)))
    as [e He]; [lia|].
  exists e. split; [done|].
  replace (Z.min (Z.of_nat n - 1) (Z.of_nat (length slice) - 1))
    with (Z.of_nat (Nat.min (n - 1) (length slice - 1))) by lia.
  destruct (Z.of_nat _ <? 0) eqn:E; [apply Z.ltb_lt in E; lia|].
  by rewrite Nat2Z.id, He.
Qed.

(** C7 (amended).  For a non-empty cluster and [expectedLen >= 1] the
    refined cluster holds at most
    [max (expectedLen + 6) (min clusterSize (expectedLen * 2))] cells,
    taken in order from the cluster's cells sorted by brightness
    descending, without repetition.  A cell is kept exactly when it
    occurs in the kept slice at a rank [i] with brightness AT LEAST the
    dynamic cutoff, or with [i < expectedLen]; the cutoff is the larger
    of the floor 32 and the brightness at sorted index
    [min (expectedLen - 1) (sliceLength - 1)]. *)
Theorem refineSnakeCluster_retention (metrics : list (list Metric))
    (cluster refined : Cluster) (expectedLen : nat) :
  cells cluster <> [] ->
  (1 <= expectedLen)%nat ->
  refineSnakeCluster metrics (Some cluster) expectedLen = Ret (Some refined) ->
  exists enriched,
    enrich metrics (cells cluster) = Ret enriched
    /\ map e_cell enriched = cells cluster
    /\ brightnessSorted enriched ≡ₚ enriched
    /\ descending (brightnessSorted enriched)
    /\ maxKeep expectedLen enriched
       = Nat.max (expectedLen + 6)
                 (Nat.min (length (cells cluster)) (expectedLen * 2))
    /\ (length (cells refined) <= maxKeep expectedLen enriched)%nat
    /\ cells refined `sublist_of` map e_cell (keptSlice expectedLen enriched)
    /\ NoDup (cells refined)
    /\ (exists e,
          keptSlice expectedLen enriched
            !! Nat.min (expectedLen - 1)
                       (length (keptSlice expectedLen enriched) - 1) = Some e
          /\ dynamicThreshold expectedLen (keptSlice expectedLen enriched)
             = Qmax valueThreshold (e_value e))
    /\ forall c,
         c ∈ cells refined <->
         exists i e,
           keptSlice expectedLen enriched !! i = Some e /\ e_cell e = c
           /\ retainsAtLeast
                (dynamicThreshold expectedLen (keptSlice expectedLen enriched))
                expectedLen i e.
Proof.
  intros Hne Hn. unfold refineSnakeCluster.
  destruct (enrich metrics (cells cluster)) as [enriched| |] eqn:Hen;
    simpl; try done.
  destruct (enrich_Ret _ _ _ Hen) as [Hcells _].
  destruct enriched as [|e0 enriched0] eqn:Henriched;
    [by rewrite <-Hcells in Hne|].
  rewrite <-Henriched in *. intros [= <-].
  exists enriched. split; [done|]. split; [done|].
  split; [apply sortBy_Permutation|].
  split; [apply brightnessSorted_descending|].
  split; [unfold maxKeep; by rewrite <-Hcells, length_map|].
  unfold refineCells. cbn [cells].
  set (slice := keptSlice expectedLen enriched).
  set (thr := dynamicThreshold expectedLen slice).
  set (filtered := filterFrom thr expectedLen 0 slice).
  destruct (keptSlice_length expectedLen enriched) as [Hslice Hpos].
  fold slice in Hslice, Hpos.
  pose proof (filterFrom_sublist thr expectedLen 0 slice) as Hsub.
  fold filtered in Hsub. pose proof (sublist_length _ _ Hsub) as Hflen.
  destruct (uniqueLoop_spec (maxKeep expectedLen enriched) filtered ∅ [])
    as (added & -> & Hadded & Hnd & Hmem).
  { intros c. split; [by intros ?%not_elem_of_empty|by intros ?%elem_of_nil]. }
  { apply NoDup_nil_2. }
  { simpl. lia. }
  simpl in *. split.
  { apply sublist_length in Hadded. rewrite length_map in Hadded. lia. }
  split.
  { etrans; [exact Hadded|]. by apply sublist_map. }
  split; [done|]. split.
  { apply dynamicThreshold_cutoff; [done|]. apply Hpos. by subst enriched. }
  intros c. rewrite Hmem. split.
  - intros [?%elem_of_nil|Hc]; [done|].
    apply elem_of_map in Hc as (e & <- & He).
    apply filterFrom_elem in He as (j & Hj & Hr). by exists j, e.
  - intros (i & e & Hi & <- & Hr). right.
    apply elem_of_map. exists e. split; [done|].
    apply filterFrom_elem. by exists i.
Qed.

(** C7 (counterexample).  The cell of rank 1 has brightness 100, equal
    to the cutoff [max 32 100]; it does not exceed the cutoff and its
    rank is not below 1, yet it is retained. *)
Lemma retainedExactlyWhenExceeding_fails :
  ~ retainedExactlyWhenExceeding tie_metrics tie_cluster 1.
Proof.
  intros Hclaim.
  specialize (Hclaim (refineCells 1 tie_enriched) tie_enriched
                eq_refl eq_refl 1%nat (mkEnriched (mkCell 1 0) (100 # 1))).
  destruct Hclaim as [Hkeep _]; [vm_compute; reflexivity|].
  destruct Hkeep as [Hexceeds|Hrank].
  - vm_compute. apply list_elem_of_In. simpl. tauto.
  - vm_compute in Hexceeds. discriminate.
  - lia.
Qed.

Lemma refineSnakeCluster_retention_witness :
  exists enriched,
    enrich tie_metrics (cells tie_cluster) = Ret enriched
    /\ (length (cells (refineCells 1 tie_enriched))
        <= maxKeep 1 enriched)%nat
    /\ NoDup (cells (refineCells 1 tie_enriched)).
Proof.
  destruct (refineSnakeCluster_retention tie_metrics tie_cluster
              (refineCells 1 tie_enriched) 1)
    as (enriched & Hen & _ & _ & _ & _ & Hlen & _ & Hnd & _).
  - discriminate.
  - lia.
  - vm_compute. reflexivity.
  - exists enriched. split; [exact Hen|]. split; [exact Hlen|exact Hnd].
Defined.


(** ** The safety fallback *)

Lemma find_some_holds {A} (f : A -> bool) (l : list A) (a : A) :
  List.find f l = Some a -> f a = true.
Proof. intros H. by apply List.find_some in H as [_ H]. Qed.

Lemma survives_not_reversal (bot : Bot) (state : Observation) (dir : Dir) :
  survives bot state dir = true -> isReversal bot dir = false.
Proof. unfold survives. by destruct (isReversal bot dir). Qed.

(** [update] stores the observed body length before either call of
    [chooseSafeDirection] (the emergency turn and [planPath]). *)
Lemma lastBodyLength_updateCurrentDir (bot : Bot) (state : Observation) :
  lastBodyLength (updateCurrentDir bot state) = lastBodyLength bot.
Proof.
  unfold updateCurrentDir.
  destruct (ob_body state) as [|h [|n l]]; try done.
  by destruct (expectedHead bot).
Qed.

Lemma lastBodyLength_emergencyTurn (bot : Bot) (state : Observation) :
  lastBodyLength (emergencyTurn bot state) = lastBodyLength bot.
Proof.
  unfold emergencyTurn. destruct (plan bot); [|done].
  destruct (shouldAvoidWall bot state); [|done].
  by destruct (chooseSafeDirection _ _ _).
Qed.

Lemma lastBodyLength_reconcileHead (bot : Bot) (state : Observation) :
  lastBodyLength (reconcileHead bot state) = lastBodyLength bot.
Proof.
  unfold reconcileHead.
  destruct (match expectedHead bot with Some _ => _ | None => _ end); [done|].
  by destruct (match prevHead bot with Some _ => _ | None => _ end).
Qed.

Lemma lastBodyLength_settled (bot : Bot) (state : Observation) :
  lastBodyLength (reconcileHead (settle bot state) state)
  = length (ob_body state).
Proof.
  rewrite lastBodyLength_reconcileHead. unfold settle.
  by rewrite lastBodyLength_emergencyTurn, lastBodyLength_updateCurrentDir.
Qed.

(** C8.  With a body longer than one cell, the safety fallback never
    returns the exact reversal of the current direction; heading (1,0),
    it never returns (-1,0).  The reversal test reads [lastBodyLength],
    the body length [update] records before it asks for a direction:
    both calls, the emergency turn and the one inside [planPath], run on
    a bot whose [lastBodyLength] is the observed body's length. *)
Theorem chooseSafeDirection_never_reverses (bot : Bot) (state : Observation)
    (preferred : list (option Dir)) (cd : Cell) (dir : Dir) :
  lastBodyLength bot = length (ob_body state) ->
  (1 < length (ob_body state))%nat ->
  currentDir bot = Some cd ->
  chooseSafeDirection bot state preferred = Some dir ->
  ~ (dx dir = - x cd /\ dy dir = - y cd)
  /\ (cd = mkCell 1 0 -> ~ (dx dir = -1 /\ dy dir = 0))
  /\ (forall bot0 : Bot,
        lastBodyLength
          (updateCurrentDir
             (set_lastBodyLength (length (ob_body state)) bot0) state)
        = length (ob_body state)
        /\ lastBodyLength
             (set_prevSnakeKeys (list_to_set (map coordKey (ob_body state)))
                (reconcileHead (settle bot0 state) state))
           = length (ob_body state)).
Proof.
  intros Hlen Hlong Hcd Hchoose.
  apply find_some_holds, survives_not_reversal in Hchoose.
  unfold isReversal in Hchoose. rewrite Hcd, Hlen in Hchoose.
  apply andb_false_iff in Hchoose as [Hchoose|Hchoose].
  { apply Nat.ltb_ge in Hchoose. lia. }
  assert (Hne : ~ (dx dir = - x cd /\ dy dir = - y cd)).
  { intros [Hx Hy]. rewrite Hx, Hy, !Z.eqb_refl in Hchoose. done. }
  split; [done|]. split; [intros ->; exact Hne|].
  intros bot0. split.
  - by rewrite lastBodyLength_updateCurrentDir.
  - cbn [lastBodyLength set_prevSnakeKeys]. apply lastBodyLength_settled.
Qed.

Lemma chooseSafeDirection_never_reverses_witness :
  ~ (dx up = - x (mkCell 1 0) /\ dy up = - y (mkCell 1 0)).
Proof.
  destruct (chooseSafeDirection_never_reverses demo_bot demo_state []
              (mkCell 1 0) up) as [Hno _].
  - reflexivity.
  - simpl. lia.
  - reflexivity.
  - vm_compute. reflexivity.
  - exact Hno.
Defined.

(** ** The control loop *)

(** C9 (counterexample).  While the observed head still equals the
    previous head, a mismatch with the predicted head clears nothing:
    the whole tick leaves the pending flag set and the plan queued, and
    dispatches nothing. *)
Lemma clearsOnMismatch_fails :
  ~ clearsOnMismatch waiting_bot waiting_state
  /\ exists bot',
       update waiting_bot waiting_frame = Ret (bot', [])
       /\ commandPending bot' = true /\ plan bot' = [right].
Proof.
  split.
  - intros Hclaim. destruct Hclaim as [Hpending _].
    + exists (mkCell 6 5). split; [reflexivity|discriminate].
    + vm_compute in Hpending. discriminate.
  - eexists. split; [vm_compute; reflexivity|]. split; reflexivity.
Qed.

(** C9 (amended).  When the observed head is neither the predicted head
    nor the previously recorded head (or none was recorded), the
    reconciliation clears the pending flag, empties the plan and drops
    the prediction, and the rest of the tick (planning and dispatch)
    runs from that cleared state.  When the head still equals the
    previous head, the reconciliation changes nothing. *)
Theorem reconcileHead_desync (bot : Bot) (state : Observation) :
  (~ (exists eh, expectedHead bot = Some eh /\ ob_head state = eh) ->
   (prevHead bot = None
    \/ exists ph, prevHead bot = Some ph /\ ob_head state <> ph) ->
   commandPending (reconcileHead bot state) = false
   /\ plan (reconcileHead bot state) = []
   /\ expectedHead (reconcileHead bot state) = None
   /\ prevHead (reconcileHead bot state) = Some (ob_head state))
  /\ (~ (exists eh, expectedHead bot = Some eh /\ ob_head state = eh) ->
      prevHead bot = Some (ob_head state) ->
      reconcileHead bot state = bot)
  /\ (forall fr bot0,
        fr_playing fr = true ->
        observe (ensureGameRunning bot0 fr) fr = (bot, Some state) ->
        update bot0 fr
        = finishTick (reconcileHead (settle bot state) state) state).
Proof.
  split; [|split].
  - intros Hexp Hprev. unfold reconcileHead.
    destruct (expectedHead bot) as [eh|] eqn:Heh.
    + destruct (sameCell (Some (ob_head state)) (Some eh)) eqn:Hsame.
      { apply sameCell_true in Hsame. destruct Hexp. by exists eh. }
      destruct Hprev as [->|(ph & -> & Hne)]; [done|].
      destruct (sameCell (Some (ob_head state)) (Some ph)) eqn:Hsame';
        [by apply sameCell_true in Hsame'|done].
    + destruct Hprev as [->|(ph & -> & Hne)]; [done|].
      destruct (sameCell (Some (ob_head state)) (Some ph)) eqn:Hsame';
        [by apply sameCell_true in Hsame'|done].
  - intros Hexp Hprev. unfold reconcileHead. rewrite Hprev.
    rewrite sameCell_refl. cbn [negb].
    destruct (expectedHead bot) as [eh|] eqn:Heh; [|done].
    destruct (sameCell (Some (ob_head state)) (Some eh)) eqn:Hsame; [|done].
    apply sameCell_true in Hsame. destruct Hexp. by exists eh.
  - intros fr bot0 Hplaying Hobs. unfold update.
    by rewrite Hplaying, Hobs.
Qed.

Lemma reconcileHead_desync_witness :
  commandPending (reconcileHead desync_bot desync_state) = false
  /\ plan (reconcileHead desync_bot desync_state) = []
  /\ expectedHead (reconcileHead desync_bot desync_state) = None
  /\ prevHead (reconcileHead desync_bot desync_state) = Some (mkCell 5 6).
Proof.
  destruct (reconcileHead_desync desync_bot desync_state) as [Hclear _].
  apply Hclear.
  - intros (eh & Heh & Hhead). vm_compute in Heh. injection Heh as <-.
    discriminate.
  - right. exists (mkCell 5 5). split; [reflexivity|discriminate].
Defined.

Lemma dispatchNext_reversal (bot : Bot) (state : Observation)
    (nextDir : Dir) (rest : list Dir) :
  commandPending bot = false ->
  plan bot = nextDir :: rest ->
  isReversal bot nextDir = true ->
  sendDirection (set_plan rest bot) nextDir = (false, [])
  /\ dispatchNext bot state = (set_plan rest bot, []).
Proof.
  intros Hpending Hplan Hrev.
  assert (Hsend : sendDirection (set_plan rest bot) nextDir = (false, [])).
  { unfold sendDirection.
    by replace (isReversal (set_plan rest bot) nextDir) with true. }
  split; [done|]. unfold dispatchNext. by rewrite Hpending, Hplan, Hsend.
Qed.

(** C10.  When the move taken from the front of the plan is the exact
    reversal of [currentDir] and [lastBodyLength > 1], [sendDirection]
    returns [false] and dispatches no event; the dispatch step leaves
    the pending flag [false], does not assign [expectedHead], and its
    only effect on the bot is that the move is gone from the plan; under
    the idle invariant that every tick maintains, [expectedHead] is
    [null] afterwards.  The same holds for the whole tail of the tick
    when that plan was already queued. *)
Theorem dispatchNext_drops_reversal (bot : Bot) (state : Observation)
    (nextDir : Dir) (rest : list Dir) (cd : Cell) :
  commandPending bot = false ->
  plan bot = nextDir :: rest ->
  (1 < lastBodyLength bot)%nat ->
  currentDir bot = Some cd ->
  dx nextDir = - x cd ->
  dy nextDir = - y cd ->
  sendDirection (set_plan rest bot) nextDir = (false, [])
  /\ dispatchNext bot state = (set_plan rest bot, [])
  /\ commandPending (dispatchNext bot state).1 = false
  /\ expectedHead (dispatchNext bot state).1 = expectedHead bot
  /\ (idleInvariant bot -> expectedHead (dispatchNext bot state).1 = None)
  /\ plan (dispatchNext bot state).1 = rest
  /\ finishTick bot state
     = Ret (set_plan rest
              (set_prevSnakeKeys
                 (list_to_set (map coordKey (ob_body state))) bot),
            []).
Proof.
  intros Hpending Hplan Hlong Hcd Hdx Hdy.
  assert (Hrev : isReversal bot nextDir = true).
  { unfold isReversal. rewrite Hcd, Hdx, Hdy, !Z.eqb_refl.
    apply andb_true_iff. split; [|done]. by apply Nat.ltb_lt. }
  destruct (dispatchNext_reversal bot state nextDir rest Hpending Hplan Hrev)
    as [Hsend Hdisp].
  split; [done|]. split; [done|]. rewrite Hdisp. simpl.
  split; [done|]. split; [done|]. split; [by intros Hidle; apply Hidle|].
  split; [done|].
  unfold finishTick.
  set (bot' := set_prevSnakeKeys _ bot).
  assert (Hplan' : plan bot' = nextDir :: rest) by done.
  rewrite Hplan'. cbn [mbind outcome_bind obind]. rewrite Hplan'.
  by destruct (dispatchNext_reversal bot' state nextDir rest Hpending Hplan' Hrev)
    as [_ ->].
Qed.

Lemma dispatchNext_drops_reversal_witness :
  sendDirection (set_plan [up] reversing_bot) left = (false, [])
  /\ dispatchNext reversing_bot demo_state = (set_plan [up] reversing_bot, [])
  /\ commandPending (dispatchNext reversing_bot demo_state).1 = false
  /\ expectedHead (dispatchNext reversing_bot demo_state).1
     = expectedHead reversing_bot
  /\ (idleInvariant reversing_bot ->
      expectedHead (dispatchNext reversing_bot demo_state).1 = None)
  /\ plan (dispatchNext reversing_bot demo_state).1 = [up]
  /\ finishTick reversing_bot demo_state
     = Ret (set_plan [up]
              (set_prevSnakeKeys
                 (list_to_set (map coordKey (ob_body demo_state)))
                 reversing_bot),
            []).
Proof.
  apply (dispatchNext_drops_reversal reversing_bot demo_state left [up]
           (mkCell 1 0)).
  - reflexivity.
  - reflexivity.
  - simpl. lia.
  - reflexivity.
  - reflexivity.
  - reflexivity.
Defined.


(** ** The tick always completes, and keeps the idle invariant *)

Lemma planPath_returns (bot : Bot) (state : option Observation) :
  exists p, planPath bot state = Ret p.
Proof.
  destruct state as [state|]; [|by eexists]. unfold planPath.
  assert (Hfood : exists r,
             match ob_food state with
             | Some f => findPath (ob_body state) (Some f) ModeFood
             | None => Ret None
             end = Ret r).
  { destruct (ob_food state) as [f|]; [|by eexists].
    destruct (findPath_Ret (ob_body state) (Some f) ModeFood)
      as (run & _ & ->). by eexists. }
  destruct Hfood as [r ->]. cbn [mbind outcome_bind obind].
  destruct (nonEmptyPath r); [by eexists|].
  destruct (findPath_Ret (ob_body state) (last (ob_body state)) ModeTail)
    as (run & _ & ->).
  cbn [mbind outcome_bind obind].
  destruct (nonEmptyPath _); [by eexists|].
  destruct (chooseSafeDirection _ _ _); by eexists.
Qed.

Lemma finishTick_returns (bot : Bot) (state : Observation) :
  exists r, finishTick bot state = Ret r.
Proof.
  unfold finishTick. set (bot' := set_prevSnakeKeys _ bot).
  destruct (plan bot') eqn:Hplan.
  - destruct (planPath_returns bot' (Some state)) as [p ->].
    cbn [mbind outcome_bind obind plan set_plan]. destruct p; by eexists.
  - cbn [mbind outcome_bind obind]. rewrite Hplan. by eexists.
Qed.

Lemma update_returns (bot : Bot) (fr : Frame) :
  exists r, update bot fr = Ret r.
Proof.
  unfold update. destruct (negb (fr_playing fr)); [by eexists|].
  destruct (observe _ fr) as [bot' [state|]]; [|by eexists].
  apply finishTick_returns.
Qed.

Lemma idleInvariant_extrapolate (bot : Bot) (grew : bool) :
  idleInvariant bot -> idleInvariant (extrapolate bot grew).1.
Proof.
  intros Hidle. unfold extrapolate.
  destruct (prevSnake bot) as [[|p0 prest]|] eqn:Hprev; try done.
  destruct (expectedHead bot) as [eh|] eqn:Heh.
  - match goal with
    | |- context [match prevSnake ?b with _ => _ end] =>
        destruct (prevSnake b) as [[|h rest]|]; done
    end.
  - rewrite Hprev. done.
Qed.

Lemma idleInvariant_observe (bot : Bot) (fr : Frame) :
  idleInvariant bot -> idleInvariant (observe bot fr).1.
Proof.
  intros Hidle. unfold observe.
  set (bot1 := if lastScore bot <? fr_score fr
               then set_prevFood None bot else bot).
  assert (H1 : idleInvariant bot1) by (subst bot1; by destruct (_ <? _)).
  set (bot2 := analyzeBoard_effects (set_lastScore (fr_score fr) bot1)
                                    (fr_analysis fr)).
  assert (H2 : idleInvariant bot2).
  { subst bot2. unfold analyzeBoard_effects.
    destruct (fr_analysis fr) as [obs|]; [|done].
    destruct (ob_body obs), (ob_food obs); done. }
  destruct (fr_analysis fr); [done|]. by apply idleInvariant_extrapolate.
Qed.

Lemma isReversal_frame (b1 b2 : Bot) (dir : Dir) :
  lastBodyLength b1 = lastBodyLength b2 -> currentDir b1 = currentDir b2 ->
  isReversal b1 dir = isReversal b2 dir.
Proof. unfold isReversal. by intros -> ->. Qed.

Lemma settledInvariant_settle (bot : Bot) (state : Observation) :
  idleInvariant bot -> settledInvariant (settle bot state).
Proof.
  intros Hidle. unfold settle.
  set (bot1 := updateCurrentDir _ state).
  assert (H1 : idleInvariant bot1).
  { subst bot1. unfold updateCurrentDir.
    destruct (ob_body state) as [|h [|n l]]; try done.
    simpl. by destruct (expectedHead bot). }
  unfold emergencyTurn. destruct (plan bot1); [|by left].
  destruct (shouldAvoidWall bot1 state); [|by left].
  destruct (chooseSafeDirection _ _ _) as [turn|] eqn:Hturn; [|by left].
  right. exists turn. split; [done|].
  apply find_some_holds, survives_not_reversal in Hturn.
  by rewrite <-Hturn.
Qed.

Lemma settledInvariant_reconcileHead (bot : Bot) (state : Observation) :
  settledInvariant bot -> settledInvariant (reconcileHead bot state).
Proof.
  intros Hset. unfold reconcileHead.
  destruct (match expectedHead bot with Some _ => _ | None => _ end);
    [by left|].
  destruct (match prevHead bot with Some _ => _ | None => _ end);
    [by left|done].
Qed.

Lemma idleInvariant_dispatchNext (bot : Bot) (state : Observation) :
  settledInvariant bot -> idleInvariant (dispatchNext bot state).1.
Proof.
  intros Hset. unfold dispatchNext.
  destruct (commandPending bot) eqn:Hpending.
  { simpl. intros Hp. congruence. }
  destruct (plan bot) as [|nextDir rest] eqn:Hplan.
  { destruct Hset as [Hidle|(turn & Hturn & _)]; [done|congruence]. }
  unfold sendDirection.
  destruct (isReversal (set_plan rest bot) nextDir) eqn:Hrev; simpl; [|done].
  destruct Hset as [Hidle|(turn & Hturn & Hok)]; [done|].
  rewrite Hplan in Hturn. injection Hturn as -> ->.
  rewrite (isReversal_frame _ bot) in Hrev by done. congruence.
Qed.

Lemma idleInvariant_finishTick (bot : Bot) (state : Observation)
    (bot' : Bot) (events : list string) :
  settledInvariant bot -> finishTick bot state = Ret (bot', events) ->
  idleInvariant bot'.
Proof.
  intros Hset. unfold finishTick.
  set (bot1 := set_prevSnakeKeys _ bot).
  assert (H1 : settledInvariant bot1) by done.
  destruct (plan bot1) as [|d rest] eqn:Hplan.
  - assert (Hidle : idleInvariant bot1).
    { destruct H1 as [?|(turn & Hturn & _)]; [done|congruence]. }
    destruct (planPath_returns bot1 (Some state)) as [p ->].
    cbn [mbind outcome_bind obind].
    destruct p as [|d rest]; cbn [plan set_plan].
    + by intros [= <- _].
    + intros [= Hdisp].
      replace bot' with (dispatchNext (set_plan (d :: rest) bot1) state).1
        by (by rewrite Hdisp).
      apply idleInvariant_dispatchNext. by left.
  - cbn [mbind outcome_bind obind]. rewrite Hplan.
    intros [= Hdisp].
    replace bot' with (dispatchNext bot1 state).1 by (by rewrite Hdisp).
    by apply idleInvariant_dispatchNext.
Qed.

Lemma idleInvariant_newBot (score : Z) : idleInvariant (newBot score).
Proof. done. Qed.

(** Every tick returns normally and re-establishes the idle invariant,
    which the constructor's state and every reset satisfy: whenever no
    command is pending, no head is predicted. *)
Lemma update_idleInvariant (bot : Bot) (fr : Frame) (bot' : Bot)
    (events : list string) :
  idleInvariant bot -> update bot fr = Ret (bot', events) ->
  idleInvariant bot'.
Proof.
  intros Hidle. unfold update.
  assert (H0 : idleInvariant (ensureGameRunning bot fr)).
  { unfold ensureGameRunning.
    destruct (fr_startOverlay fr), (fr_gameOverOverlay fr); done. }
  destruct (negb (fr_playing fr)); [by intros [= <- _]|].
  pose proof (idleInvariant_observe _ fr H0) as H1.
  destruct (observe _ fr) as [bot1 [state|]]; [|by intros [= <- _]].
  apply idleInvariant_finishTick.
  by apply settledInvariant_reconcileHead, settledInvariant_settle.
Qed.

(** * Properties of the remaining components *)

(** ** Grid facts *)

Lemma In_seqZ (m n z : Z) : In z (seqZ m n) <-> m <= z < m + n.
Proof. by rewrite <-list_elem_of_In, elem_of_seqZ. Qed.

Lemma elem_of_gridCells (c : Cell) : c ∈ gridCells <-> isInside c = true.
Proof.
  unfold gridCells, isInside, grid. rewrite list_elem_of_In, in_flat_map.
  setoid_rewrite In_seqZ at 1. setoid_rewrite in_map_iff.
  setoid_rewrite In_seqZ.
  rewrite !andb_true_iff, !Z.leb_le, !Z.ltb_lt. split.
  - intros (cy & Hy & cx & <- & Hx). simpl. lia.
  - intros Hc. exists (y c). split; [lia|]. exists (x c).
    split; [apply cell_eta|lia].
Qed.

Lemma length_gridCells : length gridCells = Z.to_nat (grid * grid).
Proof. vm_compute. reflexivity. Qed.

Lemma fullGrid_covers (metrics : list (list Metric)) :
  fullGrid metrics -> gridCovered metrics.
Proof.
  intros [Hrows Hcols] c Hin. unfold isInside in Hin.
  rewrite !andb_true_iff, !Z.leb_le, !Z.ltb_lt in Hin.
  unfold metricAt.
  destruct ((y c <? 0) || (x c <? 0)) eqn:E.
  { apply orb_true_iff in E as [E|E]; apply Z.ltb_lt in E; lia. }
  destruct (lookup_lt_is_Some_2 metrics (Z.to_nat (y c))) as [row Hrow];
    [lia|].
  rewrite Hrow. simpl.
  apply lookup_lt_is_Some_2.
  rewrite Forall_forall in Hcols.
  rewrite (Hcols row); [lia|]. by eapply list_elem_of_lookup_2.
Qed.

Lemma outsideTest_isInside (n : Cell) :
  (x n <? 0) || (y n <? 0) || (grid <=? x n) || (grid <=? y n)
  = negb (isInside n).
Proof.
  unfold isInside.
  destruct (x n <? 0) eqn:E1, (y n <? 0) eqn:E2, (grid <=? x n) eqn:E3,
    (grid <=? y n) eqn:E4, (0 <=? x n) eqn:E5, (0 <=? y n) eqn:E6,
    (x n <? grid) eqn:E7, (y n <? grid) eqn:E8; simpl; try done;
    rewrite ?Z.ltb_lt, ?Z.ltb_ge, ?Z.leb_le, ?Z.leb_gt in *; lia.
Qed.

Lemma floodNeighbors_adjacent (c n : Cell) :
  n ∈ floodNeighbors c <-> manhattan c n = 1.
Proof.
  unfold floodNeighbors, manhattan. rewrite !elem_of_cons, elem_of_nil.
  destruct c as [cx cy], n as [nx ny]; simpl. split.
  - intros [[= -> ->]|[[= -> ->]|[[= -> ->]|[[= -> ->]|[]]]]]; lia.
  - intros H.
    assert ((nx = cx + 1 /\ ny = cy) \/ (nx = cx - 1 /\ ny = cy)
            \/ (nx = cx /\ ny = cy + 1) \/ (nx = cx /\ ny = cy - 1))
      as [[-> ->]|[[-> ->]|[[-> ->]|[-> ->]]]] by lia; tauto.
Qed.

Lemma manhattan_sym (a b : Cell) : manhattan a b = manhattan b a.
Proof. unfold manhattan. lia. Qed.

Lemma size_list_to_set_le (l : list string) :
  (size (list_to_set l : gset string) <= length l)%nat.
Proof.
  induction l as [|a l IH]; cbn [list_to_set length].
  - rewrite size_empty. lia.
  - rewrite size_union_alt, size_singleton.
    assert (size (list_to_set l ∖ {[a]} : gset string)
            <= size (list_to_set l : gset string))%nat
      by (apply subseteq_size; set_solver).
    lia.
Qed.

Lemma size_gridKeys : (size gridKeys <= Z.to_nat (grid * grid))%nat.
Proof.
  unfold gridKeys. etrans; [apply size_list_to_set_le|].
  by rewrite length_map, length_gridCells.
Qed.

Lemma coordKey_gridKeys (c : Cell) :
  isInside c = true -> coordKey c ∈ gridKeys.
Proof.
  intros Hin. unfold gridKeys. apply elem_of_list_to_set, elem_of_map.
  exists c. split; [done|]. by apply elem_of_gridCells.
Qed.

Lemma unvisited_insert (k : string) (visited : gset string) :
  k ∈ gridKeys -> k ∉ visited ->
  (S (unvisited ({[k]} ∪ visited)) = unvisited visited)%nat.
Proof.
  unfold unvisited. generalize gridKeys. intros gridKeys Hk Hv.
  replace (gridKeys ∖ ({[k]} ∪ visited)) with ((gridKeys ∖ visited) ∖ {[k]})
    by set_solver.
  assert (Hsub : ({[k]} : gset string) ⊆ gridKeys ∖ visited) by set_solver.
  rewrite (size_difference _ _ Hsub), size_singleton.
  apply subseteq_size in Hsub. rewrite size_singleton in Hsub. lia.
Qed.

(** ** ClusterBuilder: the flood fill *)

Lemma dropLast_snoc {A} (l : list A) (a : A) : dropLast (l ++ [a]) = l.
Proof.
  unfold dropLast. rewrite length_app. simpl.
  replace (length l + 1 - 1)%nat with (length l) by lia.
  by rewrite take_app_length.
Qed.

Lemma cellsOf_snoc (done : list Cluster) (K : Cluster) :
  cellsOf (done ++ [K]) = cellsOf done ++ cells K.
Proof. unfold cellsOf. rewrite flat_map_app. simpl. by rewrite app_nil_r. Qed.

Lemma elem_of_cellsOf (clusters : list Cluster) (c : Cell) :
  c ∈ cellsOf clusters <-> exists K, K ∈ clusters /\ c ∈ cells K.
Proof.
  unfold cellsOf. rewrite list_elem_of_In, in_flat_map.
  by setoid_rewrite list_elem_of_In.
Qed.

Lemma linked_mono (S S' : list Cell) (a b : Cell) :
  (forall c, c ∈ S -> c ∈ S') -> linked S a b -> linked S' a b.
Proof.
  intros Hsub. induction 1 as [a Ha|a b c _ IH Hc Hbc].
  - apply linked_here. by apply Hsub.
  - eapply linked_step; [exact IH|by apply Hsub|done].
Qed.

Lemma isBright_metric (metrics : list (list Metric)) (c : Cell) (m : Metric) :
  metricAt metrics c = Some m -> isBright metrics c <-> bright m = true.
Proof.
  intros Hm. split.
  - intros (m' & Hm' & Hb). congruence.
  - intros Hb. by exists m.
Qed.

Section Flood.
Variable metrics : list (list Metric).
Hypothesis Hgrid : gridCovered metrics.
Variable done : list Cluster.

Lemma floodInv_perm (pending pending' : list Cell) (visited : gset string) :
  pending ≡ₚ pending' ->
  floodInv metrics done pending visited ->
  floodInv metrics done pending' visited.
Proof.
  intros Hperm [Hnd Hvis Hbr Hdone].
  assert (Hall : cellsOf done ++ pending ≡ₚ cellsOf done ++ pending')
    by (by rewrite Hperm).
  split; [by rewrite <-Hall| | |done].
  - intros k. rewrite Hvis. by setoid_rewrite Hall.
  - intros c Hc. apply Hbr. by rewrite Hall.
Qed.

(** A key already in [visited] belongs to a cell already collected. *)
Lemma floodInv_visited_cell (pending : list Cell) (visited : gset string)
    (c : Cell) :
  floodInv metrics done pending visited ->
  coordKey c ∈ visited <-> c ∈ cellsOf done ++ pending.
Proof.
  intros Hinv. rewrite (fi_visited _ _ _ _ Hinv). split.
  - by intros (c' & Hc' & ->%coordKey_inj).
  - intros Hc. by exists c.
Qed.

Lemma floodInv_push (pending : list Cell) (visited : gset string) (n : Cell) :
  floodInv metrics done pending visited ->
  isInside n = true -> isBright metrics n -> coordKey n ∉ visited ->
  floodInv metrics done (pending ++ [n]) ({[coordKey n]} ∪ visited).
Proof.
  intros Hinv Hin Hbr Hfresh.
  assert (Hnew : n ∉ cellsOf done ++ pending)
    by (by rewrite <-(floodInv_visited_cell _ _ _ Hinv)).
  destruct Hinv as [Hnd Hvis Hbright Hdone].
  split; [| | |done].
  - rewrite app_assoc. apply NoDup_app. split; [done|].
    split; [|apply NoDup_singleton].
    intros c Hc ->%list_elem_of_singleton. done.
  - intros k. rewrite elem_of_union, elem_of_singleton, app_assoc. split.
    + intros [->|Hk].
      { exists n. split; [|done]. apply elem_of_app. right.
        by apply list_elem_of_singleton. }
      apply Hvis in Hk as (c & Hc & <-). exists c. split; [|done].
      apply elem_of_app. by left.
    + intros (c & Hc & <-). apply elem_of_app in Hc as [Hc|Hc].
      { right. apply Hvis. by exists c. }
      apply list_elem_of_singleton in Hc as ->. by left.
  - intros c. rewrite app_assoc, elem_of_app, list_elem_of_singleton.
    intros [Hc| ->]; [by apply Hbright|done].
Qed.

Lemma pushNeighbor_ok (cs stack : list Cell) (visited : gset string)
    (n : Cell) :
  floodInv metrics done (cs ++ stack) visited ->
  exists stack' visited',
    pushNeighbor metrics (stack, visited) n = Ret (stack', visited')
    /\ floodInv metrics done (cs ++ stack') visited'
    /\ (stack' = stack \/ stack' = stack ++ [n])
    /\ (isInside n = true -> isBright metrics n ->
        n ∈ cellsOf done ++ cs ++ stack')
    /\ (length stack' + unvisited visited'
        <= length stack + unvisited visited)%nat.
Proof.
  intros Hinv. unfold pushNeighbor. rewrite outsideTest_isInside.
  destruct (isInside n) eqn:Hin; cbn [negb].
  2:{ exists stack, visited. split; [done|]. split; [done|].
      split; [by left|]. split; [done|lia]. }
  destruct (Hgrid n Hin) as [m Hm]. rewrite Hm.
  destruct (bright m) eqn:Hb; cbn [negb].
  2:{ exists stack, visited. split; [done|]. split; [done|].
      split; [by left|]. split; [|lia].
      intros _ Hbr. apply (isBright_metric _ _ _ Hm) in Hbr. congruence. }
  assert (Hbr : isBright metrics n) by (by exists m).
  destruct (decide (coordKey n ∈ visited)) as [Hseen|Hfresh].
  { exists stack, visited. split; [done|]. split; [done|].
    split; [by left|]. split; [|lia].
    intros _ _. by apply (floodInv_visited_cell _ _ _ Hinv). }
  exists (stack ++ [n]), ({[coordKey n]} ∪ visited).
  split; [done|]. split.
  { rewrite app_assoc. by apply floodInv_push. }
  split; [by right|]. split.
  { intros _ _. rewrite !elem_of_app, list_elem_of_singleton. tauto. }
  rewrite length_app. simpl.
  pose proof (unvisited_insert (coordKey n) visited
                (coordKey_gridKeys n Hin) Hfresh). lia.
Qed.

Lemma foldNeighbors_ok (candidates : list Cell) :
  forall (cs stack : list Cell) (visited : gset string),
    floodInv metrics done (cs ++ stack) visited ->
    exists added visited',
      foldOutcome (pushNeighbor metrics) candidates (stack, visited)
      = Ret (stack ++ added, visited')
      /\ floodInv metrics done (cs ++ stack ++ added) visited'
      /\ (forall a, a ∈ added -> a ∈ candidates)
      /\ (forall n, n ∈ candidates -> isInside n = true ->
                    isBright metrics n ->
                    n ∈ cellsOf done ++ cs ++ stack ++ added)
      /\ (length (stack ++ added) + unvisited visited'
          <= length stack + unvisited visited)%nat.
Proof.
  induction candidates as [|n candidates IH]; intros cs stack visited Hinv.
  - exists [], visited. rewrite !app_nil_r. simpl.
    split; [done|]. split; [done|].
    split; [by intros a ?%elem_of_nil|].
    split; [by intros n ?%elem_of_nil|lia].
  - destruct (pushNeighbor_ok cs stack visited n Hinv)
      as (stack1 & visited1 & Hpush & Hinv1 & Hgrow & Hn & Hmeas).
    destruct (IH cs stack1 visited1 Hinv1)
      as (added & visited' & Hfold & Hinv' & Hadd & Hcl & Hmeas').
    cbn [foldOutcome]. rewrite Hpush. cbn [mbind outcome_bind obind].
    rewrite Hfold.
    destruct Hgrow as [->| ->].
    + exists added, visited'. split; [done|]. split; [done|].
      split; [intros a Ha; right; by apply Hadd|]. split; [|lia].
      intros c [->|Hc]%elem_of_cons Hin Hbr; [|by apply Hcl].
      specialize (Hn Hin Hbr). rewrite !elem_of_app in *. tauto.
    + exists (n :: added), visited'.
      replace (stack ++ n :: added) with ((stack ++ [n]) ++ added)
        by (by rewrite <-app_assoc).
      split; [done|]. split; [done|].
      split; [intros a [->|Ha]%elem_of_cons; [by left|right; by apply Hadd]|].
      split; [|lia].
      intros c [->|Hc]%elem_of_cons Hin Hbr; [|by apply Hcl].
      specialize (Hn Hin Hbr). rewrite !elem_of_app in *. tauto.
Qed.
End Flood.

Section FloodLoop.
Variable metrics : list (list Metric).
Hypothesis Hgrid : gridCovered metrics.
Variable done : list Cluster.
Variable seed : Cell.

(** With an empty stack the loop returns the cluster collected so far,
    which is closed, connected and well formed. *)
Lemma visitLoop_finish fuel (cs : list Cell) (set visited : gset string) :
  floodInv metrics done cs visited ->
  set = list_to_set (map coordKey cs) ->
  (forall c n, c ∈ cs -> manhattan c n = 1 -> isInside n = true ->
               isBright metrics n -> n ∈ cellsOf done ++ cs) ->
  (forall c, c ∈ cs -> linked cs seed c) ->
  (exists rest, cs = seed :: rest) ->
  exists K visited',
    visitLoop fuel metrics [] cs set visited = Ret (K, visited')
    /\ floodInv metrics (done ++ [K]) [] visited'
    /\ (forall c, c ∈ cs -> c ∈ cells K)
    /\ (forall k, k ∈ visited -> k ∈ visited').
Proof.
  intros Hinv Hset Hclosed Hlinked [rest Hfirst].
  exists (mkCluster cs set), visited.
  split; [by destruct fuel|]. split; [|done].
  destruct Hinv as [Hnd Hvis Hbright Hdone].
  split; rewrite ?app_nil_r, ?cellsOf_snoc; cbn [cells]; try done.
  intros K [HK| ->%list_elem_of_singleton]%elem_of_app; [by apply Hdone|].
  split; [|split].
  - intros c n Hc Hcn Hin Hbr. cbn [cells] in *.
    specialize (Hclosed c n Hc Hcn Hin Hbr).
    apply elem_of_app in Hclosed as [Hn|Hn]; [|done]. exfalso.
    apply elem_of_cellsOf in Hn as (K' & HK' & Hn).
    destruct (Hdone K' HK') as (Hcl & _ & _).
    assert (Hc' : c ∈ cells K').
    { apply (Hcl n c Hn); [by rewrite manhattan_sym| |];
        apply Hbright, elem_of_app; by right. }
    apply NoDup_app in Hnd as (_ & Hdisj & _).
    apply (Hdisj c); [|done]. apply elem_of_cellsOf. by exists K'.
  - split; [|done]. cbn [cells]. by rewrite Hfirst.
  - exists seed, rest. by split.
Qed.

(** The [while] loop of [visit]: from a state that satisfies the
    invariant it returns a finished cluster, with the invariant
    re-established for the clusters found so far. *)
Lemma visitLoop_ok fuel :
  forall (stack cs : list Cell) (set visited : gset string),
    floodInv metrics done (cs ++ stack) visited ->
    set = list_to_set (map coordKey cs) ->
    (forall c n, c ∈ cs -> manhattan c n = 1 -> isInside n = true ->
                 isBright metrics n -> n ∈ cellsOf done ++ cs ++ stack) ->
    (forall c, c ∈ cs ++ stack -> linked (cs ++ stack) seed c) ->
    ((cs = [] /\ stack = [seed]) \/ exists rest, cs = seed :: rest) ->
    (length stack + unvisited visited <= fuel)%nat ->
    exists K visited',
      visitLoop fuel metrics stack cs set visited = Ret (K, visited')
      /\ floodInv metrics (done ++ [K]) [] visited'
      /\ (forall c, c ∈ cs ++ stack -> c ∈ cells K)
      /\ (forall k, k ∈ visited -> k ∈ visited').
Proof.
  assert (Hempty : forall fuel cs set visited,
            floodInv metrics done (cs ++ []) visited ->
            set = list_to_set (map coordKey cs) ->
            (forall c n, c ∈ cs -> manhattan c n = 1 -> isInside n = true ->
                isBright metrics n -> n ∈ cellsOf done ++ cs ++ []) ->
            (forall c, c ∈ cs ++ [] -> linked (cs ++ []) seed c) ->
            ((cs = [] /\ [] = [seed]) \/ exists rest, cs = seed :: rest) ->
            exists K visited',
              visitLoop fuel metrics [] cs set visited = Ret (K, visited')
              /\ floodInv metrics (done ++ [K]) [] visited'
              /\ (forall c, c ∈ cs ++ [] -> c ∈ cells K)
              /\ (forall k, k ∈ visited -> k ∈ visited')).
  { intros fuel' cs set visited. rewrite !app_nil_r.
    intros Hinv Hset Hclosed Hlinked [[_ [=]]|Hfirst].
    by apply visitLoop_finish. }
  induction fuel as [|fuel IH];
    intros stack cs set visited Hinv Hset Hclosed Hlinked Hfirst Hfuel.
  - destruct stack as [|c stack]; [|simpl in Hfuel; lia].
    by apply Hempty.
  - destruct (last stack) as [c|] eqn:Hlast.
    2:{ apply last_None in Hlast as ->. by apply Hempty. }
    apply last_Some in Hlast as [stack0 ->].
    cbn [visitLoop]. rewrite last_snoc, dropLast_snoc, cell_eta.
    assert (Hperm : cs ++ stack0 ++ [c] ≡ₚ (cs ++ [c]) ++ stack0).
    { rewrite <-app_assoc. f_equiv. apply Permutation_app_comm. }
    pose proof (floodInv_perm metrics done _ _ _ Hperm Hinv) as Hinv0.
    destruct (foldNeighbors_ok metrics Hgrid done (floodNeighbors c)
                (cs ++ [c]) stack0 visited Hinv0)
      as (added & visited1 & Hfold & Hinv1 & Hadd & Hcl & Hmeas).
    rewrite Hfold. cbn [mbind outcome_bind obind fst snd].
    assert (Hsub : forall d, d ∈ cs ++ stack0 ++ [c] ->
                             d ∈ (cs ++ [c]) ++ stack0 ++ added).
    { intros d. rewrite !elem_of_app, list_elem_of_singleton. tauto. }
    destruct (IH (stack0 ++ added) (cs ++ [c])
                ({[coordKey c]} ∪ set) visited1) as (K & visited' & Hrun & HinvK & Hcells & Hmono).
    + done.
    + rewrite Hset, map_app, list_to_set_app_L. simpl. set_solver.
    + intros d n [Hd| ->%list_elem_of_singleton]%elem_of_app Hdn Hin Hbr.
      * specialize (Hclosed d n Hd Hdn Hin Hbr).
        rewrite !elem_of_app in *. rewrite list_elem_of_singleton in *. tauto.
      * apply Hcl; [by apply floodNeighbors_adjacent|done..].
    + intros d Hd.
      assert (Hc : linked ((cs ++ [c]) ++ stack0 ++ added) seed c).
      { apply (linked_mono (cs ++ stack0 ++ [c])); [done|].
        apply Hlinked. rewrite !elem_of_app, list_elem_of_singleton. tauto. }
      assert (Hold : d ∈ cs ++ stack0 ++ [c] ->
                     linked ((cs ++ [c]) ++ stack0 ++ added) seed d).
      { intros Hd'. apply (linked_mono (cs ++ stack0 ++ [c])); [done|].
        by apply Hlinked. }
      rewrite !elem_of_app in Hd. destruct Hd as [[Hd|Hd]|[Hd|Hd]].
      * apply Hold. rewrite !elem_of_app. tauto.
      * apply Hold. rewrite !elem_of_app. tauto.
      * apply Hold. rewrite !elem_of_app. tauto.
      * eapply linked_step; [exact Hc| |].
        -- rewrite !elem_of_app. tauto.
        -- by apply floodNeighbors_adjacent, Hadd.
    + right. destruct Hfirst as [[-> Hs]|[rest ->]].
      * destruct stack0; [|by destruct stack0]. injection Hs as ->.
        by exists [].
      * by eexists.
    + rewrite length_app in Hfuel. simpl in Hfuel. lia.
    + exists K, visited'. split; [done|]. split; [done|]. split.
      * intros d Hd. apply Hcells. by apply Hsub.
      * intros k Hk. apply Hmono.
        apply (fi_visited _ _ _ _ Hinv1).
        apply (fi_visited _ _ _ _ Hinv0) in Hk as (d & Hd & <-).
        exists d. split; [|done]. rewrite !elem_of_app in *. tauto.
Qed.
End FloodLoop.

Lemma unvisited_le (visited : gset string) :
  (unvisited visited <= size gridKeys)%nat.
Proof.
  unfold unvisited. generalize gridKeys. intros G.
  apply subseteq_size. set_solver.
Qed.

Section FloodOuter.
Variable metrics : list (list Metric).
Hypothesis Hgrid : gridCovered metrics.

Lemma visit_ok (done : list Cluster) (visited : gset string) (seed : Cell) :
  floodInv metrics done [] visited ->
  isInside seed = true -> isBright metrics seed ->
  coordKey seed ∉ visited ->
  exists K visited',
    visit metrics seed visited = Ret (K, visited')
    /\ floodInv metrics (done ++ [K]) [] visited'
    /\ seed ∈ cells K.
Proof.
  intros Hinv Hin Hbr Hfresh. unfold visit.
  destruct (visitLoop_ok metrics Hgrid done seed (Z.to_nat (grid * grid))
              [seed] [] ∅ ({[coordKey seed]} ∪ visited))
    as (K & visited' & Hrun & HinvK & Hcells & _).
  - by apply (floodInv_push metrics done [] visited seed).
  - done.
  - by intros c n ?%elem_of_nil.
  - intros c ->%list_elem_of_singleton. apply linked_here.
    by apply list_elem_of_singleton.
  - by left.
  - pose proof (unvisited_insert (coordKey seed) visited
                  (coordKey_gridKeys seed Hin) Hfresh).
    pose proof (unvisited_le visited). pose proof size_gridKeys.
    simpl. lia.
  - exists K, visited'. split; [done|]. split; [done|].
    apply Hcells. by apply list_elem_of_singleton.
Qed.

Lemma visitCell_ok (done : list Cluster) (visited : gset string) (c : Cell) :
  floodInv metrics done [] visited ->
  isInside c = true ->
  exists done' visited',
    visitCell metrics (done, visited) c = Ret (done', visited')
    /\ floodInv metrics done' [] visited'
    /\ (exists more, done' = done ++ more)
    /\ (isBright metrics c -> c ∈ cellsOf done').
Proof.
  intros Hinv Hin. unfold visitCell.
  destruct (Hgrid c Hin) as [m Hm]. rewrite Hm.
  destruct (bright m) eqn:Hb; cbn [negb].
  2:{ exists done, visited. split; [done|]. split; [done|].
      split; [exists []; by rewrite app_nil_r|].
      intros Hbr. apply (isBright_metric _ _ _ Hm) in Hbr. congruence. }
  assert (Hbr : isBright metrics c) by (by exists m).
  destruct (decide (coordKey c ∈ visited)) as [Hseen|Hfresh].
  { exists done, visited. split; [done|]. split; [done|].
    split; [exists []; by rewrite app_nil_r|]. intros _.
    apply (floodInv_visited_cell _ _ _ _ _ Hinv) in Hseen.
    by rewrite app_nil_r in Hseen. }
  destruct (visit_ok done visited c Hinv Hin Hbr Hfresh)
    as (K & visited' & -> & HinvK & Hc).
  cbn [mbind outcome_bind obind fst snd].
  exists (done ++ [K]), visited'. split; [done|]. split; [done|].
  split; [by exists [K]|]. intros _.
  rewrite cellsOf_snoc. apply elem_of_app. by right.
Qed.

Lemma visitCells_ok (todo : list Cell) :
  forall (done : list Cluster) (visited : gset string),
    floodInv metrics done [] visited ->
    (forall c, c ∈ todo -> isInside c = true) ->
    exists done' visited',
      foldOutcome (visitCell metrics) todo (done, visited)
      = Ret (done', visited')
      /\ floodInv metrics done' [] visited'
      /\ (exists more, done' = done ++ more)
      /\ (forall c, c ∈ todo -> isBright metrics c -> c ∈ cellsOf done').
Proof.
  induction todo as [|c todo IH]; intros done visited Hinv Hin.
  - exists done, visited. split; [done|]. split; [done|].
    split; [exists []; by rewrite app_nil_r|]. by intros c ?%elem_of_nil.
  - destruct (visitCell_ok done visited c Hinv) as
      (done1 & visited1 & Hcell & Hinv1 & [more1 ->] & Hc).
    { apply Hin. by left. }
    destruct (IH (done ++ more1) visited1 Hinv1) as
      (done' & visited' & Hfold & Hinv' & [more ->] & Hrest).
    { intros d Hd. apply Hin. by right. }
    cbn [foldOutcome]. rewrite Hcell. cbn [mbind outcome_bind obind].
    rewrite Hfold. exists ((done ++ more1) ++ more), visited'.
    split; [done|]. split; [done|].
    split; [exists (more1 ++ more); by rewrite app_assoc|].
    intros d [->|Hd]%elem_of_cons Hbr; [|by apply Hrest].
    specialize (Hc Hbr). unfold cellsOf in *.
    rewrite flat_map_app. apply elem_of_app. by left.
Qed.

Lemma floodInv_start : floodInv metrics [] [] ∅.
Proof.
  split; simpl.
  - apply NoDup_nil_2.
  - intros k. split; [by intros ?%not_elem_of_empty|].
    by intros (c & ?%elem_of_nil & _).
  - by intros c ?%elem_of_nil.
  - by intros K ?%elem_of_nil.
Qed.

Lemma buildClusters_ok :
  exists clusters,
    buildClusters metrics = Ret clusters
    /\ NoDup (cellsOf clusters)
    /\ (forall c, c ∈ cellsOf clusters
                  <-> isInside c = true /\ isBright metrics c)
    /\ (forall K, K ∈ clusters ->
                  closedCluster metrics K /\ wellFormedCluster K
                  /\ connectedCluster K).
Proof.
  destruct (visitCells_ok gridCells [] ∅ floodInv_start)
    as (clusters & visited & Hfold & [Hnd Hvis Hbright Hdone] & _ & Hall).
  { intros c. apply elem_of_gridCells. }
  exists clusters. unfold buildClusters. rewrite Hfold.
  split; [done|]. rewrite app_nil_r in *. split; [done|]. split; [|done].
  intros c. split; [by apply Hbright|].
  intros [Hin Hbr]. apply Hall; [|done]. by apply elem_of_gridCells.
Qed.
End FloodOuter.

(** ** SnakeIdentifier *)

Lemma overlapOf_count (keys : gset string) (cluster : Cluster) :
  overlapOf keys cluster = Z.of_nat (overlapCount keys cluster).
Proof.
  unfold overlapOf, overlapCount.
  assert (Hgen : forall cs acc,
            fold_left (fun overlap cell =>
                         if decide (coordKey cell ∈ keys)
                         then overlap + 1 else overlap) cs acc
            = acc + Z.of_nat (length (List.filter
                  (fun c => bool_decide (coordKey c ∈ keys)) cs))).
  { induction cs as [|c cs IH]; intros acc; simpl; [lia|].
    rewrite IH. destruct (decide (coordKey c ∈ keys)) as [Hc|Hc].
    - rewrite bool_decide_eq_true_2 by done. simpl. lia.
    - by rewrite bool_decide_eq_false_2 by done. }
  by rewrite Hgen.
Qed.

Lemma firstMaximal_elem {A} (measure : A -> nat) (l : list A) (a : A) :
  firstMaximal measure l a -> a ∈ l.
Proof.
  intros (before & after & -> & _). apply elem_of_app. right. by left.
Qed.

Lemma firstWhere_elem {A} (test : A -> bool) (l : list A) (a : A) :
  firstWhere test l a -> a ∈ l.
Proof.
  intros (before & after & -> & _). apply elem_of_app. right. by left.
Qed.

(** The overlap loop keeps the first cluster with the largest overlap. *)
Lemma bestOverlap_fold (keys : gset string) (todo : list Cluster) :
  forall (seen : list Cluster) (best : option Cluster) (score : Z),
    ((best = None /\ score = -1 /\ seen = [])
     \/ (exists K, best = Some K /\ score = overlapOf keys K
                   /\ firstMaximal (overlapCount keys) seen K)) ->
    (todo = [] /\ seen = []
     /\ (fold_left (betterOverlap keys) todo (best, score)).1 = None)
    \/ (exists K,
          (fold_left (betterOverlap keys) todo (best, score)).1 = Some K
          /\ firstMaximal (overlapCount keys) (seen ++ todo) K).
Proof.
  induction todo as [|C todo IH]; intros seen best score Hacc.
  - rewrite app_nil_r. simpl.
    destruct Hacc as [(-> & _ & ->)|(K & -> & _ & HK)]; [by left|].
    right. by exists K.
  - cbn [fold_left].
    change (betterOverlap keys (best, score) C)
      with (if score <? overlapOf keys C
            then (Some C, overlapOf keys C) else (best, score)).
    replace (seen ++ C :: todo) with ((seen ++ [C]) ++ todo)
      by (by rewrite <-app_assoc).
    right.
    destruct (score <? overlapOf keys C) eqn:Hlt.
    + apply Z.ltb_lt in Hlt.
      destruct (IH (seen ++ [C]) (Some C) (overlapOf keys C))
        as [(_ & Hnil & _)|HK]; [|by destruct seen|done].
      right. exists C. split; [done|]. split; [done|].
      exists seen, []. split; [done|]. split; [|by intros b ?%elem_of_nil].
      intros b Hb.
      destruct Hacc as [(_ & _ & ->)|(K & _ & -> & HK)];
        [by apply elem_of_nil in Hb|].
      destruct HK as (before & after & -> & Hbefore & Hafter).
      rewrite !overlapOf_count in Hlt.
      apply elem_of_app in Hb as [Hb|[->|Hb]%elem_of_cons].
      * specialize (Hbefore b Hb). lia.
      * lia.
      * specialize (Hafter b Hb). lia.
    + apply Z.ltb_ge in Hlt.
      destruct Hacc as [(_ & -> & _)|(K & -> & -> & HK)].
      { rewrite overlapOf_count in Hlt. lia. }
      destruct (IH (seen ++ [C]) (Some K) (overlapOf keys K))
        as [(_ & Hnil & _)|HK']; [|by destruct seen|done].
      right. exists K. split; [done|]. split; [done|].
      destruct HK as (before & after & -> & Hbefore & Hafter).
      exists before, (after ++ [C]).
      split; [by rewrite <-!app_assoc|]. split; [done|].
      intros b [Hb| ->%list_elem_of_singleton]%elem_of_app;
        [by apply Hafter|].
      rewrite !overlapOf_count in Hlt. lia.
Qed.

Lemma bestOverlap_spec (keys : gset string) (clusters : list Cluster) :
  clusters <> [] ->
  exists K, (bestOverlap keys clusters).1 = Some K
            /\ firstMaximal (overlapCount keys) clusters K.
Proof.
  intros Hne. unfold bestOverlap.
  destruct (bestOverlap_fold keys clusters [] None (-1))
    as [(-> & _)|HK]; [by left|done|done].
Qed.

Lemma largerCluster_fold (todo : list Cluster) :
  forall (seen : list Cluster) (largest : option Cluster),
    ((largest = None /\ seen = [])
     \/ (exists K, largest = Some K
                   /\ firstMaximal (fun C => length (cells C)) seen K)) ->
    (todo = [] /\ seen = [] /\ fold_left largerCluster todo largest = None)
    \/ (exists K, fold_left largerCluster todo largest = Some K
                  /\ firstMaximal (fun C => length (cells C)) (seen ++ todo) K).
Proof.
  induction todo as [|C todo IH]; intros seen largest Hacc.
  - rewrite app_nil_r. simpl.
    destruct Hacc as [(-> & ->)|(K & -> & HK)]; [by left|].
    right. by exists K.
  - cbn [fold_left].
    replace (seen ++ C :: todo) with ((seen ++ [C]) ++ todo)
      by (by rewrite <-app_assoc).
    right. destruct Hacc as [(-> & ->)|(K & -> & HK)].
    + cbn [largerCluster].
      destruct (IH ([] ++ [C]) (Some C)) as [(_ & [=] & _)|HK]; [|done].
      right. exists C. split; [done|].
      exists [], []. split; [done|].
      split; by intros b ?%elem_of_nil.
    + cbn [largerCluster].
      destruct HK as (before & after & -> & Hbefore & Hafter).
      destruct (length (cells K) <? length (cells C))%nat eqn:Hlt.
      * apply Nat.ltb_lt in Hlt.
        destruct (IH ((before ++ K :: after) ++ [C]) (Some C))
          as [(_ & Hnil & _)|HK]; [|by destruct before|done].
        right. exists C. split; [done|].
        exists (before ++ K :: after), []. split; [done|].
        split; [|by intros b ?%elem_of_nil].
        intros b [Hb|[->|Hb]%elem_of_cons]%elem_of_app.
        -- specialize (Hbefore b Hb). simpl in *. lia.
        -- done.
        -- specialize (Hafter b Hb). simpl in *. lia.
      * apply Nat.ltb_ge in Hlt.
        destruct (IH ((before ++ K :: after) ++ [C]) (Some K))
          as [(_ & Hnil & _)|HK]; [|by destruct before|done].
        right. exists K. split; [done|].
        exists before, (after ++ [C]).
        split; [by rewrite <-!app_assoc|]. split; [done|].
        intros b [Hb| ->%list_elem_of_singleton]%elem_of_app;
          [by apply Hafter|done].
Qed.

Lemma find_firstWhere {A} (test : A -> bool) (l : list A) :
  match List.find test l with
  | Some a => firstWhere test l a
  | None => forall b, b ∈ l -> test b = false
  end.
Proof.
  induction l as [|b l IH]; simpl; [by intros b ?%elem_of_nil|].
  destruct (test b) eqn:Hb.
  - exists [], l. split; [done|]. split; [done|]. by intros c ?%elem_of_nil.
  - destruct (List.find test l) as [a|].
    + destruct IH as (before & after & -> & Ha & Hbefore).
      exists (b :: before), after. split; [done|]. split; [done|].
      intros c [->|Hc]%elem_of_cons; [done|by apply Hbefore].
    + intros c [->|Hc]%elem_of_cons; [done|by apply IH].
Qed.

Lemma containsStart_elem (K : Cluster) :
  containsStart K = true <-> startCell ∈ cells K.
Proof.
  unfold containsStart. rewrite existsb_exists.
  setoid_rewrite <-list_elem_of_In. split.
  - by intros (c & Hc & ->%sameCell_true).
  - intros Hc. exists startCell. split; [done|]. apply sameCell_refl.
Qed.

Lemma identifySnakeCluster_cases (bot : Bot) (clusters : list Cluster) :
  clusters <> [] ->
  exists K,
    identifySnakeCluster bot clusters = Some K
    /\ (((0 < size (prevSnakeKeys bot))%nat
         /\ firstMaximal (overlapCount (prevSnakeKeys bot)) clusters K)
        \/ (size (prevSnakeKeys bot) = 0%nat
            /\ firstWhere containsStart clusters K)
        \/ (size (prevSnakeKeys bot) = 0%nat
            /\ (forall C, C ∈ clusters -> containsStart C = false)
            /\ firstMaximal (fun C => length (cells C)) clusters K)).
Proof.
  intros Hne. unfold identifySnakeCluster.
  destruct clusters as [|C0 rest] eqn:Hcl; [done|]. rewrite <-Hcl in *.
  destruct (0 <? size (prevSnakeKeys bot))%nat eqn:Hsize.
  - apply Nat.ltb_lt in Hsize.
    destruct (bestOverlap_spec (prevSnakeKeys bot) clusters Hne)
      as (K & -> & HK).
    exists K. split; [done|]. left. by split.
  - apply Nat.ltb_ge in Hsize.
    pose proof (find_firstWhere containsStart clusters) as Hfind.
    destruct (List.find containsStart clusters) as [K|].
    + exists K. split; [done|]. right. left. split; [lia|done].
    + destruct (largerCluster_fold clusters [] None) as [(-> & _)|(K & -> & HK)];
        [by left|done|].
      exists K. split; [done|]. right. right. split; [lia|]. by split.
Qed.

(** X1.  [identifySnakeCluster] returns [null] exactly when there is no
    cluster, and otherwise one of the clusters it was given. *)
Theorem identifySnakeCluster_member (bot : Bot) (clusters : list Cluster) :
  (identifySnakeCluster bot clusters = None <-> clusters = [])
  /\ (forall K, identifySnakeCluster bot clusters = Some K -> K ∈ clusters).
Proof.
  destruct (decide (clusters = [])) as [->|Hne].
  { split; [done|]. by intros K [=]. }
  destruct (identifySnakeCluster_cases bot clusters Hne) as (K & HK & Hcase).
  rewrite HK. split; [split; [done|by intros ->]|].
  intros K' [= <-].
  destruct Hcase as [[_ H]|[[_ H]|(_ & _ & H)]];
    eauto using firstMaximal_elem, firstWhere_elem.
Qed.

(** X2.  When a previous snake is known, the cluster chosen is the one
    sharing the most cells with it, and among equals the first in
    traversal order. *)
Theorem identifySnakeCluster_overlap (bot : Bot) (clusters : list Cluster) :
  (0 < size (prevSnakeKeys bot))%nat ->
  clusters <> [] ->
  exists K,
    identifySnakeCluster bot clusters = Some K
    /\ firstMaximal (overlapCount (prevSnakeKeys bot)) clusters K.
Proof.
  intros Hsize Hne.
  destruct (identifySnakeCluster_cases bot clusters Hne) as (K & HK & Hcase).
  exists K. split; [done|].
  destruct Hcase as [[_ H]|[[? _]|[? _]]]; [done|lia|lia].
Qed.

(** X3.  When no previous snake is known, the cluster chosen is the first
    one containing the start cell (14,14); if none contains it, the
    first of the largest clusters. *)
Theorem identifySnakeCluster_first_tick (bot : Bot) (clusters : list Cluster) :
  size (prevSnakeKeys bot) = 0%nat ->
  clusters <> [] ->
  exists K before after,
    identifySnakeCluster bot clusters = Some K
    /\ clusters = before ++ K :: after
    /\ ((startCell ∈ cells K
         /\ forall C, C ∈ before -> startCell ∉ cells C)
        \/ ((forall C, C ∈ clusters -> startCell ∉ cells C)
            /\ (forall C, C ∈ before ->
                          (length (cells C) < length (cells K))%nat)
            /\ (forall C, C ∈ after ->
                          (length (cells C) <= length (cells K))%nat))).
Proof.
  intros Hsize Hne.
  destruct (identifySnakeCluster_cases bot clusters Hne) as (K & HK & Hcase).
  destruct Hcase as [[? _]|[[_ H]|(_ & Hnone & H)]]; [lia| |].
  - destruct H as (before & after & Heq & Htest & Hbefore).
    exists K, before, after. split; [done|]. split; [done|]. left.
    split; [by apply containsStart_elem|].
    intros C HC Hstart. apply containsStart_elem in Hstart.
    rewrite (Hbefore C HC) in Hstart. done.
  - destruct H as (before & after & Heq & Hbefore & Hafter).
    exists K, before, after. split; [done|]. split; [done|]. right.
    split; [|by split].
    intros C HC Hstart. apply containsStart_elem in Hstart.
    rewrite (Hnone C HC) in Hstart. done.
Qed.

(** ** FoodLocator *)

Lemma brighterCell_fold (metrics : list (list Metric)) (todo : list Cell) :
  forall (seen : list Cell) (best : option Enriched),
    ((best = None /\ seen = [])
     \/ (exists e, best = Some e /\ brightestFirst metrics seen e)) ->
    (forall c, c ∈ todo -> is_Some (metricAt metrics c)) ->
    exists r,
      foldOutcome (brighterCell metrics) todo best = Ret r
      /\ ((todo = [] /\ seen = [] /\ r = None)
          \/ (exists e, r = Some e
                        /\ brightestFirst metrics (seen ++ todo) e)).
Proof.
  induction todo as [|c todo IH]; intros seen best Hacc Hcover.
  - exists best. split; [done|]. rewrite app_nil_r.
    destruct Hacc as [(-> & ->)|(e & -> & He)]; [by left|].
    right. by exists e.
  - destruct (Hcover c) as [m Hm]; [by left|].
    assert (Hrest : forall d, d ∈ todo -> is_Some (metricAt metrics d))
      by (intros d Hd; apply Hcover; by right).
    cbn [foldOutcome]. unfold brighterCell at 2. rewrite Hm, cell_eta.
    replace (seen ++ c :: todo) with ((seen ++ [c]) ++ todo)
      by (by rewrite <-app_assoc).
    assert (Hnew : forall e,
              e = mkEnriched c (value m) ->
              (forall d m', d ∈ seen -> metricAt metrics d = Some m' ->
                            (value m' < value m)%Q) ->
              brightestFirst metrics (seen ++ [c]) e).
    { intros e -> Hlow. exists seen, [], m. simpl.
      split; [done|]. split; [done|]. split; [done|]. split; [done|].
      by intros d m' ?%elem_of_nil. }
    destruct Hacc as [(-> & ->)|(b & -> & Hb)].
    + cbn [mbind outcome_bind obind].
      destruct (IH ([] ++ [c]) (Some (mkEnriched c (value m))))
        as (r & Hr & [(_ & [=] & _)|He]); [|done|].
      { right. eexists. split; [done|]. apply Hnew; [done|].
        by intros d m' ?%elem_of_nil. }
      exists r. split; [done|]. by right.
    + destruct Hb as (before & after & mb & -> & Hmb & Hvb & Hbefore & Hafter).
      destruct (negb (Qle_bool (value m) (e_value b))) eqn:Hgt;
        cbn [mbind outcome_bind obind].
      * apply negb_true_iff in Hgt.
        assert (Hlt : (e_value b < value m)%Q).
        { apply Qnot_le_lt. intros Hle. apply Qle_bool_iff in Hle.
          congruence. }
        destruct (IH ((before ++ e_cell b :: after) ++ [c])
                    (Some (mkEnriched c (value m))))
          as (r & Hr & [(_ & Hnil & _)|He]); [|done| |].
        { right. eexists. split; [done|]. apply Hnew; [done|].
          intros d m' [Hd|[->|Hd]%elem_of_cons]%elem_of_app Hd'.
          - eapply Qlt_trans; [by eapply Hbefore|done].
          - rewrite Hmb in Hd'. injection Hd' as <-. by rewrite <-Hvb.
          - eapply Qle_lt_trans; [by eapply Hafter|done]. }
        { by destruct before. }
        exists r. split; [done|]. by right.
      * apply negb_false_iff, Qle_bool_iff in Hgt.
        destruct (IH ((before ++ e_cell b :: after) ++ [c]) (Some b))
          as (r & Hr & [(_ & Hnil & _)|He]); [|done| |].
        { right. exists b. split; [done|].
          exists before, (after ++ [c]), mb.
          split; [by rewrite <-!app_assoc|]. split; [done|].
          split; [done|]. split; [done|].
          intros d m' [Hd| ->%list_elem_of_singleton]%elem_of_app Hd';
            [by eapply Hafter|].
          rewrite Hm in Hd'. by injection Hd' as <-. }
        { by destruct before. }
        exists r. split; [done|]. by right.
Qed.

Lemma brighterCell_fold_missing (metrics : list (list Metric))
    (todo : list Cell) :
  forall best,
    (exists c, c ∈ todo /\ metricAt metrics c = None) ->
    foldOutcome (brighterCell metrics) todo best = Throw.
Proof.
  induction todo as [|c todo IH]; intros best (d & Hd & Hnone).
  - by apply elem_of_nil in Hd.
  - cbn [foldOutcome]. unfold brighterCell at 2.
    destruct (metricAt metrics c) as [m|] eqn:Hm; [|done].
    assert (Hrest : exists c', c' ∈ todo /\ metricAt metrics c' = None).
    { apply elem_of_cons in Hd as [->|Hd]; [congruence|by exists d]. }
    destruct best as [b|]; [destruct (negb _)|];
      cbn [mbind outcome_bind obind]; by apply IH.
Qed.

(** X4.  [pickFoodCell] returns [null] for a missing or empty cluster;
    otherwise it returns the first cell of the cluster with the largest
    brightness, with that brightness; and it throws when a cell of the
    cluster lies outside the metric grid. *)
Theorem pickFoodCell_brightest (cluster : Cluster)
    (metrics : list (list Metric)) :
  pickFoodCell None metrics = Ret None
  /\ ((forall c, c ∈ cells cluster -> is_Some (metricAt metrics c)) ->
      exists r,
        pickFoodCell (Some cluster) metrics = Ret r
        /\ (r = None <-> cells cluster = [])
        /\ forall e, r = Some e -> brightestFirst metrics (cells cluster) e)
  /\ ((exists c, c ∈ cells cluster /\ metricAt metrics c = None) ->
      pickFoodCell (Some cluster) metrics = Throw).
Proof.
  split; [done|]. split.
  - intros Hcover. unfold pickFoodCell.
    destruct (brighterCell_fold metrics (cells cluster) [] None)
      as (r & Hr & Hcase); [by left|done|].
    exists r. split; [done|].
    destruct Hcase as [(Hnil & _ & ->)|(e & -> & He)].
    + split; [done|]. by intros e [=].
    + split; [|by intros e' [= <-]].
      split; [done|]. intros Hnil.
      destruct He as (before & after & m & Heq & _).
      rewrite Hnil in Heq. by destruct before.
  - intros Hmissing. by apply brighterCell_fold_missing.
Qed.

(** ** ClusterBuilder: what [buildClusters] returns *)

Lemma visitCells_Ret_covered (metrics : list (list Metric))
    (todo : list Cell) :
  forall acc r,
    foldOutcome (visitCell metrics) todo acc = Ret r ->
    forall c, c ∈ todo -> is_Some (metricAt metrics c).
Proof.
  induction todo as [|d todo IH]; intros acc r Hfold c Hc.
  - by apply elem_of_nil in Hc.
  - cbn [foldOutcome] in Hfold.
    destruct (visitCell metrics acc d) as [acc'| |] eqn:Hd; try done.
    apply elem_of_cons in Hc as [->|Hc]; [|by eapply IH].
    unfold visitCell in Hd. destruct acc as [clusters visited].
    by destruct (metricAt metrics d).
Qed.

Lemma scene_fullGrid : fullGrid scene_metrics.
Proof. unfold fullGrid. split; [reflexivity|]. compute_done. Qed.

(** X5.  [buildClusters] returns normally exactly when every in-grid cell
    has a metric; the clusters then cover every bright in-grid cell
    exactly once and hold nothing else. *)
Theorem buildClusters_partition (metrics : list (list Metric)) :
  ((exists clusters, buildClusters metrics = Ret clusters)
   <-> gridCovered metrics)
  /\ (forall clusters,
        buildClusters metrics = Ret clusters ->
        NoDup (cellsOf clusters)
        /\ forall c, c ∈ cellsOf clusters
                     <-> isInside c = true /\ isBright metrics c).
Proof.
  assert (Hneed : forall clusters,
            buildClusters metrics = Ret clusters -> gridCovered metrics).
  { intros clusters Hret c Hin. unfold buildClusters in Hret.
    destruct (foldOutcome _ _ _) as [acc| |] eqn:Hfold; try done.
    eapply visitCells_Ret_covered; [exact Hfold|].
    by apply elem_of_gridCells. }
  split.
  - split; [intros [clusters Hret]; by eapply Hneed|].
    intros Hcov.
    destruct (buildClusters_ok metrics Hcov) as (clusters & Hret & _).
    by exists clusters.
  - intros clusters Hret.
    destruct (buildClusters_ok metrics (Hneed _ Hret))
      as (clusters' & Hret' & Hnd & Hmem & _).
    rewrite Hret in Hret'. injection Hret' as <-. by split.
Qed.

Lemma buildClusters_partition_witness :
  NoDup (cellsOf scene_clusters)
  /\ forall c, c ∈ cellsOf scene_clusters
               <-> isInside c = true /\ isBright scene_metrics c.
Proof.
  destruct (buildClusters_partition scene_metrics) as [_ Hparts].
  apply Hparts. vm_compute. reflexivity.
Defined.

(** X6.  Every cluster [buildClusters] returns is a 4-connected component
    of the bright cells: it is non-empty, its key set is the set of its
    cells' keys, every cell is reached from its first cell by steps
    between adjacent cells of the cluster, and a bright in-grid cell
    adjacent to one of its cells belongs to it, so no two clusters
    touch. *)
Theorem buildClusters_components (metrics : list (list Metric))
    (clusters : list Cluster) (K : Cluster) :
  buildClusters metrics = Ret clusters ->
  K ∈ clusters ->
  wellFormedCluster K
  /\ connectedCluster K
  /\ closedCluster metrics K
  /\ forall K' a b,
       K' ∈ clusters -> a ∈ cells K -> b ∈ cells K' ->
       manhattan a b = 1 -> b ∈ cells K.
Proof.
  intros Hret HK.
  assert (Hcov : gridCovered metrics).
  { intros c Hin. unfold buildClusters in Hret.
    destruct (foldOutcome _ _ _) as [acc| |] eqn:Hfold; try done.
    eapply visitCells_Ret_covered; [exact Hfold|].
    by apply elem_of_gridCells. }
  destruct (buildClusters_ok metrics Hcov)
    as (clusters' & Hret' & _ & Hmem & Hall).
  rewrite Hret in Hret'. injection Hret' as <-.
  destruct (Hall K HK) as (Hclosed & Hwf & Hconn).
  split; [done|]. split; [done|]. split; [done|].
  intros K' a b HK' Ha Hb Hab.
  assert (Hb' : b ∈ cellsOf clusters)
    by (apply elem_of_cellsOf; by exists K').
  apply Hmem in Hb' as [Hin Hbr]. by apply (Hclosed a b).
Qed.

Lemma buildClusters_components_witness :
  wellFormedCluster scene_snake
  /\ connectedCluster scene_snake
  /\ closedCluster scene_metrics scene_snake
  /\ forall K' a b,
       K' ∈ scene_clusters -> a ∈ cells scene_snake -> b ∈ cells K' ->
       manhattan a b = 1 -> b ∈ cells scene_snake.
Proof.
  apply (buildClusters_components scene_metrics scene_clusters scene_snake).
  - vm_compute. reflexivity.
  - unfold scene_clusters. set_solver.
Defined.

(** The SnakeIdentifier and the FoodLocator on the demo scene. *)

Lemma identifySnakeCluster_member_witness : scene_snake ∈ scene_clusters.
Proof.
  destruct (identifySnakeCluster_member scene_bot scene_clusters) as [_ Hin].
  apply Hin. vm_compute. reflexivity.
Defined.

Lemma identifySnakeCluster_overlap_witness :
  exists K,
    identifySnakeCluster scene_bot scene_clusters = Some K
    /\ firstMaximal (overlapCount (prevSnakeKeys scene_bot)) scene_clusters K.
Proof.
  apply (identifySnakeCluster_overlap scene_bot scene_clusters).
  - vm_compute. lia.
  - discriminate.
Defined.

Lemma identifySnakeCluster_first_tick_witness :
  exists K before after,
    identifySnakeCluster (newBot 0) scene_clusters = Some K
    /\ scene_clusters = before ++ K :: after
    /\ ((startCell ∈ cells K
         /\ forall C, C ∈ before -> startCell ∉ cells C)
        \/ ((forall C, C ∈ scene_clusters -> startCell ∉ cells C)
            /\ (forall C, C ∈ before ->
                          (length (cells C) < length (cells K))%nat)
            /\ (forall C, C ∈ after ->
                          (length (cells C) <= length (cells K))%nat))).
Proof.
  apply (identifySnakeCluster_first_tick (newBot 0) scene_clusters).
  - vm_compute. reflexivity.
  - discriminate.
Defined.

Lemma pickFoodCell_brightest_witness :
  exists r,
    pickFoodCell (Some scene_snake) scene_metrics = Ret r
    /\ (r = None <-> cells scene_snake = [])
    /\ forall e, r = Some e ->
                 brightestFirst scene_metrics (cells scene_snake) e.
Proof.
  destruct (pickFoodCell_brightest scene_snake scene_metrics)
    as (_ & Hpick & _).
  apply Hpick. apply Forall_forall. compute_done.
Defined.

(** ** SnakeReconstructor: more about refinement and the walk *)

Lemma filterFrom_length (threshold : Q) (n i : nat) (slice : list Enriched) :
  (Nat.min (n - i) (length slice)
   <= length (filterFrom threshold n i slice))%nat.
Proof.
  revert i. induction slice as [|e slice IH]; intros i; simpl; [lia|].
  specialize (IH (S i)).
  destruct (i <? n)%nat eqn:E.
  - rewrite orb_true_r. apply Nat.ltb_lt in E. simpl. lia.
  - apply Nat.ltb_ge in E. destruct (Qle_bool _ _ || false); simpl; lia.
Qed.

Lemma NoDup_same_length {A} (l k : list A) :
  NoDup l -> NoDup k -> (forall a, a ∈ l <-> a ∈ k) -> length l = length k.
Proof.
  intros Hl Hk Hmem. apply Permutation_length. by apply NoDup_Permutation.
Qed.

(** X7.  Refinement never invents cells and never drops too many: every
    refined cell is a cell of the input cluster, no refined cell occurs
    twice, the refined key set is the set of the refined cells' keys,
    and, the input cells being distinct, at least
    [min expectedLen clusterSize] of them are kept. *)
Theorem refineSnakeCluster_keeps_enough (metrics : list (list Metric))
    (cluster refined : Cluster) (expectedLen : nat) :
  cells cluster <> [] ->
  refineSnakeCluster metrics (Some cluster) expectedLen = Ret (Some refined) ->
  (forall c, c ∈ cells refined -> c ∈ cells cluster)
  /\ NoDup (cells refined)
  /\ cl_set refined = list_to_set (map coordKey (cells refined))
  /\ (NoDup (cells cluster) ->
      (Nat.min expectedLen (length (cells cluster))
       <= length (cells refined))%nat).
Proof.
  intros Hne. unfold refineSnakeCluster.
  destruct (enrich metrics (cells cluster)) as [enriched| |] eqn:Hen;
    simpl; try done.
  destruct (enrich_Ret _ _ _ Hen) as [Hcells _].
  destruct enriched as [|e0 enriched0] eqn:Henriched;
    [by rewrite <-Hcells in Hne|].
  rewrite <-Henriched in *. clear Henriched. intros [= <-].
  unfold refineCells. cbn [cells cl_set].
  set (slice := keptSlice expectedLen enriched).
  set (thr := dynamicThreshold expectedLen slice).
  set (filtered := filterFrom thr expectedLen 0 slice).
  destruct (keptSlice_length expectedLen enriched) as [Hslice _].
  fold slice in Hslice.
  pose proof (filterFrom_sublist thr expectedLen 0 slice) as Hsub.
  fold filtered in Hsub. pose proof (sublist_length _ _ Hsub) as Hflen.
  assert (Hsorted : map e_cell (brightnessSorted enriched) ≡ₚ cells cluster).
  { rewrite <-Hcells. apply Permutation_map, sortBy_Permutation. }
  assert (Hfsub : map e_cell filtered `sublist_of`
                  map e_cell (brightnessSorted enriched)).
  { apply sublist_map. etrans; [exact Hsub|]. apply sublist_take. }
  destruct (uniqueLoop_spec (maxKeep expectedLen enriched) filtered ∅ [])
    as (added & -> & Hadded & Hnd & Hmem).
  { intros c. split; [by intros ?%not_elem_of_empty|by intros ?%elem_of_nil]. }
  { apply NoDup_nil_2. }
  { simpl. lia. }
  simpl in *. split; [|split; [done|split; [done|]]].
  - intros c Hc. rewrite <-Hsorted.
    eapply elem_of_sublist; [|exact Hfsub].
    apply Hmem in Hc as [?%elem_of_nil|Hc]; done.
  - intros Hdistinct.
    assert (Hfnd : NoDup (map e_cell filtered)).
    { eapply sublist_NoDup; [|exact Hfsub]. by rewrite Hsorted. }
    rewrite (NoDup_same_length added (map e_cell filtered) Hnd Hfnd).
    2:{ intros c. rewrite Hmem. split; [|by right].
        by intros [?%elem_of_nil|?]. }
    rewrite length_map.
    pose proof (filterFrom_length thr expectedLen 0 slice) as Hkeep.
    fold filtered in Hkeep.
    assert (Hlen : length slice
                   = Nat.min (maxKeep expectedLen enriched)
                             (length (cells cluster))).
    { unfold slice, keptSlice. rewrite length_take, <-Hcells, length_map.
      unfold brightnessSorted.
      by rewrite (Permutation_length (sortBy_Permutation brighter enriched)). }
    unfold maxKeep in Hlen. lia.
Qed.

Lemma refineSnakeCluster_keeps_enough_witness :
  (forall c, c ∈ cells (refineCells 1 tie_enriched) -> c ∈ cells tie_cluster)
  /\ NoDup (cells (refineCells 1 tie_enriched))
  /\ cl_set (refineCells 1 tie_enriched)
     = list_to_set (map coordKey (cells (refineCells 1 tie_enriched)))
  /\ (NoDup (cells tie_cluster) ->
      (Nat.min 1 (length (cells tie_cluster))
       <= length (cells (refineCells 1 tie_enriched)))%nat).
Proof.
  apply (refineSnakeCluster_keeps_enough tie_metrics tie_cluster
           (refineCells 1 tie_enriched) 1).
  - discriminate.
  - vm_compute. reflexivity.
Defined.

(** The walk starts its body with the chosen head. *)
Lemma walk_prefix (set : gset string) fuel :
  forall visited body current prev walked,
    walk fuel set visited body current prev = Ret (Some walked) ->
    exists rest, walked = body ++ current :: rest.
Proof.
  induction fuel as [|fuel IH]; intros visited body current prev walked Hw;
    [done|].
  cbn [walk] in Hw. destruct (List.find _ _) as [next|].
  - destruct (_ <? _)%nat; [done|].
    apply IH in Hw as [rest ->]. exists (next :: rest).
    by rewrite <-app_assoc.
  - injection Hw as <-. by exists [].
Qed.

Lemma getNeighbors_member (cell c : Cell) (set : gset string) :
  c ∈ getNeighbors cell set -> isInside c = true /\ coordKey c ∈ set.
Proof.
  unfold getNeighbors. rewrite list_elem_of_In, List.filter_In.
  intros [_ Htest]. apply andb_true_iff in Htest as [Hin Hset].
  rewrite outsideTest_isInside, negb_involutive in Hin.
  by apply bool_decide_eq_true in Hset.
Qed.

Lemma NoDup_keys_size (set : gset string) (l : list Cell) :
  NoDup l -> (forall c, c ∈ l -> coordKey c ∈ set) ->
  (length l <= size set)%nat.
Proof.
  intros Hnd Hin.
  assert (Hkeys : NoDup (map coordKey l)).
  { clear Hin. induction Hnd as [|c l Hc _ IH]; simpl; constructor; [|done].
    intros (c' & Heq & Hc')%elem_of_map. apply coordKey_inj in Heq.
    by subst. }
  rewrite <-(length_map coordKey), <-(size_list_to_set (C := gset string)) by done.
  apply subseteq_size. intros k Hk.
  apply elem_of_list_to_set, elem_of_map in Hk as (c & <- & Hc). by apply Hin.
Qed.

(** The loop guard of the walk never fires: the cells after the head are
    distinct members of the cluster's key set. *)
Lemma walk_never_gives_up (set : gset string) fuel :
  forall visited body current prev,
    NoDup body ->
    (forall c, c ∈ body -> coordKey c ∈ visited) ->
    coordKey current ∉ visited ->
    (forall c, c ∈ drop 1 (body ++ [current]) ->
               isInside c = true /\ coordKey c ∈ set) ->
    walk fuel set visited body current prev <> Ret None.
Proof.
  induction fuel as [|fuel IH];
    intros visited body current prev Hnd Hvis Hcur Hmem; [done|].
  cbn [walk].
  assert (Hnd' : NoDup (body ++ [current])).
  { apply NoDup_app. split; [done|]. split; [|apply NoDup_singleton].
    intros c Hc ->%list_elem_of_singleton. by apply Hcur, Hvis. }
  destruct (List.find _ _) as [next|] eqn:Hfind; [|done].
  apply List.find_some in Hfind as [Hin Hpred].
  apply andb_true_iff in Hpred as [_ Hfresh].
  apply negb_true_iff, bool_decide_eq_false in Hfresh.
  apply list_elem_of_In, getNeighbors_member in Hin.
  destruct (size set + 2 <? length (body ++ [current]))%nat eqn:Hguard.
  { apply Nat.ltb_lt in Hguard.
    assert (length (drop 1 (body ++ [current])) <= size set)%nat.
    { apply NoDup_keys_size; [|by intros c Hc; apply Hmem].
      eapply sublist_NoDup; [exact Hnd'|apply sublist_drop]. }
    rewrite length_drop in *. lia. }
  apply IH; [done| | |].
  - intros c [Hc| ->%list_elem_of_singleton]%elem_of_app.
    + apply elem_of_union_r. by apply Hvis.
    + apply elem_of_union_l. by apply elem_of_singleton.
  - done.
  - intros c Hc.
    destruct body as [|b body]; simpl in *.
    + apply list_elem_of_singleton in Hc as ->. done.
    + rewrite drop_0 in *. apply elem_of_app in Hc as [Hc|Hc];
        [by apply Hmem|].
      apply list_elem_of_singleton in Hc as ->. done.
Qed.

Lemma walk_members (set : gset string) fuel :
  forall visited body current prev walked,
    (forall c, c ∈ drop 1 (body ++ [current]) ->
               isInside c = true /\ coordKey c ∈ set) ->
    walk fuel set visited body current prev = Ret (Some walked) ->
    forall c, c ∈ drop 1 walked -> isInside c = true /\ coordKey c ∈ set.
Proof.
  induction fuel as [|fuel IH];
    intros visited body current prev walked Hmem Hw; [done|].
  cbn [walk] in Hw.
  destruct (List.find _ _) as [next|] eqn:Hfind.
  2:{ by injection Hw as <-. }
  destruct (_ <? _)%nat; [done|].
  apply List.find_some in Hfind as [Hin _].
  apply list_elem_of_In, getNeighbors_member in Hin.
  eapply IH; [|exact Hw].
  intros c Hc.
  destruct body as [|b body]; simpl in *.
  - apply list_elem_of_singleton in Hc as ->. done.
  - rewrite drop_0 in *. apply elem_of_app in Hc as [Hc|Hc];
      [by apply Hmem|].
    apply list_elem_of_singleton in Hc as ->. done.
Qed.

Lemma walkCluster_Some (bot : Bot) (cluster : Cluster) :
  cells cluster <> [] ->
  exists first others rest,
    clusterCells cluster = first :: others
    /\ walkCluster bot cluster
       = Ret (Some (default first (clusterHead bot cluster) :: rest))
    /\ forall c, c ∈ rest -> isInside c = true /\ coordKey c ∈ cl_set cluster.
Proof.
  intros Hne. unfold walkCluster.
  destruct (clusterCells cluster) as [|first others] eqn:Hcells.
  { unfold clusterCells in Hcells. by destruct (cells cluster). }
  set (current := default first (clusterHead bot cluster)).
  set (set := cl_set cluster).
  destruct (walk_returns set (size set + 3) ∅ [] current None)
    as [[walked|] Hw]; [simpl; lia|simpl; lia| |].
  - destruct (walk_prefix _ _ _ _ _ _ _ Hw) as [rest ->]. simpl in *.
    exists first, others, rest. split; [done|]. split; [done|].
    intros c Hc.
    apply (walk_members set (size set + 3) ∅ [] current None
             (current :: rest));
      [by intros d ?%elem_of_nil|done|exact Hc].
  - exfalso. revert Hw. apply walk_never_gives_up.
    + apply NoDup_nil_2.
    + by intros c ?%elem_of_nil.
    + apply not_elem_of_empty.
    + by intros c ?%elem_of_nil.
Qed.

Lemma padBody_length_eq (bot : Bot) (n : nat) (body : list Cell) :
  (length body <= n)%nat ->
  length (padBody bot n body)
  = Nat.min n (length body + length (default [] (prevSnake bot))).
Proof.
  intros Hlen. unfold padBody.
  destruct (prevSnake bot) as [previous|]; simpl; [|lia].
  destruct (length body <? n)%nat eqn:E1; simpl.
  - apply Nat.ltb_lt in E1. destruct (0 <? length previous)%nat eqn:E2.
    + rewrite length_app, length_rev, length_drop. lia.
    + apply Nat.ltb_ge in E2. lia.
  - apply Nat.ltb_ge in E1. lia.
Qed.

(** X8.  For a non-empty cluster the walk always completes (its loop
    guard never fires); it yields the chosen head followed by distinct
    in-grid cells of the cluster, so at most [set.size + 1] cells; and
    [reconstructSnake] returns [null] exactly when the walked cells and
    the previous snake together are fewer than [expectedLen]. *)
Theorem reconstructSnake_fails_iff (bot : Bot) (cluster : Cluster)
    (expectedLen : nat) :
  cells cluster <> [] ->
  exists head rest,
    walkCluster bot cluster = Ret (Some (head :: rest))
    /\ NoDup (head :: rest)
    /\ (forall c, c ∈ rest -> isInside c = true /\ coordKey c ∈ cl_set cluster)
    /\ (length (head :: rest) <= size (cl_set cluster) + 1)%nat
    /\ (reconstructSnake bot (Some cluster) expectedLen = Ret None
        <-> (length (head :: rest) + length (default [] (prevSnake bot))
             < expectedLen)%nat).
Proof.
  intros Hne.
  destruct (walkCluster_Some bot cluster Hne)
    as (first & others & rest & _ & Hwalk & Hmem).
  set (head := default first (clusterHead bot cluster)) in *.
  destruct (walkCluster_valid bot cluster _ Hwalk) as [Hnd _].
  exists head, rest. split; [done|]. split; [done|]. split; [done|].
  assert (Hsize : (length rest <= size (cl_set cluster))%nat).
  { apply NoDup_keys_size; [by apply NoDup_cons in Hnd as [_ ?]|].
    intros c Hc. by apply Hmem. }
  split; [simpl; lia|].
  unfold reconstructSnake. rewrite Hwalk. cbn [mbind outcome_bind obind].
  pose proof (truncateBody_length expectedLen (head :: rest)) as Htrunc.
  pose proof (padBody_length_eq bot expectedLen _ Htrunc) as Hpad.
  rewrite truncateBody_take, length_take in Hpad.
  rewrite truncateBody_take in *.
  destruct (length (padBody bot expectedLen (take expectedLen (head :: rest)))
            <? expectedLen)%nat eqn:E.
  - apply Nat.ltb_lt in E. split; [intros _; lia|done].
  - apply Nat.ltb_ge in E. split; [done|]. intros Hshort. lia.
Qed.

Lemma reconstructSnake_fails_iff_witness :
  exists head rest,
    walkCluster faded_bot faded_cluster = Ret (Some (head :: rest))
    /\ NoDup (head :: rest)
    /\ (forall c, c ∈ rest ->
                  isInside c = true /\ coordKey c ∈ cl_set faded_cluster)
    /\ (length (head :: rest) <= size (cl_set faded_cluster) + 1)%nat
    /\ (reconstructSnake faded_bot (Some faded_cluster) 6 = Ret None
        <-> (length (head :: rest) + length (default [] (prevSnake faded_bot))
             < 6)%nat).
Proof.
  apply (reconstructSnake_fails_iff faded_bot faded_cluster 6).
  discriminate.
Defined.

Lemma firstWhere_find {A} (test : A -> bool) (l : list A) (a : A) :
  firstWhere test l a -> List.find test l = Some a.
Proof.
  intros (before & after & -> & Ha & Hbefore).
  induction before as [|b before IH]; simpl; [by rewrite Ha|].
  rewrite (Hbefore b) by (by left). apply IH.
  intros c Hc. apply Hbefore. by right.
Qed.

Lemma find_ext_eq {A} (f g : A -> bool) (l : list A) :
  (forall a, f a = g a) -> List.find f l = List.find g l.
Proof.
  intros Hfg. induction l as [|a l IH]; simpl; [done|].
  by rewrite Hfg, IH.
Qed.

Lemma nextToPrev_test (ph c : Cell) :
  (manhattan c ph =? 1) && negb (sameCell (Some c) (Some ph))
  = (manhattan c ph =? 1).
Proof.
  destruct (manhattan c ph =? 1) eqn:E; [|done]. simpl.
  apply Z.eqb_eq in E. apply negb_true_iff.
  destruct (sameCell (Some c) (Some ph)) eqn:Hs; [|done].
  apply sameCell_true in Hs as ->. unfold manhattan in E. lia.
Qed.

(** X9.  The head of a successful reconstruction (for [expectedLen >= 1])
    is the cell chosen by the head priorities: the predicted head when
    its key is in the cluster's set; otherwise, when a previous head is
    known, the first cluster cell at Manhattan distance 1 from it, if
    there is one.  The tail is the last body cell. *)
Theorem reconstructSnake_head_priority (bot : Bot) (cluster : Cluster)
    (expectedLen : nat) (snake : Snake) :
  (1 <= expectedLen)%nat ->
  reconstructSnake bot (Some cluster) expectedLen = Ret (Some snake) ->
  (sn_head snake = List.hd_error (sn_body snake)
   /\ sn_tail snake = last (sn_body snake) /\ sn_body snake <> [])
  /\ (forall eh,
        expectedHead bot = Some eh -> coordKey eh ∈ cl_set cluster ->
        sn_head snake = Some eh)
  /\ (forall ph c,
        (forall eh, expectedHead bot = Some eh ->
                    coordKey eh ∉ cl_set cluster) ->
        prevHead bot = Some ph ->
        firstWhere (fun c => manhattan c ph =? 1) (clusterCells cluster) c ->
        sn_head snake = Some c).
Proof.
  intros Hn Hrec.
  assert (Hne : cells cluster <> []).
  { intros Hnil. unfold reconstructSnake, walkCluster, clusterCells in Hrec.
    by rewrite Hnil in Hrec. }
  destruct (walkCluster_Some bot cluster Hne)
    as (first & others & rest & Hcells & Hwalk & _).
  set (head := default first (clusterHead bot cluster)) in *.
  unfold reconstructSnake in Hrec. rewrite Hwalk in Hrec.
  cbn [mbind outcome_bind obind] in Hrec. cbv zeta in Hrec.
  rewrite truncateBody_take in Hrec.
  destruct (padBody_prefix bot expectedLen (take expectedLen (head :: rest)))
    as (extra & Hpad & _).
  rewrite Hpad in Hrec.
  destruct expectedLen as [|n]; [lia|]. cbn [take app] in Hrec.
  destruct (_ <? S n)%nat; [done|]. injection Hrec as <-.
  cbn [sn_head sn_tail sn_body List.hd_error].
  split; [|split].
  - split; [done|]. split; [|done].
    destruct (last (head :: take n rest ++ extra)) eqn:Hlast; [done|].
    by apply last_None in Hlast.
  - intros eh Heh Hset. subst head.
    unfold clusterHead, pickHead. rewrite Heh.
    by destruct (decide (coordKey eh ∈ cl_set cluster)).
  - intros ph c Hnot Hph Hfirst. subst head.
    apply firstWhere_find in Hfirst.
    unfold clusterHead, pickHead. rewrite Hph.
    rewrite (find_ext_eq _ (fun c => manhattan c ph =? 1))
      by (intros a; apply nextToPrev_test).
    rewrite Hfirst.
    destruct (expectedHead bot) as [eh|]; [|done].
    destruct (decide (coordKey eh ∈ cl_set cluster)) as [Hin|]; [|done].
    by destruct (Hnot eh eq_refl).
Qed.

Lemma reconstructSnake_head_priority_witness :
  sn_head straight_snake = Some (mkCell 14 14).
Proof.
  destruct (reconstructSnake_head_priority straight_bot straight_cluster 3
              straight_snake) as (_ & Hexpected & _).
  - lia.
  - vm_compute. reflexivity.
  - apply (Hexpected (mkCell 14 14)); [reflexivity|].
    unfold straight_cluster. cbn [cl_set]. set_solver.
Defined.

(** ** PathPlanner: more about [findPath] *)

Lemma advance_length (mode : Mode) (tgt : Cell) (body : list Cell) (d : Dir) :
  body <> [] ->
  (length body <= length (advance mode tgt body d) <= length body + 1)%nat
  /\ (mode = ModeTail -> length (advance mode tgt body d) = length body).
Proof.
  intros Hne. destruct body as [|h rest]; [done|]. unfold advance.
  destruct (growsAt mode tgt (stepHead h d)) eqn:Hg.
  - split; [simpl; lia|]. intros ->. done.
  - rewrite dropLast_length. simpl. split; [lia|]. intros _. lia.
Qed.

Lemma runMoves_length (mode : Mode) (tgt : Cell) (path : list Dir) :
  forall body,
    safeMoves mode tgt body path ->
    body <> [] ->
    (length body <= length (runMoves mode tgt body path)
     <= length body + length path)%nat
    /\ (mode = ModeTail ->
        length (runMoves mode tgt body path) = length body).
Proof.
  induction path as [|d path IH]; intros body Hsafe Hne.
  - unfold runMoves. simpl. split; [lia|done].
  - destruct Hsafe as [Hlegal Hsafe].
    destruct (advance_length mode tgt body d Hne) as [Hlen Htail].
    assert (Hne' : advance mode tgt body d <> []).
    { intros Hnil. rewrite Hnil in Hlen. destruct body; simpl in *; [done|lia]. }
    destruct (IH _ Hsafe Hne') as [Hlen' Htail'].
    change (runMoves mode tgt body (d :: path))
      with (runMoves mode tgt (advance mode tgt body d) path).
    split; [simpl; lia|]. intros Hmode.
    rewrite Htail', Htail; done.
Qed.

(** X10.  Replaying a path returned by [findPath] puts the snake's head on
    the target; the snake never shrinks on the way, and in tail mode it
    keeps its length. *)
Theorem findPath_reaches_target (body : list Cell) (target : option Cell)
    (mode : Mode) (path : list Dir) :
  findPath body target mode = Ret (Some path) ->
  exists tgt rest,
    target = Some tgt
    /\ runMoves mode tgt body path = tgt :: rest
    /\ (length body <= length (tgt :: rest) <= length body + length path)%nat
    /\ (mode = ModeTail -> length (tgt :: rest) = length body).
Proof.
  intros Hfind.
  destruct (findPath_run_ok body target mode) as (run & Hrun & _ & _ & Hpath).
  unfold findPath in Hfind. rewrite Hrun in Hfind. injection Hfind as Hres.
  destruct (Hpath path Hres) as (tgt & -> & Hsafe & [rest Hend] & _).
  exists tgt, rest. split; [done|]. split; [done|].
  assert (Hne : body <> []).
  { intros ->. unfold findPath_run in Hrun. injection Hrun as <-. done. }
  rewrite <-Hend. by apply runMoves_length.
Qed.

Lemma findPath_reaches_target_witness :
  exists tgt rest,
    Some (mkCell 14 10) = Some tgt
    /\ runMoves ModeFood tgt [mkCell 14 14; mkCell 13 14; mkCell 12 14]
         [up; up; up; up] = tgt :: rest
    /\ (length [mkCell 14 14; mkCell 13 14; mkCell 12 14]
        <= length (tgt :: rest)
        <= length [mkCell 14 14; mkCell 13 14; mkCell 12 14]
           + length [up; up; up; up])%nat
    /\ (ModeFood = ModeTail ->
        length (tgt :: rest)
        = length [mkCell 14 14; mkCell 13 14; mkCell 12 14]).
Proof.
  apply (findPath_reaches_target [mkCell 14 14; mkCell 13 14; mkCell 12 14]
           (Some (mkCell 14 10)) ModeFood [up; up; up; up]).
  vm_compute. reflexivity.
Defined.

Section SearchMoves.
Variable mode : Mode.
Variable target : Cell.

Lemma expandDir_moves cursor state states visited dir :
  dir ∈ DIRS -> movesFromDIRS states ->
  movesFromDIRS (expandDir mode target cursor state (states, visited) dir).1.
Proof.
  intros Hdir Hok. unfold expandDir. cbv zeta.
  destruct (negb _); [done|]. destruct (hitsCell _ _); [done|].
  destruct (decide _); [done|]. destruct (_ <? _)%nat; [|done].
  cbn [fst]. intros st d [Hst| ->%list_elem_of_singleton]%elem_of_app Hd.
  - by eapply Hok.
  - simpl in Hd. by injection Hd as <-.
Qed.

Lemma expand_moves cursor state states visited :
  movesFromDIRS states ->
  movesFromDIRS (expand mode target cursor state states visited).1.
Proof.
  unfold expand.
  assert (Hgen : forall dirs acc,
            (forall d, d ∈ dirs -> d ∈ DIRS) -> movesFromDIRS acc.1 ->
            movesFromDIRS
              (fold_left (expandDir mode target cursor state) dirs acc).1).
  { induction dirs as [|d dirs IH]; intros [sts vis] Hdirs Hok; [done|].
    cbn [fold_left]. apply IH; [intros d' Hd'; apply Hdirs; by right|].
    apply expandDir_moves; [apply Hdirs; by left|done]. }
  intros Hok. by apply Hgen.
Qed.

Lemma reconstructPath_loop_moves states fuel :
  movesFromDIRS states ->
  forall cursor acc p,
    Forall (fun d => d ∈ DIRS) acc ->
    reconstructPath_loop fuel states cursor acc = Ret p ->
    Forall (fun d => d ∈ DIRS) p.
Proof.
  intros Hok. induction fuel as [|fuel IH]; intros cursor acc p Hacc Hloop.
  - simpl in Hloop. destruct (cursor =? -1); [|done]. by injection Hloop as <-.
  - cbn [reconstructPath_loop] in Hloop.
    destruct (cursor =? -1); [by injection Hloop as <-|].
    destruct (stateAt states cursor) as [st|] eqn:Hst; [|done].
    assert (Hin : st ∈ states).
    { unfold stateAt in Hst. destruct (cursor <? 0); [done|].
      by eapply list_elem_of_lookup_2. }
    eapply IH; [|exact Hloop].
    destruct (st_move st) as [m|] eqn:Hm; [|done].
    apply Forall_app. split; [done|]. constructor; [|done]. by eapply Hok.
Qed.

Lemma findPath_loop_moves fuel :
  forall states visited cursor run path,
    movesFromDIRS states ->
    findPath_loop fuel mode target states visited cursor = Ret run ->
    run_result run = Some path ->
    Forall (fun d => d ∈ DIRS) path.
Proof.
  induction fuel as [|fuel IH]; intros states visited cursor run path Hok Hrun Hres.
  - simpl in Hrun. destruct (_ && _); [done|].
    injection Hrun as <-. done.
  - cbn [findPath_loop] in Hrun. destruct (_ && _).
    2:{ injection Hrun as <-. done. }
    destruct (states !! cursor) as [state|]; [|done].
    destruct (sameCell _ _ && _).
    + destruct (reconstructPath states cursor) as [p| |] eqn:Hp; try done.
      cbn [mbind outcome_bind obind] in Hrun. injection Hrun as <-.
      injection Hres as <-.
      unfold reconstructPath in Hp.
      destruct (reconstructPath_loop _ _ _ _) as [q| |] eqn:Hq; try done.
      injection Hp as <-.
      apply Forall_rev.
      by eapply (reconstructPath_loop_moves states _ Hok _ []).
    + pose proof (expand_moves cursor state states visited Hok) as Hok'.
      destruct (expand mode target cursor state states visited)
        as [states' visited'].
      by eapply IH.
Qed.
End SearchMoves.

Lemma findPath_moves_DIRS (body : list Cell) (target : option Cell)
    (mode : Mode) (path : list Dir) :
  findPath body target mode = Ret (Some path) ->
  Forall (fun d => d ∈ DIRS) path.
Proof.
  intros Hfind. unfold findPath in Hfind.
  destruct (findPath_run body target mode) as [run| |] eqn:Hrun; try done.
  injection Hfind as Hres.
  unfold findPath_run in Hrun.
  destruct target as [tgt|]; [|by injection Hrun as <-].
  destruct body as [|h rest]; [by injection Hrun as <-|].
  eapply findPath_loop_moves; [|exact Hrun|exact Hres].
  intros st d ->%list_elem_of_singleton. done.
Qed.

(** X11.  Every move of a path returned by [findPath] is one of the four
    entries of [DIRS]. *)
Theorem findPath_moves_from_DIRS (body : list Cell) (target : option Cell)
    (mode : Mode) (path : list Dir) :
  findPath body target mode = Ret (Some path) ->
  Forall (fun d => d = up \/ d = right \/ d = down \/ d = left) path.
Proof.
  intros Hfind.
  eapply Forall_impl; [by eapply findPath_moves_DIRS|].
  intros d Hd. unfold DIRS in Hd. set_solver.
Qed.

Lemma findPath_moves_from_DIRS_witness :
  Forall (fun d => d = up \/ d = right \/ d = down \/ d = left)
         [up; left; down; left].
Proof.
  apply (findPath_moves_from_DIRS [mkCell 14 14; mkCell 13 14; mkCell 12 14]
           (Some (mkCell 12 14)) ModeTail).
  vm_compute. reflexivity.
Defined.

Lemma expandDir_distinct (mode : Mode) (target : Cell) cursor state states
    visited dir :
  distinctBodies states visited ->
  let r := expandDir mode target cursor state (states, visited) dir in
  distinctBodies r.1 r.2
  /\ (forall k, k ∈ visited -> k ∈ r.2)
  /\ exists more, r.1 = states ++ more.
Proof.
  intros [Hnd Hkeys]. unfold expandDir. cbv zeta.
  assert (Hsame : distinctBodies states visited
                  /\ (forall k, k ∈ visited -> k ∈ visited)
                  /\ exists more, states = states ++ more).
  { split; [by split|]. split; [done|]. exists []. by rewrite app_nil_r. }
  destruct (negb _); [done|]. destruct (hitsCell _ _); [done|].
  destruct (decide (bodyKey _ ∈ visited)) as [|Hfresh]; [done|].
  destruct (_ <? _)%nat; cbn [fst snd].
  - split; [|split; [set_solver|by eexists]]. split.
    + rewrite map_app. apply NoDup_app. split; [done|].
      split; [|apply NoDup_singleton].
      intros b Hb Hb'.
      apply list_elem_of_singleton in Hb'. subst b. apply Hfresh.
      apply elem_of_map in Hb as (st & Heq & Hst).
      pose proof (Hkeys st Hst) as Hk. rewrite Heq in Hk. exact Hk.
    + intros st [Hst| ->%list_elem_of_singleton]%elem_of_app.
      * apply elem_of_union_r. by apply Hkeys.
      * apply elem_of_union_l. by apply elem_of_singleton.
  - split; [|split; [set_solver|exists []; by rewrite app_nil_r]].
    split; [done|]. intros st Hst. apply elem_of_union_r. by apply Hkeys.
Qed.

(** X12.  Expanding a search state keeps the stored snake shapes pairwise
    distinct (a shape whose key is already in [visited] is not stored
    again), only appends to [states] and only adds to [visited]; the
    initial configuration of [findPath] satisfies the invariant. *)
Theorem expand_keeps_bodies_distinct (mode : Mode) (target : Cell)
    (cursor : nat) (state : SearchState) (states : list SearchState)
    (visited : gset string) :
  (distinctBodies states visited ->
   distinctBodies (expand mode target cursor state states visited).1
                  (expand mode target cursor state states visited).2
   /\ (forall k, k ∈ visited ->
                 k ∈ (expand mode target cursor state states visited).2)
   /\ exists more,
        (expand mode target cursor state states visited).1 = states ++ more)
  /\ (forall h body,
        distinctBodies [mkState h body (-1) None] {[bodyKey body]}).
Proof.
  split.
  - unfold expand. generalize DIRS. intros dirs. revert states visited.
    induction dirs as [|d dirs IH]; intros states visited Hinv.
    + simpl. split; [done|]. split; [done|]. exists []. by rewrite app_nil_r.
    + cbn [fold_left].
      destruct (expandDir_distinct mode target cursor state states visited d Hinv)
        as (Hinv1 & Hmono1 & [more1 Hmore1]).
      destruct (expandDir mode target cursor state (states, visited) d)
        as [states1 visited1]. cbn [fst snd] in *.
      destruct (IH states1 visited1 Hinv1) as (Hinv' & Hmono' & [more Hmore]).
      split; [done|]. split; [by intros k Hk; apply Hmono', Hmono1|].
      exists (more1 ++ more). by rewrite Hmore, Hmore1, app_assoc.
  - intros h body. split.
    + simpl. apply NoDup_singleton.
    + intros st ->%list_elem_of_singleton. simpl.
      by apply elem_of_singleton.
Qed.

Lemma expand_keeps_bodies_distinct_witness :
  distinctBodies
    (expand ModeFood (mkCell 14 10) 0
       (mkState (mkCell 14 14) [mkCell 14 14; mkCell 13 14] (-1) None)
       [mkState (mkCell 14 14) [mkCell 14 14; mkCell 13 14] (-1) None]
       {[bodyKey [mkCell 14 14; mkCell 13 14]]}).1
    (expand ModeFood (mkCell 14 10) 0
       (mkState (mkCell 14 14) [mkCell 14 14; mkCell 13 14] (-1) None)
       [mkState (mkCell 14 14) [mkCell 14 14; mkCell 13 14] (-1) None]
       {[bodyKey [mkCell 14 14; mkCell 13 14]]}).2.
Proof.
  destruct (expand_keeps_bodies_distinct ModeFood (mkCell 14 10) 0
              (mkState (mkCell 14 14) [mkCell 14 14; mkCell 13 14] (-1) None)
              [mkState (mkCell 14 14) [mkCell 14 14; mkCell 13 14] (-1) None]
              {[bodyKey [mkCell 14 14; mkCell 13 14]]}) as [Hstep Hinit].
  apply Hstep. apply Hinit.
Defined.

(** ** Keys are canonical *)

Lemma pretty_N_go_lacksChar (ch : ascii) (n : N) (s : string) :
  (forall d, pretty_N_char d <> ch) ->
  lacksChar ch s -> lacksChar ch (pretty_N_go n s).
Proof.
  intros Hch. revert s. induction (N.lt_wf_0 n) as [n _ IH]; intros s Hs.
  destruct (decide (n = 0)%N) as [->|Hn]; [done|].
  rewrite pretty_N_go_step by lia.
  apply IH; [apply N.div_lt; lia|]. by split.
Qed.

Lemma pretty_Z_lacksChar (ch : ascii) (z : Z) :
  (forall d, pretty_N_char d <> ch) -> ch <> "-"%char ->
  lacksChar ch (pretty z).
Proof.
  intros Hch Hdash.
  assert (HN : forall n : N, lacksChar ch (pretty n)).
  { intros n. unfold pretty, pretty_N. case_decide.
    - split; [|done]. apply (Hch 0%N).
    - by apply pretty_N_go_lacksChar. }
  destruct z as [|p|p]; unfold pretty, pretty_Z.
  - split; [|done]. apply (Hch 0%N).
  - apply HN.
  - split; [done|]. apply HN.
Qed.

Lemma colon_not_digit (d : N) : pretty_N_char d <> ":"%char.
Proof. unfold pretty_N_char. by repeat case_match. Qed.

Lemma bar_not_digit (d : N) : pretty_N_char d <> "|"%char.
Proof. unfold pretty_N_char. by repeat case_match. Qed.

Lemma lacksChar_app (ch : ascii) (s t : string) :
  lacksChar ch (s +:+ t) <-> lacksChar ch s /\ lacksChar ch t.
Proof. induction s as [|c s IH]; simpl; [tauto|]. rewrite IH. tauto. Qed.

Lemma separator_split (ch : ascii) (s1 s2 t1 t2 : string) :
  lacksChar ch s1 -> lacksChar ch s2 ->
  s1 +:+ String ch t1 = s2 +:+ String ch t2 -> s1 = s2 /\ t1 = t2.
Proof.
  revert s2. induction s1 as [|c s1 IH]; intros [|c' s2] H1 H2 Heq;
    cbn in *.
  - injection Heq as Heq. by subst.
  - injection Heq as Hc _. destruct H2 as [H2 _]. by subst.
  - injection Heq as Hc _. destruct H1 as [H1 _]. by subst.
  - injection Heq as Hc Heq. destruct H1 as [_ H1], H2 as [_ H2].
    destruct (IH s2 H1 H2 Heq) as [-> ->]. by subst.
Qed.

Lemma segKey_inj (a b : Cell) : segKey a = segKey b -> a = b.
Proof.
  unfold segKey. intros Heq.
  apply (separator_split ":"%char) in Heq as [Hx Hy];
    try (apply pretty_Z_lacksChar; [apply colon_not_digit|done]).
  apply (inj pretty) in Hx, Hy. destruct a, b; simpl in *. by subst.
Qed.

Lemma segKey_lacks_bar (a : Cell) : lacksChar "|"%char (segKey a).
Proof.
  unfold segKey. rewrite !lacksChar_app.
  split; [apply pretty_Z_lacksChar; [apply bar_not_digit|done]|].
  split; [by split|apply pretty_Z_lacksChar; [apply bar_not_digit|done]].
Qed.

Lemma segKey_nonempty (a : Cell) : segKey a <> "".
Proof.
  unfold segKey. by destruct (pretty (x a)).
Qed.

Lemma join_cons (sep p : string) (l : list string) :
  l <> [] -> join sep (p :: l) = p +:+ sep +:+ join sep l.
Proof. by destruct l. Qed.

Lemma bodyKey_inj (l1 l2 : list Cell) : bodyKey l1 = bodyKey l2 -> l1 = l2.
Proof.
  unfold bodyKey. revert l2.
  induction l1 as [|a l1 IH]; intros [|b l2] Heq.
  - done.
  - exfalso. destruct l2 as [|b' l2]; simpl in Heq.
    + by apply (segKey_nonempty b).
    + pose proof (segKey_nonempty b). by destruct (segKey b).
  - exfalso. destruct l1 as [|a' l1]; simpl in Heq.
    + by apply (segKey_nonempty a).
    + pose proof (segKey_nonempty a). by destruct (segKey a).
  - destruct l1 as [|a' l1], l2 as [|b' l2].
    + simpl in Heq. by apply segKey_inj in Heq as ->.
    + exfalso. change (segKey a = segKey b +:+ String "|" (join "|" (map segKey (b' :: l2)))) in Heq.
      pose proof (segKey_lacks_bar a) as Ha. rewrite Heq in Ha.
      apply lacksChar_app in Ha as [_ [Ha _]]. done.
    + exfalso. change (segKey a +:+ String "|" (join "|" (map segKey (a' :: l1))) = segKey b) in Heq.
      pose proof (segKey_lacks_bar b) as Hb. rewrite <-Heq in Hb.
      apply lacksChar_app in Hb as [_ [Hb _]]. done.
    + change (segKey a +:+ String "|" (join "|" (map segKey (a' :: l1)))
              = segKey b +:+ String "|" (join "|" (map segKey (b' :: l2))))
        in Heq.
      apply separator_split in Heq as [Hab Hrest];
        try apply segKey_lacks_bar.
      apply segKey_inj in Hab as ->. by rewrite (IH _ Hrest).
Qed.

Lemma dirKey_inj (d1 d2 : Dir) :
  dirKey d1 = dirKey d2 -> dx d1 = dx d2 /\ dy d1 = dy d2.
Proof.
  unfold dirKey. intros Heq.
  apply comma_split in Heq as [Hx Hy]; try apply pretty_Z_noComma.
  by apply (inj pretty) in Hx, Hy.
Qed.

(** X13.  The string keys are canonical for integer coordinates: two cells
    with the same [coordKey] are the same cell, two bodies with the same
    [bodyKey] are the same sequence of cells, and two directions with
    the same key have the same deltas.  So the visited sets never
    confuse two different cells, shapes or directions. *)
Theorem keys_are_canonical :
  (forall a b : Cell, coordKey a = coordKey b <-> a = b)
  /\ (forall l1 l2 : list Cell, bodyKey l1 = bodyKey l2 <-> l1 = l2)
  /\ (forall d1 d2 : Dir,
        dirKey d1 = dirKey d2 <-> dx d1 = dx d2 /\ dy d1 = dy d2).
Proof.
  split; [|split].
  - intros a b. split; [apply coordKey_inj|by intros ->].
  - intros l1 l2. split; [apply bodyKey_inj|by intros ->].
  - intros d1 d2. split; [apply dirKey_inj|].
    unfold dirKey. by intros [-> ->].
Qed.

Lemma keys_are_canonical_witness :
  [mkCell 1 2; mkCell 3 4] = [mkCell 1 2; mkCell 3 4].
Proof.
  destruct keys_are_canonical as (_ & Hbody & _).
  apply Hbody. reflexivity.
Defined.

(** ** PathPlanner: the safety fallback and the planning policy *)

Lemma survives_blocked (bot : Bot) (state : Observation) (d : Dir) :
  survives bot state d = false <-> blocked bot state d.
Proof.
  unfold survives, blocked.
  change (existsb _ (dropLast (ob_body state)))
    with (hitsCell (stepHead (ob_head state) d) (dropLast (ob_body state))).
  change (mkCell (x (ob_head state) + dx d) (y (ob_head state) + dy d))
    with (stepHead (ob_head state) d).
  destruct (isReversal bot d); [split; [by left|done]|].
  destruct (isInside _); cbn [negb]; [|split; [by (right; left)|done]].
  rewrite negb_false_iff. split.
  - intros Hhit. right. right.
    destruct (decide (stepHead (ob_head state) d ∈ dropLast (ob_body state)))
      as [|Hout]; [done|].
    apply hitsCell_false in Hout. congruence.
  - intros [?|[?|Hin]]; [done..|].
    destruct (hitsCell _ _) eqn:Hhit; [done|].
    by apply hitsCell_false in Hhit.
Qed.

Lemma survives_not_blocked (bot : Bot) (state : Observation) (d : Dir) :
  survives bot state d = true <-> ~ blocked bot state d.
Proof.
  rewrite <-survives_blocked. by destruct (survives bot state d).
Qed.

Lemma survives_same_deltas (bot : Bot) (state : Observation) (d d' : Dir) :
  dx d = dx d' -> dy d = dy d' -> survives bot state d = survives bot state d'.
Proof.
  intros Hx Hy. unfold survives, isReversal. by rewrite Hx, Hy.
Qed.

(** The order in which directions are tried: every entry comes from
    [preferred] or from [DIRS], every direction of [DIRS] is represented
    by an entry with the same deltas, and a first preference stays
    first. *)
Lemma pushUnseen_eq (seen : gset string) (order : list Dir) (d : Dir) :
  pushUnseen (seen, order) d
  = if decide (dirKey d ∈ seen) then (seen, order)
    else ({[dirKey d]} ∪ seen, order ++ [d]).
Proof. reflexivity. Qed.

Lemma pushUnseen_fold (dirs : list Dir) :
  forall (seen : gset string) (order : list Dir),
    (forall k, k ∈ seen <-> exists d, d ∈ order /\ dirKey d = k) ->
    exists added,
      (foldl pushUnseen (seen, order) dirs).2 = order ++ added
      /\ (forall k, k ∈ (foldl pushUnseen (seen, order) dirs).1
                    <-> exists d, d ∈ order ++ added /\ dirKey d = k)
      /\ (forall a, a ∈ added -> a ∈ dirs)
      /\ (forall d, d ∈ dirs ->
                    exists d', d' ∈ order ++ added /\ dirKey d' = dirKey d).
Proof.
  induction dirs as [|d dirs IH]; intros seen order Hseen.
  - exists []. rewrite app_nil_r. simpl. split; [done|]. split; [done|].
    split; by intros a ?%elem_of_nil.
  - cbn [foldl]. rewrite pushUnseen_eq.
    destruct (decide (dirKey d ∈ seen)) as [Hin|Hout].
    + destruct (IH seen order Hseen) as (added & Heq & Hseen' & Hadd & Hrep).
      exists added. split; [done|]. split; [done|].
      split; [intros a Ha; right; by apply Hadd|].
      intros d' [->|Hd']%elem_of_cons; [|by apply Hrep].
      apply Hseen in Hin as (d0 & Hd0 & Hk). exists d0.
      split; [|done]. apply elem_of_app. by left.
    + destruct (IH ({[dirKey d]} ∪ seen) (order ++ [d]))
        as (added & Heq & Hseen' & Hadd & Hrep).
      { intros k. rewrite elem_of_union, elem_of_singleton, Hseen. split.
        - intros [->|(d0 & Hd0 & <-)].
          + exists d. split; [|done]. apply elem_of_app. right.
            by apply list_elem_of_singleton.
          + exists d0. split; [|done]. apply elem_of_app. by left.
        - intros (d0 & [Hd0| ->%list_elem_of_singleton]%elem_of_app & <-);
            [right; by exists d0|by left]. }
      exists (d :: added).
      replace (order ++ d :: added) with ((order ++ [d]) ++ added)
        by (by rewrite <-app_assoc).
      split; [done|]. split; [done|].
      split; [intros a [->|Ha]%elem_of_cons; [by left|right; by apply Hadd]|].
      intros d' [->|Hd']%elem_of_cons; [|by apply Hrep].
      exists d. split; [|done]. rewrite !elem_of_app, list_elem_of_singleton.
      tauto.
Qed.

Lemma pushPreferred_fold (preferred : list (option Dir)) :
  forall (seen : gset string) (order : list Dir),
    (forall k, k ∈ seen <-> exists d, d ∈ order /\ dirKey d = k) ->
    exists added,
      (foldl pushPreferred (seen, order) preferred).2 = order ++ added
      /\ (forall k, k ∈ (foldl pushPreferred (seen, order) preferred).1
                    <-> exists d, d ∈ order ++ added /\ dirKey d = k)
      /\ (forall a, a ∈ added -> Some a ∈ preferred).
Proof.
  induction preferred as [|[d|] preferred IH]; intros seen order Hseen.
  - exists []. rewrite app_nil_r. simpl. split; [done|]. split; [done|].
    by intros a ?%elem_of_nil.
  - cbn [foldl pushPreferred]. rewrite pushUnseen_eq.
    destruct (decide (dirKey d ∈ seen)) as [Hin|Hout].
    + destruct (IH seen order Hseen) as (added & Heq & Hseen' & Hadd).
      exists added. split; [done|]. split; [done|].
      intros a Ha. right. by apply Hadd.
    + destruct (IH ({[dirKey d]} ∪ seen) (order ++ [d]))
        as (added & Heq & Hseen' & Hadd).
      { intros k. rewrite elem_of_union, elem_of_singleton, Hseen. split.
        - intros [->|(d0 & Hd0 & <-)].
          + exists d. split; [|done]. apply elem_of_app. right.
            by apply list_elem_of_singleton.
          + exists d0. split; [|done]. apply elem_of_app. by left.
        - intros (d0 & [Hd0| ->%list_elem_of_singleton]%elem_of_app & <-);
            [right; by exists d0|by left]. }
      exists (d :: added).
      replace (order ++ d :: added) with ((order ++ [d]) ++ added)
        by (by rewrite <-app_assoc).
      split; [done|]. split; [done|].
      intros a [->|Ha]%elem_of_cons; [by left|right; by apply Hadd].
  - cbn [foldl pushPreferred].
    destruct (IH seen order Hseen) as (added & Heq & Hseen' & Hadd).
    exists added. split; [done|]. split; [done|].
    intros a Ha. right. by apply Hadd.
Qed.

Lemma directionOrder_spec (preferred : list (option Dir)) :
  (forall d, d ∈ directionOrder preferred -> Some d ∈ preferred \/ d ∈ DIRS)
  /\ (forall d, d ∈ DIRS ->
                exists d', d' ∈ directionOrder preferred
                           /\ dx d' = dx d /\ dy d' = dy d)
  /\ (forall p rest, preferred = Some p :: rest ->
                     exists others, directionOrder preferred = p :: others).
Proof.
  unfold directionOrder.
  destruct (pushPreferred_fold preferred ∅ [])
    as (added1 & Heq1 & Hseen1 & Hadd1).
  { intros k. split; [by intros ?%not_elem_of_empty|].
    by intros (d & ?%elem_of_nil & _). }
  destruct (foldl pushPreferred (∅, []) preferred) as [seen1 order1] eqn:Hfold.
  cbn [fst snd] in *. simpl in Heq1, Hseen1. subst order1.
  destruct (pushUnseen_fold DIRS seen1 added1 Hseen1)
    as (added2 & -> & _ & Hadd2 & Hrep).
  split; [|split].
  - intros d [Hd|Hd]%elem_of_app; [left; by apply Hadd1|right; by apply Hadd2].
  - intros d Hd. destruct (Hrep d Hd) as (d' & Hd' & Hk).
    exists d'. split; [done|]. by apply dirKey_inj.
  - intros p rest ->. cbn [foldl pushPreferred] in Hfold.
    rewrite pushUnseen_eq in Hfold.
    destruct (decide (dirKey p ∈ ∅)) as [Hin|_];
      [by apply not_elem_of_empty in Hin|].
    destruct (pushPreferred_fold rest ({[dirKey p]} ∪ ∅) ([] ++ [p]))
      as (added & Heq & _).
    { intros k. rewrite elem_of_union, elem_of_singleton. simpl.
      setoid_rewrite list_elem_of_singleton. split.
      - intros [->|?%not_elem_of_empty]; [by exists p|done].
      - intros (d & -> & <-). by left. }
    rewrite Hfold in Heq. simpl in Heq. subst added1.
    by eexists.
Qed.

(** X14.  A direction returned by [chooseSafeDirection] is safe for one
    step: it is not a reversal, the new head lies inside the grid and is
    not a body cell other than the vacating tail; and it is an entry of
    [preferred] or of [DIRS]. *)
Theorem chooseSafeDirection_sound (bot : Bot) (state : Observation)
    (preferred : list (option Dir)) (dir : Dir) :
  chooseSafeDirection bot state preferred = Some dir ->
  isReversal bot dir = false
  /\ isInside (stepHead (ob_head state) dir) = true
  /\ (stepHead (ob_head state) dir ∉ dropLast (ob_body state))
  /\ (Some dir ∈ preferred \/ dir ∈ DIRS).
Proof.
  intros Hchoose. unfold chooseSafeDirection in Hchoose.
  apply List.find_some in Hchoose as [Hin Hsurv].
  apply survives_not_blocked in Hsurv. unfold blocked in Hsurv.
  split; [destruct (isReversal bot dir); tauto|].
  split; [destruct (isInside _); tauto|]. split; [tauto|].
  apply (proj1 (directionOrder_spec preferred)). by apply list_elem_of_In.
Qed.

Lemma chooseSafeDirection_sound_witness :
  isReversal demo_bot up = false
  /\ isInside (stepHead (ob_head demo_state) up) = true
  /\ (stepHead (ob_head demo_state) up ∉ dropLast (ob_body demo_state))
  /\ (Some up ∈ [] \/ up ∈ DIRS).
Proof.
  apply (chooseSafeDirection_sound demo_bot demo_state [] up).
  vm_compute. reflexivity.
Defined.

Lemma chooseSafeDirection_None (bot : Bot) (state : Observation)
    (preferred : list (option Dir)) :
  chooseSafeDirection bot state preferred = None ->
  forall d, d ∈ DIRS -> blocked bot state d.
Proof.
  destruct (directionOrder_spec preferred) as (_ & Hrep & _).
  intros Hnone d Hd. unfold chooseSafeDirection in Hnone.
  destruct (Hrep d Hd) as (d' & Hd' & Hx & Hy).
  apply survives_blocked.
  rewrite <-(survives_same_deltas bot state d' d Hx Hy).
  eapply List.find_none; [exact Hnone|]. by apply list_elem_of_In.
Qed.

Lemma chooseSafeDirection_Some (bot : Bot) (state : Observation)
    (preferred : list (option Dir)) (dir : Dir) :
  chooseSafeDirection bot state preferred = Some dir ->
  ~ blocked bot state dir /\ (Some dir ∈ preferred \/ dir ∈ DIRS).
Proof.
  intros Hchoose. unfold chooseSafeDirection in Hchoose.
  apply List.find_some in Hchoose as [Hin Hsurv].
  split; [by apply survives_not_blocked|].
  apply (proj1 (directionOrder_spec preferred)). by apply list_elem_of_In.
Qed.

(** X15.  [chooseSafeDirection] returns [null] only when each of the four
    directions is blocked: a reversal, off the grid, or into a body cell
    other than the vacating tail. *)
Theorem chooseSafeDirection_none_blocked (bot : Bot) (state : Observation)
    (preferred : list (option Dir)) :
  chooseSafeDirection bot state preferred = None ->
  forall d, d ∈ DIRS -> blocked bot state d.
Proof. apply chooseSafeDirection_None. Qed.

Lemma chooseSafeDirection_none_blocked_witness :
  blocked cornered_bot cornered_state down.
Proof.
  apply (chooseSafeDirection_none_blocked cornered_bot cornered_state []).
  - vm_compute. reflexivity.
  - unfold DIRS. set_solver.
Defined.

(** X16.  A first entry of [preferred] that is not blocked is the direction
    [chooseSafeDirection] returns. *)
Theorem chooseSafeDirection_prefers (bot : Bot) (state : Observation)
    (p : Dir) (rest : list (option Dir)) :
  ~ blocked bot state p ->
  chooseSafeDirection bot state (Some p :: rest) = Some p.
Proof.
  intros Hfree. unfold chooseSafeDirection.
  destruct (directionOrder_spec (Some p :: rest)) as (_ & _ & Hfirst).
  destruct (Hfirst p rest eq_refl) as [others ->]. simpl.
  apply survives_not_blocked in Hfree. by rewrite Hfree.
Qed.

Lemma chooseSafeDirection_prefers_witness :
  chooseSafeDirection demo_bot demo_state [Some down; Some up] = Some down.
Proof.
  apply (chooseSafeDirection_prefers demo_bot demo_state down [Some up]).
  unfold blocked. intros [H|[H|H]]; [done|done|].
  vm_compute in H. set_solver.
Defined.

Lemma findPath_first_legal (body : list Cell) (target : option Cell)
    (mode : Mode) (d : Dir) (rest : list Dir) :
  findPath body target mode = Ret (Some (d :: rest)) ->
  exists h tl, body = h :: tl
    /\ isInside (stepHead h d) = true
    /\ stepHead h d ∉ dropLast body.
Proof.
  intros Hfind.
  destruct (findPath_run_ok body target mode) as (run & Hrun & _ & _ & Hres).
  unfold findPath in Hfind. rewrite Hrun in Hfind.
  cbn [fmap outcome_fmap] in Hfind. injection Hfind as Hpath.
  destruct (Hres _ Hpath) as (tgt & _ & [Hlegal _] & _).
  by eapply legalMove_first.
Qed.

Lemma nonEmptyPath_Some (r : option (list Dir)) (p : list Dir) :
  nonEmptyPath r = Some p -> r = Some p /\ p <> [].
Proof. destruct r as [[|d rest]|]; try done. by intros [= <-]. Qed.

(** The three sources of a plan, in the order [planPath] tries them. *)
Lemma planPath_cases (bot : Bot) (state : Observation) (p : list Dir) :
  planPath bot (Some state) = Ret p ->
  (p <> [] /\ exists f, ob_food state = Some f
      /\ findPath (ob_body state) (Some f) ModeFood = Ret (Some p))
  \/ (p <> []
      /\ findPath (ob_body state) (last (ob_body state)) ModeTail
         = Ret (Some p))
  \/ (exists safe, p = [safe]
      /\ chooseSafeDirection bot state [] = Some safe)
  \/ (p = [] /\ chooseSafeDirection bot state [] = None).
Proof.
  unfold planPath. intros Hplan.
  destruct (ob_food state) as [f|] eqn:Hfood.
  - destruct (findPath (ob_body state) (Some f) ModeFood)
      as [r| |] eqn:Hfind; try done.
    cbn [mbind outcome_bind obind] in Hplan.
    destruct (nonEmptyPath r) as [q|] eqn:Hq.
    { injection Hplan as <-. apply nonEmptyPath_Some in Hq as [-> Hne].
      left. split; [done|]. by exists f. }
    destruct (findPath (ob_body state) (last (ob_body state)) ModeTail)
      as [r2| |] eqn:Hfind2; try done.
    cbn [mbind outcome_bind obind] in Hplan.
    destruct (nonEmptyPath r2) as [q|] eqn:Hq2.
    { injection Hplan as <-. apply nonEmptyPath_Some in Hq2 as [-> Hne].
      right. left. by split. }
    destruct (chooseSafeDirection bot state []) as [safe|];
      injection Hplan as <-; right; right; [left; by exists safe|by right].
  - cbn [mbind outcome_bind obind nonEmptyPath] in Hplan.
    destruct (findPath (ob_body state) (last (ob_body state)) ModeTail)
      as [r2| |] eqn:Hfind2; try done.
    cbn [mbind outcome_bind obind] in Hplan.
    destruct (nonEmptyPath r2) as [q|] eqn:Hq2.
    { injection Hplan as <-. apply nonEmptyPath_Some in Hq2 as [-> Hne].
      right. left. by split. }
    destruct (chooseSafeDirection bot state []) as [safe|];
      injection Hplan as <-; right; right; [left; by exists safe|by right].
Qed.

Lemma planPath_first (bot : Bot) (state : Observation) (d : Dir)
    (rest : list Dir) (body_tl : list Cell) :
  ob_body state = ob_head state :: body_tl ->
  planPath bot (Some state) = Ret (d :: rest) ->
  d ∈ DIRS
  /\ isInside (stepHead (ob_head state) d) = true
  /\ stepHead (ob_head state) d ∉ dropLast (ob_body state).
Proof.
  intros Hbody Hplan.
  destruct (planPath_cases _ _ _ Hplan)
    as [(_ & f & _ & Hfind)|[(_ & Hfind)|[(safe & Heq & Hsafe)|[? _]]]];
    [| | |done].
  - split.
    + apply findPath_moves_DIRS in Hfind. by inversion Hfind.
    + apply findPath_first_legal in Hfind as (h & tl0 & Hb & Hin & Hfree).
      rewrite Hbody in Hb. injection Hb as <- _. done.
  - split.
    + apply findPath_moves_DIRS in Hfind. by inversion Hfind.
    + apply findPath_first_legal in Hfind as (h & tl0 & Hb & Hin & Hfree).
      rewrite Hbody in Hb. injection Hb as <- _. done.
  - injection Heq as -> _.
    apply chooseSafeDirection_Some in Hsafe as [Hfree Hfrom].
    split; [destruct Hfrom as [?%elem_of_nil|]; done|].
    unfold blocked in Hfree.
    split; [destruct (isInside _); tauto|tauto].
Qed.

(** X17.  The first move of a plan is safe for the observed snake, whichever
    of the three sources (path to the food, path to the tail, safety
    fallback) produced it: it is one of [DIRS], the new head lies inside
    the grid and on no body cell other than the vacating tail. *)
Theorem planPath_first_move_safe (bot : Bot) (state : Observation) (d : Dir)
    (rest : list Dir) (body_tl : list Cell) :
  ob_body state = ob_head state :: body_tl ->
  planPath bot (Some state) = Ret (d :: rest) ->
  d ∈ DIRS
  /\ isInside (stepHead (ob_head state) d) = true
  /\ stepHead (ob_head state) d ∉ dropLast (ob_body state).
Proof. intros. by eapply planPath_first. Qed.

Lemma planPath_first_move_safe_witness :
  left ∈ DIRS
  /\ isInside (stepHead (ob_head demo_state) left) = true
  /\ stepHead (ob_head demo_state) left ∉ dropLast (ob_body demo_state).
Proof.
  apply (planPath_first_move_safe demo_bot demo_state left [] [mkCell 4 5]).
  - reflexivity.
  - vm_compute. reflexivity.
Defined.

(** X18.  For an observed state, [planPath] returns an empty plan only when
    every direction is blocked for the snake: a reversal, off the grid,
    or into a body cell other than the vacating tail. *)
Theorem planPath_empty_blocked (bot : Bot) (state : Observation) :
  planPath bot (Some state) = Ret [] ->
  forall d, d ∈ DIRS -> blocked bot state d.
Proof.
  intros Hplan.
  destruct (planPath_cases _ _ _ Hplan)
    as [(? & _)|[(? & _)|[(safe & ? & _)|[_ Hnone]]]]; try done.
  by apply (chooseSafeDirection_None bot state []).
Qed.

Lemma planPath_empty_blocked_witness :
  blocked cornered_bot cornered_state right.
Proof.
  apply (planPath_empty_blocked cornered_bot cornered_state).
  - vm_compute. reflexivity.
  - unfold DIRS. set_solver.
Defined.

(** ** ControlLoop: one tick of [update] *)

Lemma List_last_cons {A} (rest : list A) (a h : A) :
  List.last (a :: rest) h = List.last rest a.
Proof.
  revert a h. induction rest as [|b rest IH]; intros a h; [done|].
  change (List.last (a :: b :: rest) h) with (List.last (b :: rest) h).
  by rewrite !IH.
Qed.

Lemma last_cons_default {A} (rest : list A) (h : A) :
  last (h :: rest) = Some (List.last rest h).
Proof.
  revert h. induction rest as [|a rest IH]; intros h; [done|].
  change (last (h :: a :: rest)) with (last (a :: rest)).
  by rewrite IH, List_last_cons.
Qed.

(** The state synthesized from the previous snake. *)
Lemma extrapolate_spec (bot : Bot) (grewThisTick : bool) (p0 : Cell)
    (prest : list Cell) :
  prevSnake bot = Some (p0 :: prest) ->
  exists bot' state,
    extrapolate bot grewThisTick = (bot', Some state)
    /\ ob_body state
       = match expectedHead bot with
         | Some eh =>
             mkCell (x eh) (y eh)
             :: (if grewThisTick then p0 :: prest else dropLast (p0 :: prest))
         | None => p0 :: prest
         end
    /\ (exists tl, ob_body state = ob_head state :: tl)
    /\ last (ob_body state) = Some (ob_tail state)
    /\ ob_food state = prevFood bot
    /\ prevSnake bot' = Some (ob_body state)
    /\ plan bot' = plan bot.
Proof.
  intros Hprev. unfold extrapolate. rewrite Hprev.
  destruct (expectedHead bot) as [eh|] eqn:Heh.
  - destruct grewThisTick; cbn [negb andb].
    + cbn [prevSnake set_expectedHead set_commandPending set_prevHead
             set_prevSnakeKeys set_prevSnake].
      eexists _, _. split; [reflexivity|]. cbn [ob_body ob_head ob_tail ob_food].
      split; [done|]. split; [by eexists|].
      split; [by rewrite last_cons_default|]. done.
    + cbn [length Nat.ltb Nat.leb]. rewrite dropLast_cons_cons.
      cbn [prevSnake set_expectedHead set_commandPending set_prevHead
             set_prevSnakeKeys set_prevSnake].
      eexists _, _. split; [reflexivity|]. cbn [ob_body ob_head ob_tail ob_food].
      split; [done|]. split; [by eexists|].
      split; [by rewrite last_cons_default|]. done.
  - rewrite Hprev.
    eexists _, _. split; [reflexivity|]. cbn [ob_body ob_head ob_tail ob_food].
    split; [done|]. split; [by eexists|].
    split; [by rewrite last_cons_default|]. done.
Qed.

(** X19.  When perception fails and a previous snake is known, [update]
    continues with a synthesized state: the predicted head in front of
    the previous body, without its last cell unless the score grew, or
    the previous body itself when no head is predicted.  The state's head
    is the first and its tail the last cell of its body, and the body is
    stored as the new previous snake. *)
Theorem extrapolate_state (bot : Bot) (grewThisTick : bool) (p0 : Cell)
    (prest : list Cell) :
  prevSnake bot = Some (p0 :: prest) ->
  exists bot' state,
    extrapolate bot grewThisTick = (bot', Some state)
    /\ ob_body state
       = match expectedHead bot with
         | Some eh =>
             mkCell (x eh) (y eh)
             :: (if grewThisTick then p0 :: prest else dropLast (p0 :: prest))
         | None => p0 :: prest
         end
    /\ (exists tl, ob_body state = ob_head state :: tl)
    /\ last (ob_body state) = Some (ob_tail state)
    /\ ob_food state = prevFood bot
    /\ prevSnake bot' = Some (ob_body state)
    /\ plan bot' = plan bot.
Proof. apply extrapolate_spec. Qed.

Lemma extrapolate_state_witness :
  exists bot' state,
    extrapolate faded_bot false = (bot', Some state)
    /\ ob_body state
       = match expectedHead faded_bot with
         | Some eh =>
             mkCell (x eh) (y eh)
             :: (if false then mkCell 14 14 :: [mkCell 13 14; mkCell 12 14]
                 else dropLast (mkCell 14 14 :: [mkCell 13 14; mkCell 12 14]))
         | None => mkCell 14 14 :: [mkCell 13 14; mkCell 12 14]
         end
    /\ (exists tl, ob_body state = ob_head state :: tl)
    /\ last (ob_body state) = Some (ob_tail state)
    /\ ob_food state = prevFood faded_bot
    /\ prevSnake bot' = Some (ob_body state)
    /\ plan bot' = plan faded_bot.
Proof.
  apply (extrapolate_state faded_bot false (mkCell 14 14)
           [mkCell 13 14; mkCell 12 14]).
  reflexivity.
Defined.

Lemma elem_of_DIRS (d : Dir) :
  d ∈ DIRS <-> d = up \/ d = right \/ d = down \/ d = left.
Proof. unfold DIRS. set_solver. Qed.

Lemma perpendicularDirs_DIRS (bot : Bot) (d : Dir) :
  d ∈ perpendicularDirs bot -> d ∈ DIRS.
Proof.
  unfold perpendicularDirs. destruct (currentDir bot) as [cd|]; [|done].
  destruct (negb (x cd =? 0)); [|destruct (negb (y cd =? 0)); [|done]];
    intros [Hd _]%list_elem_of_In%filter_In; by apply list_elem_of_In.
Qed.

(** X20.  For an axis-aligned [currentDir], every direction returned by
    [perpendicularDirs] is one of [DIRS], is orthogonal to [currentDir],
    and is never treated as a reversal. *)
Theorem perpendicularDirs_orthogonal (bot : Bot) (cd : Cell) (d : Dir) :
  currentDir bot = Some cd ->
  x cd = 0 \/ y cd = 0 ->
  d ∈ perpendicularDirs bot ->
  d ∈ DIRS
  /\ dx d * x cd + dy d * y cd = 0
  /\ isReversal bot d = false.
Proof.
  intros Hcd Haxis Hd. pose proof (perpendicularDirs_DIRS bot d Hd) as Hdirs.
  split; [done|].
  assert (Hdot : dx d * x cd + dy d * y cd = 0).
  { unfold perpendicularDirs in Hd. rewrite Hcd in Hd.
    destruct (x cd =? 0) eqn:Hx; cbn [negb] in Hd.
    - apply Z.eqb_eq in Hx.
      destruct (y cd =? 0) eqn:Hy; cbn [negb] in Hd.
      + apply Z.eqb_eq in Hy. rewrite Hx, Hy. lia.
      + apply list_elem_of_In, filter_In in Hd as [_ Hd0].
        apply Z.eqb_eq in Hd0. rewrite Hx, Hd0. lia.
    - apply Z.eqb_neq in Hx. destruct Haxis as [?|Hy]; [done|].
      apply list_elem_of_In, filter_In in Hd as [_ Hd0].
      apply Z.eqb_eq in Hd0. rewrite Hy, Hd0. lia. }
  split; [done|].
  unfold isReversal. rewrite Hcd.
  destruct ((dx d =? - x cd) && (dy d =? - y cd)) eqn:Hrev;
    [|by rewrite andb_false_r].
  apply andb_true_iff in Hrev as [Hx%Z.eqb_eq Hy%Z.eqb_eq].
  exfalso. apply elem_of_DIRS in Hdirs.
  destruct Hdirs as [-> | [-> | [-> | ->]]]; simpl in *; lia.
Qed.

Lemma perpendicularDirs_orthogonal_witness :
  up ∈ DIRS
  /\ dx up * x (mkCell 1 0) + dy up * y (mkCell 1 0) = 0
  /\ isReversal demo_bot up = false.
Proof.
  apply (perpendicularDirs_orthogonal demo_bot (mkCell 1 0) up).
  - reflexivity.
  - right. reflexivity.
  - vm_compute. set_solver.
Defined.

Lemma isReversal_emergencyTurn (bot : Bot) (state : Observation) (d : Dir) :
  isReversal (emergencyTurn bot state) d = isReversal bot d.
Proof.
  unfold emergencyTurn. destruct (plan bot); [|done].
  destruct (shouldAvoidWall bot state); [|done].
  by destruct (chooseSafeDirection _ _ _).
Qed.

(** X21.  After [update] has stored the body length and recomputed
    [currentDir] from an observed body of two or more cells, a direction
    counts as a reversal exactly when it moves the head onto the neck;
    for a body of at most one cell no direction is a reversal. *)
Theorem settle_reversal_is_neck (bot : Bot) (state : Observation) (d : Dir) :
  (forall h n rest, ob_body state = h :: n :: rest ->
     (isReversal (settle bot state) d = true <-> stepHead h d = n))
  /\ ((length (ob_body state) <= 1)%nat ->
      isReversal (settle bot state) d = false).
Proof.
  unfold settle. rewrite isReversal_emergencyTurn. split.
  - intros h n rest Hbody. unfold updateCurrentDir, isReversal.
    rewrite Hbody. cbn [length lastBodyLength currentDir set_currentDir
                          set_lastBodyLength Nat.ltb Nat.leb andb x y].
    rewrite andb_true_iff, !Z.eqb_eq. unfold stepHead.
    destruct n as [nx ny]. cbn [x y]. split.
    + intros [Hx Hy]. f_equal; lia.
    + intros [= Hx Hy]. lia.
  - intros Hshort. unfold isReversal.
    rewrite lastBodyLength_updateCurrentDir.
    cbn [lastBodyLength set_lastBodyLength].
    destruct (1 <? length (ob_body state))%nat eqn:Hlt; [|done].
    apply Nat.ltb_lt in Hlt. lia.
Qed.

Lemma settle_reversal_is_neck_witness :
  isReversal (settle demo_bot demo_state) left = true.
Proof.
  destruct (settle_reversal_is_neck demo_bot demo_state left) as [Hneck _].
  apply (Hneck (mkCell 5 5) (mkCell 4 5) []); reflexivity.
Defined.

Lemma plan_ensureGameRunning (bot : Bot) (fr : Frame) :
  plan (ensureGameRunning bot fr) = plan bot
  \/ plan (ensureGameRunning bot fr) = [].
Proof.
  unfold ensureGameRunning.
  destruct (fr_startOverlay fr), (fr_gameOverOverlay fr); auto.
Qed.

Lemma plan_extrapolate (bot : Bot) (grew : bool) :
  plan (extrapolate bot grew).1 = plan bot.
Proof.
  destruct (prevSnake bot) as [[|p0 prest]|] eqn:Hprev;
    [by unfold extrapolate; rewrite Hprev| |by unfold extrapolate; rewrite Hprev].
  destruct (extrapolate_spec bot grew p0 prest Hprev)
    as (bot' & state & -> & _ & _ & _ & _ & _ & Hplan).
  done.
Qed.

Lemma plan_observe (bot : Bot) (fr : Frame) :
  plan (observe bot fr).1 = plan bot.
Proof.
  unfold observe.
  set (bot1 := if lastScore bot <? fr_score fr
               then set_prevFood None bot else bot).
  assert (H1 : plan bot1 = plan bot) by (subst bot1; by destruct (_ <? _)).
  set (bot2 := analyzeBoard_effects (set_lastScore (fr_score fr) bot1)
                                    (fr_analysis fr)).
  assert (H2 : plan bot2 = plan bot).
  { subst bot2. unfold analyzeBoard_effects.
    destruct (fr_analysis fr) as [obs|]; [|done].
    destruct (ob_body obs), (ob_food obs); done. }
  destruct (fr_analysis fr); [done|]. by rewrite plan_extrapolate.
Qed.

Lemma plan_updateCurrentDir (bot : Bot) (state : Observation) :
  plan (updateCurrentDir bot state) = plan bot.
Proof.
  unfold updateCurrentDir.
  destruct (ob_body state) as [|h [|n l]]; try done.
  by destruct (expectedHead bot).
Qed.

(** The emergency turn either leaves the plan alone or, from an empty
    plan, installs a single safe turn. *)
Lemma settle_plan (bot : Bot) (state : Observation) :
  plan (settle bot state) = plan bot
  \/ (plan bot = []
      /\ exists turn, plan (settle bot state) = [turn]
           /\ firstMoveSafe state [turn]).
Proof.
  unfold settle, emergencyTurn.
  set (b := updateCurrentDir _ state).
  assert (Hb : plan b = plan bot) by (subst b; by rewrite plan_updateCurrentDir).
  destruct (plan b) as [|d l] eqn:Hplan; [|left; congruence].
  destruct (shouldAvoidWall b state); [|left; congruence].
  destruct (chooseSafeDirection b state _) as [turn|] eqn:Hturn;
    [|left; congruence].
  right. split; [done|]. exists turn. split; [done|].
  apply chooseSafeDirection_Some in Hturn as [Hfree Hfrom].
  unfold firstMoveSafe, blocked in *. split.
  - destruct Hfrom as [Hpref|]; [|done].
    apply list_elem_of_fmap in Hpref as (d & [= ->] & Hd).
    by eapply perpendicularDirs_DIRS.
  - split; [destruct (isInside _); tauto|tauto].
Qed.

Lemma reconcileHead_plan (bot : Bot) (state : Observation) :
  plan (reconcileHead bot state) = plan bot
  \/ plan (reconcileHead bot state) = [].
Proof.
  unfold reconcileHead.
  destruct (match expectedHead bot with Some _ => _ | None => _ end);
    [by left|].
  destruct (match prevHead bot with Some _ => _ | None => _ end);
    [by right|by left].
Qed.

(** After the reconciliation the stored head is the observed head. *)
Lemma reconcileHead_prevHead (bot : Bot) (state : Observation) :
  prevHead (reconcileHead bot state) = Some (ob_head state).
Proof.
  unfold reconcileHead.
  destruct (match expectedHead bot with Some _ => _ | None => _ end); [done|].
  destruct (prevHead bot) as [ph|] eqn:Hph; [|done].
  destruct (sameCell _ _) eqn:Hs; cbn [negb]; [|done].
  apply sameCell_true in Hs. by rewrite Hph, Hs.
Qed.

Lemma dispatchNext_spec (bot : Bot) (state : Observation) :
  let r := dispatchNext bot state in
  prevHead r.1 = prevHead bot
  /\ lastBodyLength r.1 = lastBodyLength bot
  /\ currentDir r.1 = currentDir bot
  /\ ((r.2 = [] /\ (plan r.1 = plan bot \/ exists d, plan bot = d :: plan r.1))
      \/ exists d, plan bot = d :: plan r.1 /\ r.2 = [key d]
           /\ expectedHead r.1 = Some (stepHead (ob_head state) d)
           /\ commandPending r.1 = true
           /\ isReversal bot d = false).
Proof.
  unfold dispatchNext. destruct (commandPending bot).
  { cbn [fst snd]. split; [done|]. split; [done|]. split; [done|].
    left. split; [done|]. by left. }
  destruct (plan bot) as [|d rest] eqn:Hplan.
  { cbn [fst snd]. split; [done|]. split; [done|]. split; [done|].
    left. split; [done|]. by left. }
  unfold sendDirection.
  rewrite (isReversal_frame (set_plan rest bot) bot d) by done.
  destruct (isReversal bot d) eqn:Hrev; cbn [fst snd].
  - split; [done|]. split; [done|]. split; [done|].
    left. split; [done|]. right. by exists d.
  - split; [done|]. split; [done|]. split; [done|].
    right. by exists d.
Qed.

(** The rest of the tick: [p] is the plan the dispatch step starts from. *)
Lemma finishTick_spec (bot : Bot) (state : Observation) (bot' : Bot)
    (events : list string) :
  finishTick bot state = Ret (bot', events) ->
  exists p,
    ((plan bot = []
      /\ planPath (set_prevSnakeKeys
                     (list_to_set (map coordKey (ob_body state))) bot)
                  (Some state) = Ret p)
     \/ (plan bot <> [] /\ p = plan bot))
    /\ prevHead bot' = prevHead bot
    /\ lastBodyLength bot' = lastBodyLength bot
    /\ currentDir bot' = currentDir bot
    /\ ((events = [] /\ (plan bot' = p \/ exists d, p = d :: plan bot'))
        \/ exists d, p = d :: plan bot' /\ events = [key d]
             /\ expectedHead bot' = Some (stepHead (ob_head state) d)
             /\ commandPending bot' = true
             /\ isReversal bot d = false).
Proof.
  unfold finishTick. set (bot1 := set_prevSnakeKeys _ bot).
  change (plan bot1) with (plan bot).
  destruct (plan bot) as [|d0 rest0] eqn:Hplan.
  - destruct (planPath_returns bot1 (Some state)) as [p Hp]. rewrite Hp.
    cbn [mbind outcome_bind obind plan set_plan].
    intros Hfin. exists p. split; [by left|].
    destruct p as [|d rest].
    + injection Hfin as <- <-.
      cbn. split; [done|]. split; [done|]. split; [done|].
      left. split; [done|]. by left.
    + injection Hfin as Hd.
      pose proof (dispatchNext_spec (set_plan (d :: rest) bot1) state) as Hs.
      rewrite Hd in Hs. cbn [fst snd] in Hs.
      destruct Hs as (Hph & Hlen & Hcd & Hev).
      split; [done|]. split; [done|]. split; [done|].
      destruct Hev as [?|(d' & Hpl & Hk & Heh & Hpend & Hrev)]; [by left|].
      right. exists d'. split; [done|]. split; [done|]. split; [done|].
      split; [done|]. by rewrite <-Hrev.
  - cbn [mbind outcome_bind obind].
    assert (Hplan1 : plan bot1 = d0 :: rest0) by done.
    rewrite Hplan1. intros [= Hd].
    exists (d0 :: rest0). split; [by right|].
    pose proof (dispatchNext_spec bot1 state) as Hs.
    rewrite Hd in Hs. cbn [fst snd] in Hs. rewrite Hplan1 in Hs.
    destruct Hs as (Hph & Hlen & Hcd & Hev).
    split; [done|]. split; [done|]. split; [done|].
    destruct Hev as [?|(d' & Hpl & Hk & Heh & Hpend & Hrev)]; [by left|].
    right. exists d'. split; [done|]. split; [done|]. split; [done|].
    split; [done|]. by rewrite <-Hrev.
Qed.

Lemma update_cases (bot : Bot) (fr : Frame) (bot' : Bot)
    (events : list string) :
  update bot fr = Ret (bot', events) ->
  (events = []
   /\ (bot' = ensureGameRunning bot fr
       \/ bot' = (observe (ensureGameRunning bot fr) fr).1))
  \/ exists b1 state,
       fr_playing fr = true
       /\ observe (ensureGameRunning bot fr) fr = (b1, Some state)
       /\ finishTick (reconcileHead (settle b1 state) state) state
          = Ret (bot', events).
Proof.
  unfold update.
  destruct (fr_playing fr); cbn [negb];
    [|intros [= <- <-]; left; split; [done|by left]].
  destruct (observe _ fr) as [b1 [state|]];
    [|intros [= <- <-]; left; split; [done|by right]].
  intros Hfin. right. by exists b1, state.
Qed.

(** X22.  One call of [update] dispatches at most one keyboard event, and
    none while the page is not in the playing state.  When it dispatches
    the key of a direction [d], it has obtained a state, stored its head
    as [prevHead], predicted the head one step in direction [d], set the
    pending flag, and [d] is not a reversal. *)
Theorem update_dispatch (bot : Bot) (fr : Frame) (bot' : Bot)
    (events : list string) :
  update bot fr = Ret (bot', events) ->
  events = []
  \/ exists b1 state d,
       fr_playing fr = true
       /\ observe (ensureGameRunning bot fr) fr = (b1, Some state)
       /\ events = [key d]
       /\ prevHead bot' = Some (ob_head state)
       /\ expectedHead bot' = Some (stepHead (ob_head state) d)
       /\ commandPending bot' = true
       /\ isReversal bot' d = false.
Proof.
  intros Hupd.
  destruct (update_cases _ _ _ _ Hupd)
    as [[? _]|(b1 & state & Hplay & Hobs & Hfin)]; [by left|].
  apply finishTick_spec in Hfin
    as (p & _ & Hph & Hlen & Hcd & [[? _]|(d & _ & Hk & Heh & Hpend & Hrev)]);
    [by left|].
  right. exists b1, state, d.
  split; [done|]. split; [done|]. split; [done|].
  split; [by rewrite Hph, reconcileHead_prevHead|].
  split; [done|]. split; [done|].
  by rewrite (isReversal_frame bot' (reconcileHead (settle b1 state) state)).
Qed.

Lemma update_dispatch_witness :
  ["ArrowUp"] = []
  \/ exists b1 state d,
       fr_playing hungry_frame = true
       /\ observe (ensureGameRunning demo_bot hungry_frame) hungry_frame
          = (b1, Some state)
       /\ ["ArrowUp"] = [key d]
       /\ prevHead hungry_result = Some (ob_head state)
       /\ expectedHead hungry_result = Some (stepHead (ob_head state) d)
       /\ commandPending hungry_result = true
       /\ isReversal hungry_result d = false.
Proof.
  apply (update_dispatch demo_bot hungry_frame hungry_result ["ArrowUp"]).
  vm_compute. reflexivity.
Defined.

Lemma planPath_DIRS (bot : Bot) (state : Observation) (p : list Dir) :
  planPath bot (Some state) = Ret p -> Forall (fun d => d ∈ DIRS) p.
Proof.
  intros Hplan.
  destruct (planPath_cases _ _ _ Hplan)
    as [(_ & f & _ & Hfind)|[(_ & Hfind)|[(safe & -> & Hsafe)|[-> _]]]];
    [by eapply findPath_moves_DIRS..| |done].
  apply chooseSafeDirection_Some in Hsafe as [_ [?%elem_of_nil|Hd]]; [done|].
  by constructor.
Qed.

(** The plan the dispatch step starts from, when the tick began without
    one: its first move is safe for the observed snake. *)
Lemma tick_plan_safe (b1 : Bot) (state : Observation) (body_tl : list Cell)
    (bot' : Bot) (events : list string) :
  plan b1 = [] ->
  ob_body state = ob_head state :: body_tl ->
  finishTick (reconcileHead (settle b1 state) state) state
  = Ret (bot', events) ->
  exists p, firstMoveSafe state p
    /\ (events = [] \/ exists d, p = d :: plan bot' /\ events = [key d]).
Proof.
  intros Hempty Hbody Hfin.
  assert (Hsettled : firstMoveSafe state
                       (plan (reconcileHead (settle b1 state) state))).
  { destruct (reconcileHead_plan (settle b1 state) state) as [->| ->]; [|done].
    destruct (settle_plan b1 state) as [->|(_ & turn & -> & Hsafe)];
      [by rewrite Hempty|done]. }
  apply finishTick_spec in Hfin as (p & Hp & _ & _ & _ & Hev).
  exists p. split.
  - destruct Hp as [[_ Hplan]|[_ ->]]; [|done].
    destruct p as [|d rest]; [done|].
    by eapply planPath_first.
  - destruct Hev as [[? _]|(d & ? & ? & _)]; [by left|right; by exists d].
Qed.

(** X23.  When a tick starts with an empty plan, whatever it dispatches is
    safe for the snake it observed: the key is that of a direction of
    [DIRS] whose step from the observed head stays inside the grid and
    reaches no body cell other than the vacating tail.  This covers the
    emergency turn, a freshly computed path and the fallback move. *)
Theorem update_fresh_move_safe (bot : Bot) (fr : Frame) (b1 : Bot)
    (state : Observation) (body_tl : list Cell) (bot' : Bot)
    (events : list string) :
  plan bot = [] ->
  observe (ensureGameRunning bot fr) fr = (b1, Some state) ->
  ob_body state = ob_head state :: body_tl ->
  update bot fr = Ret (bot', events) ->
  forall k, k ∈ events ->
    exists d, k = key d
      /\ d ∈ DIRS
      /\ isInside (stepHead (ob_head state) d) = true
      /\ stepHead (ob_head state) d ∉ dropLast (ob_body state).
Proof.
  intros Hempty Hobs Hbody Hupd k Hk.
  destruct (update_cases _ _ _ _ Hupd)
    as [[-> _]|(b1' & state' & _ & Hobs' & Hfin)];
    [by apply elem_of_nil in Hk|].
  rewrite Hobs in Hobs'. injection Hobs' as <- <-.
  assert (Hb1 : plan b1 = []).
  { replace b1 with (observe (ensureGameRunning bot fr) fr).1
      by (by rewrite Hobs).
    rewrite plan_observe.
    destruct (plan_ensureGameRunning bot fr) as [->| ->]; done. }
  destruct (tick_plan_safe b1 state body_tl bot' events Hb1 Hbody Hfin)
    as (p & Hsafe & [->|(d & -> & ->)]); [by apply elem_of_nil in Hk|].
  apply list_elem_of_singleton in Hk. subst k. by exists d.
Qed.

Lemma update_fresh_move_safe_witness :
  exists d, "ArrowUp" = key d
    /\ d ∈ DIRS
    /\ isInside (stepHead (ob_head hungry_state) d) = true
    /\ stepHead (ob_head hungry_state) d ∉ dropLast (ob_body hungry_state).
Proof.
  apply (update_fresh_move_safe demo_bot hungry_frame
           (set_prevFood (Some (mkCell 5 3)) demo_bot) hungry_state
           [mkCell 4 5] hungry_result ["ArrowUp"]).
  - reflexivity.
  - vm_compute. reflexivity.
  - reflexivity.
  - vm_compute. reflexivity.
  - set_solver.
Defined.

Lemma key_arrowKeys (d : Dir) : d ∈ DIRS -> key d ∈ arrowKeys.
Proof.
  intros Hd. apply elem_of_DIRS in Hd.
  destruct Hd as [-> | [-> | [-> | ->]]]; unfold arrowKeys; simpl; set_solver.
Qed.

(** X24.  The plan only ever holds directions of [DIRS], and the keys
    [update] dispatches are arrow keys: if every queued move is one of
    [DIRS] before a tick, so is every queued move after it, and every
    dispatched key is one of the four arrow-key names. *)
Theorem update_plan_from_DIRS (bot : Bot) (fr : Frame) (bot' : Bot)
    (events : list string) :
  Forall (fun d => d ∈ DIRS) (plan bot) ->
  update bot fr = Ret (bot', events) ->
  Forall (fun d => d ∈ DIRS) (plan bot')
  /\ Forall (fun k => k ∈ arrowKeys) events.
Proof.
  intros Hplan Hupd.
  assert (H0 : Forall (fun d => d ∈ DIRS) (plan (ensureGameRunning bot fr))).
  { destruct (plan_ensureGameRunning bot fr) as [->| ->]; done. }
  destruct (update_cases _ _ _ _ Hupd)
    as [[-> [->| ->]]|(b1 & state & _ & Hobs & Hfin)].
  - done.
  - by rewrite plan_observe.
  - assert (H1 : Forall (fun d => d ∈ DIRS) (plan b1)).
    { replace b1 with (observe (ensureGameRunning bot fr) fr).1
        by (by rewrite Hobs).
      by rewrite plan_observe. }
    assert (H2 : Forall (fun d => d ∈ DIRS)
                   (plan (reconcileHead (settle b1 state) state))).
    { destruct (reconcileHead_plan (settle b1 state) state) as [->| ->]; [|done].
      destruct (settle_plan b1 state) as [->|(_ & turn & -> & Hd & _)];
        [done|by constructor]. }
    apply finishTick_spec in Hfin as (p & Hp & _ & _ & _ & Hev).
    assert (H3 : Forall (fun d => d ∈ DIRS) p).
    { destruct Hp as [[_ Hpath]|[_ ->]]; [by eapply planPath_DIRS|done]. }
    destruct Hev as [[-> [->|[d ->]]]|(d & -> & -> & _)].
    + done.
    + split; [by inversion H3|done].
    + inversion H3; subst. split; [done|].
      constructor; [by apply key_arrowKeys|done].
Qed.

Lemma update_plan_from_DIRS_witness :
  Forall (fun d => d ∈ DIRS) (plan hungry_result)
  /\ Forall (fun k => k ∈ arrowKeys) ["ArrowUp"].
Proof.
  apply (update_plan_from_DIRS demo_bot hungry_frame hungry_result ["ArrowUp"]).
  - constructor.
  - vm_compute. reflexivity.
Defined.

(** X25.  Every tick completes: neither search runs out of its node budget
    or raises an error inside [update].  It also keeps the idle invariant
    of the constructor's state: whenever no command is pending afterwards,
    no head is predicted. *)
Theorem update_completes_idle (bot : Bot) (fr : Frame) :
  exists bot' events,
    update bot fr = Ret (bot', events)
    /\ (idleInvariant bot -> idleInvariant bot').
Proof.
  destruct (update_returns bot fr) as [[bot' events] Hupd].
  exists bot', events. split; [done|].
  intros Hidle. by eapply update_idleInvariant.
Qed.

Lemma update_completes_idle_witness :
  exists bot' events,
    update demo_bot blind_frame = Ret (bot', events) /\ idleInvariant bot'.
Proof.
  destruct (update_completes_idle demo_bot blind_frame)
    as (bot' & events & Hupd & Hidle).
  exists bot', events. split; [exact Hupd|]. apply Hidle.
  intros _. reflexivity.
Defined.
